(** * GoA-Timer: match statistics and skill-rating engine

    A shallow embedding of the rating and statistics services of the
    Guards of Atlantis companion application:

    - [FirebaseValidationService.validateMatchEdit / validateNewMatch]
    - [FirebaseStatsService.recalculatePlayerStats]
    - [MatchService.recordMatch / deleteMatch] (the IndexedDB and the
      Firestore variants run the same steps)
    - [MatchMakingService.calculateWinProbabilityWithCI],
      [generateBalancedTeams], [generateBalancedTeamsByExperience]
    - [PlayerService.getDisplayRating / createPlayer / savePlayer /
      getPlayersWithNoGames / deletePlayer]
    - [FirebaseStatsService.getPlayerStats / getCurrentTrueSkillRatings /
      getHistoricalRatings / hasMatchData]
    - [FirebaseMatchService.updateMatchPlayers / canEditMatch / editMatch]
    - [FirebaseImportExportService.exportData / importData]
    - [utils.generateUUID / getDeviceId]
    - the game timer of [App.tsx]: [gameReducer] and the functions that
      build its states

    Conventions of the embedding.

    - JavaScript numbers are idealised: counters, levels, hero ids and
      timestamps (milliseconds of a [Date]) are [Z]; skill values
      ([mu], [sigma], ordinals, probabilities) are exact rationals [Q].
    - A key-value table (an IndexedDB object store with [keyPath: 'id'], a
      Firestore collection keyed by document id) is a [gmap string _];
      [getAll] enumerates it with [map_to_list], an order that depends on
      the stored keys only.
    - A JavaScript object or [Map] used as a dictionary is a [gmap].
    - A thrown exception is [None] in the [option] monad.
    - The packages [openskill] and [normal-distribution] are interfaces
      (type classes); what the wall clock, [generateUUID] and
      [getDeviceId] return is passed in explicitly. *)

From Stdlib Require Import ZArith QArith Qround Lia Ascii.
From stdpp Require Import base gmap strings list fin_maps pretty sorting.
From Stdlib Require Import Lqa.

Local Open Scope string_scope.
Local Open Scope Z_scope.
Local Open Scope list_scope.

(** ** JavaScript primitives *)

(** [Math.round]: the nearest integer, halves towards plus infinity. *)
Definition Math_round (x : Q) : Z := Qfloor (x + (1 # 2))%Q.

(** [Array.prototype.join]. *)
Definition join (sep : string) (l : list string) : string := String.concat sep l.

(** [x | 0] on a number: the fraction is dropped and the integer is wrapped
    to 32 bits, signed. *)
Definition toInt32 (x : Q) : Z :=
  (Z.quot (Qnum x) (Z.pos (Qden x)) + 2 ^ 31) mod 2 ^ 32 - 2 ^ 31.

(** [Number.prototype.toString (16)] on an integer. *)
Definition hexDigit (d : Z) : Ascii.ascii :=
  default "0"%char (String.list_ascii_of_string "0123456789abcdef" !! Z.to_nat d).

Fixpoint hexDigits (fuel : nat) (n : Z) (acc : list Ascii.ascii) : list Ascii.ascii :=
  match fuel with
  | O => acc
  | S fuel' =>
      let acc' := hexDigit (n mod 16) :: acc in
      if decide (n < 16) then acc' else hexDigits fuel' (n / 16) acc'
  end.

Definition toString16 (n : Z) : string :=
  if decide (n < 0)
  then "-" +:+ String.string_of_list_ascii (hexDigits (S (Z.to_nat (Z.log2 (- n)))) (- n) [])
  else String.string_of_list_ascii (hexDigits (S (Z.to_nat (Z.log2 n))) n []).

(** [Array.prototype.sort] with a numeric comparator is a stable sort:
    an element moves in front of another only when the comparator is
    strictly negative for the pair taken in their original order.  The
    embedding is the stable insertion sort. *)
Section Sort.
Context {A : Type} (cmp : A → A → Z).

Fixpoint sort_insert (x : A) (l : list A) : list A :=
  match l with
  | [] => [x]
  | y :: l' => if decide (cmp x y ≤ 0) then x :: l else y :: sort_insert x l'
  end.

Definition array_sort (l : list A) : list A := foldr sort_insert [] l.
End Sort.

(** Monadic left fold: a [for ... of] loop whose body may throw. *)
Fixpoint foldlM {A B : Type} (f : B → A → option B) (b : B) (l : list A) : option B :=
  match l with
  | [] => Some b
  | a :: l' => match f b a with Some b' => foldlM f b' l' | None => None end
  end.

(** ** Data model ([types.ts], [models.ts]) *)

Inductive Team := Titans | Atlanteans.
Inductive GameLength := Quick | Long.

Global Instance Team_eq_dec : EqDecision Team.
Proof. solve_decision. Defined.
Global Instance GameLength_eq_dec : EqDecision GameLength.
Proof. solve_decision. Defined.

Definition INITIAL_ELO : Z := 1200.
Definition TRUESKILL_BETA : Q := 25 # 6.
Definition TRUESKILL_TAU : Q := 25 # 300.

Module DBPlayer.
Record t := mk {
  id : string;
  name : string;
  totalGames : Z;
  wins : Z;
  losses : Z;
  elo : Z;
  mu : option Q;
  sigma : option Q;
  ordinal : option Q;
  lastPlayed : Z;
  dateCreated : Z;
  deviceId : option string;
  level : option Z
}.
End DBPlayer.
Abbreviation DBPlayer := DBPlayer.t.

Module DBMatch.
Record t := mk {
  id : string;
  date : Z;
  winningTeam : Team;
  gameLength : GameLength;
  doubleLanes : bool;
  titanPlayers : nat;
  atlanteanPlayers : nat;
  deviceId : option string
}.
End DBMatch.
Abbreviation DBMatch := DBMatch.t.

Module DBMatchPlayer.
Record t := mk {
  id : string;
  matchId : string;
  playerId : string;
  team : Team;
  heroId : Z;
  heroName : string;
  heroRoles : list string;
  kills : option Z;
  deaths : option Z;
  assists : option Z;
  goldEarned : option Z;
  minionKills : option Z;
  level : option Z;
  deviceId : option string
}.
End DBMatchPlayer.
Abbreviation DBMatchPlayer := DBMatchPlayer.t.

Inductive Severity := error | warning.

Module ValidationError.
Record t := mk {
  field : string;
  playerId : option string;
  message : string;
  severity : Severity
}.
End ValidationError.
Abbreviation ValidationError := ValidationError.t.

Module ValidationResult.
Record t := mk {
  isValid : bool;
  errors : list ValidationError;
  warnings : list ValidationError
}.
End ValidationResult.
Abbreviation ValidationResult := ValidationResult.t.

(** The [matchData] argument of [recordMatch] and [validateNewMatch]. *)
Module MatchData.
Record t := mk {
  date : Z;
  winningTeam : Team;
  gameLength : GameLength;
  doubleLanes : bool
}.
End MatchData.
Abbreviation MatchData := MatchData.t.

(** One element of the [playerData] argument of [recordMatch]. *)
Module PlayerInfo.
Record t := mk {
  id : string;
  team : Team;
  heroId : Z;
  heroName : string;
  heroRoles : list string;
  kills : option Z;
  deaths : option Z;
  assists : option Z;
  goldEarned : option Z;
  minionKills : option Z;
  level : option Z
}.
End PlayerInfo.
Abbreviation PlayerInfo := PlayerInfo.t.

(** ** Validation ([FirebaseValidationService.ts]) *)

(** The wall clock as validation reads it: [now] is [new Date()], and
    [oneYearAgo] is the same instant after [setFullYear (year - 1)]. *)
Record Clock := { now : Z; oneYearAgo : Z }.

(** [heroUsage]: a [Map<number, string[]>]; entries keep insertion order,
    which is the order [Map.forEach] visits them in. *)
Fixpoint heroUsage_push (h : Z) (pid : string) (u : list (Z * list string))
  : list (Z * list string) :=
  match u with
  | [] => [(h, [pid])]
  | (h', ps) :: u' =>
      if decide (h' = h) then (h', ps ++ [pid]) :: u'
      else (h', ps) :: heroUsage_push h pid u'
  end.

Definition heroUsage (playersData : list DBMatchPlayer) : list (Z * list string) :=
  foldl (λ u p, heroUsage_push (DBMatchPlayer.heroId p) (DBMatchPlayer.playerId p) u)
        [] playersData.

Definition heroErrorMessage (heroId : Z) (playerIds : list string) : string :=
  "Hero ID " +:+ pretty heroId +:+ " is assigned to multiple players: "
    +:+ join ", " playerIds.

Definition heroError (heroId : Z) (playerIds : list string) : ValidationError :=
  ValidationError.mk "hero" None (heroErrorMessage heroId playerIds) error.

Definition heroErrors (u : list (Z * list string)) : list ValidationError :=
  flat_map (λ '(heroId, playerIds),
              if decide (1 < length playerIds)%nat then [heroError heroId playerIds] else [])
           u.

Definition teamSizeWarning (titans atlanteans : nat) : ValidationError :=
  ValidationError.mk "teams" None
    ("Team sizes are unbalanced (Titans: " +:+ pretty titans +:+ ", Atlanteans: "
       +:+ pretty atlanteans +:+ ")")
    warning.

(** The five counters visited by the negative-statistics loop, in order. *)
Definition statFields (p : DBMatchPlayer) : list (string * option Z) :=
  [ ("kills", DBMatchPlayer.kills p);
    ("deaths", DBMatchPlayer.deaths p);
    ("assists", DBMatchPlayer.assists p);
    ("goldEarned", DBMatchPlayer.goldEarned p);
    ("minionKills", DBMatchPlayer.minionKills p) ].

Definition negativeErrors (p : DBMatchPlayer) : list ValidationError :=
  flat_map (λ '(field, value),
              match value with
              | Some v =>
                  if decide (v < 0)
                  then [ValidationError.mk field (Some (DBMatchPlayer.playerId p))
                          (field +:+ " cannot be negative") error]
                  else []
              | None => []
              end)
           (statFields p).

Definition levelErrors (p : DBMatchPlayer) : list ValidationError :=
  match DBMatchPlayer.level p with
  | Some l =>
      if decide (l < 1 ∨ l > 10)
      then [ValidationError.mk "level" (Some (DBMatchPlayer.playerId p))
              "Level must be between 1 and 10" error]
      else []
  | None => []
  end.

Section Validation.
(** The string value of a [GameLength] member ([types.ts]). *)
Variable showGameLength : GameLength → string.

Definition killsWarnings (matchData : DBMatch) (p : DBMatchPlayer)
  : list ValidationError :=
  match DBMatchPlayer.kills p with
  | Some k =>
      if decide (k ≠ 0 ∧ k > 0) then
        let maxKillsQuick := 10 in
        let maxKillsLong := 20 in
        let maxKills :=
          if decide (DBMatch.gameLength matchData = Quick)
          then maxKillsQuick else maxKillsLong in
        if decide (k > maxKills)
        then [ValidationError.mk "kills" (Some (DBMatchPlayer.playerId p))
                (pretty k +:+ " kills seems high for "
                   +:+ showGameLength (DBMatch.gameLength matchData) +:+ " match")
                warning]
        else []
      else []
  | None => []
  end.

Definition deathsWarnings (p : DBMatchPlayer) : list ValidationError :=
  match DBMatchPlayer.deaths p with
  | Some d =>
      if decide (d ≠ 0 ∧ d > 15)
      then [ValidationError.mk "deaths" (Some (DBMatchPlayer.playerId p))
              (pretty d +:+ " deaths seems very high") warning]
      else []
  | None => []
  end.

Definition dateWarnings (clock : Clock) (matchData : DBMatch)
  : list ValidationError :=
  (if decide (DBMatch.date matchData > now clock)
   then [ValidationError.mk "date" None "Match date is in the future" warning]
   else [])
  ++
  (if decide (DBMatch.date matchData < oneYearAgo clock)
   then [ValidationError.mk "date" None "Match date is more than a year old" warning]
   else []).

Definition validateMatchEdit (clock : Clock) (matchData : DBMatch)
    (playersData : list DBMatchPlayer) : ValidationResult :=
  let titanPlayers :=
    filter (λ p, DBMatchPlayer.team p = Titans) playersData in
  let atlanteanPlayers :=
    filter (λ p, DBMatchPlayer.team p = Atlanteans) playersData in
  let sizeDifference :=
    Z.abs (Z.of_nat (length titanPlayers) - Z.of_nat (length atlanteanPlayers)) in
  let errors :=
    (if decide (length titanPlayers = 0%nat)
     then [ValidationError.mk "teams" None "Titans team cannot be empty" error]
     else [])
    ++ (if decide (length atlanteanPlayers = 0%nat)
        then [ValidationError.mk "teams" None "Atlanteans team cannot be empty" error]
        else [])
    ++ heroErrors (heroUsage playersData)
    ++ flat_map (λ p, negativeErrors p ++ levelErrors p) playersData in
  let warnings :=
    (if decide (sizeDifference > 1)
     then [teamSizeWarning (length titanPlayers) (length atlanteanPlayers)]
     else [])
    ++ flat_map (λ p, killsWarnings matchData p ++ deathsWarnings p) playersData
    ++ dateWarnings clock matchData in
  ValidationResult.mk (bool_decide (length errors = 0%nat)) errors warnings.

Definition toDBMatchPlayer (p : PlayerInfo) : DBMatchPlayer :=
  DBMatchPlayer.mk "" "" (PlayerInfo.id p) (PlayerInfo.team p)
    (PlayerInfo.heroId p) (PlayerInfo.heroName p) (PlayerInfo.heroRoles p)
    (PlayerInfo.kills p) (PlayerInfo.deaths p) (PlayerInfo.assists p)
    (PlayerInfo.goldEarned p) (PlayerInfo.minionKills p) (PlayerInfo.level p)
    None.

Definition validateNewMatch (clock : Clock) (matchData : MatchData)
    (playerData : list PlayerInfo) : ValidationResult :=
  let dbMatch :=
    DBMatch.mk "" (MatchData.date matchData) (MatchData.winningTeam matchData)
      (MatchData.gameLength matchData) (MatchData.doubleLanes matchData)
      (length (filter (λ p, PlayerInfo.team p = Titans) playerData))
      (length (filter (λ p, PlayerInfo.team p = Atlanteans) playerData))
      None in
  validateMatchEdit clock dbMatch (toDBMatchPlayer <$> playerData).
End Validation.

(** ** External packages and environment *)

(** A rating object of [openskill]. *)
Module Rating.
Record t := mk { mu : Q; sigma : Q }.
End Rating.
Abbreviation Rating := Rating.t.

(** The three functions imported from [openskill].  [rate teams rank beta
    tau] receives the teams' rating lists and returns one list per team
    with one rating per input rating. *)
Class OpenSkill := {
  rating : Rating;
  rate : list (list Rating) → list nat → Q → Q → list (list Rating);
  ordinal : Rating → Q
}.

(** Floating-point functions with no rational counterpart: [Math.sqrt], and
    [new NormalDistribution(mean, sd).cdf(x)] of the package
    [normal-distribution], which returns a probability. *)
Class Numerics := {
  Math_sqrt : Q → Q;
  cdf : Q → Q → Q → Q;
  cdf_range : ∀ mean sd x, (0 <= cdf mean sd x)%Q ∧ (cdf mean sd x <= 1)%Q
}.

(** [getDeviceId ()] of [utils.ts]: the identifier kept in local storage. *)
Class Device := { getDeviceId : string }.

(** [!s] for an optional string: undefined or empty. *)
Definition falsy (s : option string) : bool :=
  match s with
  | None => true
  | Some s => bool_decide (s = "")
  end.

(** ** Identifiers ([utils.ts]) *)

Module utils.
Section Random.
(** [Math_random i] is what the [i]-th call of [Math.random ()] made by
    one call of [generateUUID] returns. *)
Variable Math_random : nat → Q.

(** The callback given to [replace]. *)
Definition replacement (c : Ascii.ascii) (random : Q) : string :=
  let r := toInt32 (random * 16) in
  let v := if decide (c = "x"%char) then r else Z.lor (Z.land r 3) 8 in
  toString16 v.

(** [template.replace (/[xy]/g, callback)], from the [i]-th call on. *)
Fixpoint replaceXY (template : string) (i : nat) : string :=
  match template with
  | EmptyString => EmptyString
  | String c rest =>
      if decide (c = "x"%char ∨ c = "y"%char)
      then replacement c (Math_random i) +:+ replaceXY rest (S i)
      else String c (replaceXY rest i)
  end.

Definition generateUUID : string :=
  replaceXY "xxxxxxxx-xxxx-4xxx-yxxx-xxxxxxxxxxxx" 0.
End Random.

Definition storageKey : string := "guards-of-atlantis-device-id".

(** [getDeviceId] over the local storage; [timestamp] and [randomPart] are
    the two base-36 strings the function builds from the clock and from
    [Math.random ()] when it has to make an identifier. *)
Definition getDeviceId (timestamp randomPart : string)
    (localStorage : gmap string string) : string * gmap string string :=
  let generated :=
    let deviceId := "device_" +:+ timestamp +:+ "_" +:+ randomPart in
    (deviceId, <[storageKey := deviceId]> localStorage) in
  match localStorage !! storageKey with
  | Some deviceId => if decide (deviceId = "") then generated else (deviceId, localStorage)
  | None => generated
  end.
End utils.

(** ** Storage *)

Record Store := mkStore {
  players : gmap string DBPlayer;
  matches : gmap string DBMatch;
  matchPlayers : gmap string DBMatchPlayer
}.

Definition set_players (f : gmap string DBPlayer → gmap string DBPlayer) (s : Store) : Store :=
  mkStore (f (players s)) (matches s) (matchPlayers s).
Definition set_matches (f : gmap string DBMatch → gmap string DBMatch) (s : Store) : Store :=
  mkStore (players s) (f (matches s)) (matchPlayers s).
Definition set_matchPlayers
    (f : gmap string DBMatchPlayer → gmap string DBMatchPlayer) (s : Store) : Store :=
  mkStore (players s) (matches s) (f (matchPlayers s)).

(** [clearAllData] ([FirebaseDatabaseCore.ts], [DatabaseCore.ts]). *)
Definition clearAllData (s : Store) : bool * Store := (true, mkStore ∅ ∅ ∅).

(** Every record is stored under its own [id]: the key path of the object
    stores, the document id of the collections. *)
Record wf_store (s : Store) : Prop := {
  wf_players : ∀ k p, players s !! k = Some p → DBPlayer.id p = k;
  wf_matches : ∀ k m, matches s !! k = Some m → DBMatch.id m = k;
  wf_matchPlayers : ∀ k mp, matchPlayers s !! k = Some mp → DBMatchPlayer.id mp = k
}.

(** ** Player service ([PlayerService.ts], [FirebasePlayerService.ts]) *)

Section PlayerService.
Context `{OpenSkill} `{Device}.

Definition getPlayer (s : Store) (playerId : string) : option DBPlayer :=
  players s !! playerId.

Definition withDeviceId (player : DBPlayer) : DBPlayer :=
  if falsy (DBPlayer.deviceId player)
  then DBPlayer.mk (DBPlayer.id player) (DBPlayer.name player)
         (DBPlayer.totalGames player) (DBPlayer.wins player) (DBPlayer.losses player)
         (DBPlayer.elo player) (DBPlayer.mu player) (DBPlayer.sigma player)
         (DBPlayer.ordinal player) (DBPlayer.lastPlayed player)
         (DBPlayer.dateCreated player) (Some getDeviceId) (DBPlayer.level player)
  else player.

Definition savePlayer (player : DBPlayer) (s : Store) : Store :=
  set_players (insert (DBPlayer.id player) (withDeviceId player)) s.

Definition getAllPlayers (s : Store) : list DBPlayer :=
  (map_to_list (players s)).*2.

Definition getDisplayRating (player : DBPlayer) : Z :=
  match DBPlayer.ordinal player with
  | Some o => Math_round ((o + 25) * 40 + 200)%Q
  | None => DBPlayer.elo player
  end.

(** [createPlayer]; [today] is [new Date ()]. *)
Definition newPlayer (today : Z) (playerId playerName : string) : DBPlayer :=
  let defaultRating := rating in
  DBPlayer.mk playerId playerName 0 0 0 INITIAL_ELO
    (Some (Rating.mu defaultRating)) (Some (Rating.sigma defaultRating))
    (Some (ordinal defaultRating)) today today (Some getDeviceId) (Some 1).

Definition createPlayer (today : Z) (playerId playerName : string) (s : Store)
  : DBPlayer * Store :=
  let newPlayer := newPlayer today playerId playerName in
  (newPlayer, savePlayer newPlayer s).

Definition getPlayersWithNoGames (s : Store) : list DBPlayer :=
  filter (λ player, DBPlayer.totalGames player = 0) (getAllPlayers s).

(** [deletePlayer]: the result and the store it leaves. *)
Definition deletePlayer (playerId : string) (s : Store) : bool * Store :=
  match getPlayer s playerId with
  | None => (false, s)
  | Some player =>
      if decide (DBPlayer.totalGames player ≠ 0) then (false, s)
      else (true, set_players (delete playerId) s)
  end.
End PlayerService.

(** ** Match storage ([MatchService.ts], [FirebaseMatchService.ts]) *)

Section MatchStorage.
Context `{Device}.

Definition getAllMatches (s : Store) : list DBMatch :=
  (map_to_list (matches s)).*2.

Definition getMatch (s : Store) (matchId : string) : option DBMatch :=
  matches s !! matchId.

(** [getMatchPlayers]: the rows whose [matchId] index equals the argument. *)
Definition getMatchPlayers (s : Store) (matchId : string) : list DBMatchPlayer :=
  filter (λ mp, DBMatchPlayer.matchId mp = matchId) (map_to_list (matchPlayers s)).*2.

(** [getPlayerMatches]: the rows whose [playerId] index equals the argument. *)
Definition getPlayerMatches (s : Store) (playerId : string) : list DBMatchPlayer :=
  filter (λ mp, DBMatchPlayer.playerId mp = playerId) (map_to_list (matchPlayers s)).*2.

Definition getAllMatchPlayers (s : Store) : list DBMatchPlayer :=
  (map_to_list (matchPlayers s)).*2.

(** [saveMatch] and [saveMatchPlayer].  Their callers pass records whose
    [id] was just taken from [generateUUID], a 36-character string, so the
    branch that generates a missing id is not taken and is left out. *)
Definition saveMatch (m : DBMatch) (s : Store) : Store :=
  let m' :=
    if falsy (DBMatch.deviceId m)
    then DBMatch.mk (DBMatch.id m) (DBMatch.date m) (DBMatch.winningTeam m)
           (DBMatch.gameLength m) (DBMatch.doubleLanes m) (DBMatch.titanPlayers m)
           (DBMatch.atlanteanPlayers m) (Some getDeviceId)
    else m in
  set_matches (insert (DBMatch.id m') m') s.

Definition saveMatchPlayer (mp : DBMatchPlayer) (s : Store) : Store :=
  let mp' :=
    if falsy (DBMatchPlayer.deviceId mp)
    then DBMatchPlayer.mk (DBMatchPlayer.id mp) (DBMatchPlayer.matchId mp)
           (DBMatchPlayer.playerId mp) (DBMatchPlayer.team mp) (DBMatchPlayer.heroId mp)
           (DBMatchPlayer.heroName mp) (DBMatchPlayer.heroRoles mp)
           (DBMatchPlayer.kills mp) (DBMatchPlayer.deaths mp) (DBMatchPlayer.assists mp)
           (DBMatchPlayer.goldEarned mp) (DBMatchPlayer.minionKills mp)
           (DBMatchPlayer.level mp) (Some getDeviceId)
    else mp in
  set_matchPlayers (insert (DBMatchPlayer.id mp') mp') s.

Definition deleteMatchAndPlayers (matchId : string) (mps : list DBMatchPlayer)
    (s : Store) : Store :=
  set_matches (delete matchId)
    (foldl (λ s player, set_matchPlayers (delete (DBMatchPlayer.id player)) s) s mps).
End MatchStorage.

(** ** Recalculation ([FirebaseStatsService.ts]) *)

Module Stats.
Record t := mk { totalGames : Z; wins : Z; losses : Z }.
End Stats.
Abbreviation Stats := Stats.t.

(** One entry of [heroesMap] and of [rolesMap] in [getPlayerStats]. *)
Module HeroCount.
Record t := mk { heroId : Z; heroName : string; count : Z }.
End HeroCount.
Abbreviation HeroCount := HeroCount.t.

Module RoleCount.
Record t := mk { role : string; count : Z }.
End RoleCount.
Abbreviation RoleCount := RoleCount.t.

(** What [getPlayerStats] returns. *)
Module PlayerStats.
Record t := mk {
  player : option DBPlayer;
  favoriteHeroes : list HeroCount;
  allHeroesPlayed : list HeroCount;
  favoriteRoles : list RoleCount;
  allRolesPlayed : list RoleCount;
  matchesPlayed : list DBMatchPlayer
}.
End PlayerStats.
Abbreviation PlayerStats := PlayerStats.t.

(** One element of what [getHistoricalRatings] returns. *)
Module RatingSnapshot.
Record t := mk { date : string; matchNumber : Z; ratings : gmap string Z }.
End RatingSnapshot.
Abbreviation RatingSnapshot := RatingSnapshot.t.

Module FirebaseStatsService.
Section Service.
Context `{OpenSkill} `{Device}.

(** The service object: its only field is the rating dictionary. *)
Record t := mk { playerRatings : gmap string Rating }.

Definition ranks (winningTeam : Team) : list nat :=
  if decide (winningTeam = Titans) then [1; 2]%nat else [2; 1]%nat.

(** [for (i ...) playerRatings[ids[i]] = result[i]] *)
Definition storeRatings (ids : list string) (result : list Rating)
    (R : gmap string Rating) : gmap string Rating :=
  foldl (λ R '(i, r), <[i := r]> R) R (zip ids result).

Definition updateStats (m : DBMatch) (T : gmap string Stats) (mp : DBMatchPlayer)
  : gmap string Stats :=
  match T !! DBMatchPlayer.playerId mp with
  | None => T
  | Some stats =>
      <[DBMatchPlayer.playerId mp :=
          if decide (DBMatchPlayer.team mp = DBMatch.winningTeam m)
          then Stats.mk (Stats.totalGames stats + 1) (Stats.wins stats + 1)
                 (Stats.losses stats)
          else Stats.mk (Stats.totalGames stats + 1) (Stats.wins stats)
                 (Stats.losses stats + 1)]> T
  end.

(** The body of the loop over the matches.  A participant without an
    entry in the rating dictionary puts [undefined] into the list given to
    [rate], which throws on it. *)
Definition processMatch (s : Store)
    (st : gmap string Rating * gmap string Stats) (m : DBMatch)
  : option (gmap string Rating * gmap string Stats) :=
  let '(R, T) := st in
  let matchPlayers := getMatchPlayers s (DBMatch.id m) in
  let titanPlayers :=
    DBMatchPlayer.playerId <$> filter (λ mp, DBMatchPlayer.team mp = Titans) matchPlayers in
  let atlanteanPlayers :=
    DBMatchPlayer.playerId <$> filter (λ mp, DBMatchPlayer.team mp ≠ Titans) matchPlayers in
  let titanRatings := (λ i, R !! i) <$> titanPlayers in
  let atlanteanRatings := (λ i, R !! i) <$> atlanteanPlayers in
  if decide (length titanRatings = 0%nat ∨ length atlanteanRatings = 0%nat)
  then Some (R, T)
  else
    tr ← mapM (λ r, r) titanRatings;
    ar ← mapM (λ r, r) atlanteanRatings;
    let result := rate [tr; ar] (ranks (DBMatch.winningTeam m))
                    TRUESKILL_BETA TRUESKILL_TAU in
    let R1 := storeRatings titanPlayers (default [] (result !! 0%nat)) R in
    let R2 := storeRatings atlanteanPlayers (default [] (result !! 1%nat)) R1 in
    Some (R2, foldl (updateStats m) T matchPlayers).

(** [updatedPlayer]; [today] is the [new Date ()] of this iteration. *)
Definition updatedPlayer (today : Z) (player : DBPlayer) (stats : Stats)
    (playerRating : Rating) : DBPlayer :=
  DBPlayer.mk (DBPlayer.id player) (DBPlayer.name player)
    (Stats.totalGames stats) (Stats.wins stats) (Stats.losses stats)
    (Math_round ((ordinal playerRating + 25) * 40 + 200)%Q)
    (Some (Rating.mu playerRating)) (Some (Rating.sigma playerRating))
    (Some (ordinal playerRating))
    (if decide (Stats.totalGames stats > 0) then today else DBPlayer.lastPlayed player)
    (DBPlayer.dateCreated player) (DBPlayer.deviceId player) (DBPlayer.level player).

Definition saveUpdated (today : string → Z) (R : gmap string Rating)
    (T : gmap string Stats) (s : Store) (player : DBPlayer) : option Store :=
  stats ← T !! DBPlayer.id player;
  playerRating ← R !! DBPlayer.id player;
  Some (savePlayer
          (updatedPlayer (today (DBPlayer.id player)) player stats playerRating) s).

Definition initialStats (players : list DBPlayer) : gmap string Stats :=
  foldl (λ T player, <[DBPlayer.id player := Stats.mk 0 0 0]> T) ∅ players.

Definition initialRatings (players : list DBPlayer) : gmap string Rating :=
  foldl (λ R player, <[DBPlayer.id player := rating]> R) ∅ players.

Definition sortByDate (allMatches : list DBMatch) : list DBMatch :=
  array_sort (λ a b, DBMatch.date a - DBMatch.date b) allMatches.

(** [recalculatePlayerStats].  [today id] is the clock reading when the
    record of player [id] is rebuilt.  The rating dictionary held by the
    service is overwritten first, so the field's previous value [this] is
    not read. *)
Definition recalculatePlayerStats (today : string → Z) (this : t) (s : Store)
  : option (t * Store) :=
  let players := getAllPlayers s in
  let playerStatsMap := initialStats players in
  let playerRatings0 := initialRatings players in
  let allMatches := sortByDate (getAllMatches s) in
  '(R, T) ← foldlM (processMatch s) (playerRatings0, playerStatsMap) allMatches;
  s' ← foldlM (saveUpdated today R T) s players;
  Some (mk R, s').

(** [getPlayerStats].  [heroesMap] and [rolesMap] are [Map]s: their
    entries keep the order of insertion, which is the order
    [Array.from (map.values ())] lists them in. *)
Fixpoint heroesMap_count (row : DBMatchPlayer) (heroesMap : list HeroCount)
  : list HeroCount :=
  match heroesMap with
  | [] => [HeroCount.mk (DBMatchPlayer.heroId row) (DBMatchPlayer.heroName row) 1]
  | existingHero :: rest =>
      if decide (HeroCount.heroId existingHero = DBMatchPlayer.heroId row)
      then HeroCount.mk (HeroCount.heroId existingHero) (HeroCount.heroName existingHero)
             (HeroCount.count existingHero + 1) :: rest
      else existingHero :: heroesMap_count row rest
  end.

Fixpoint rolesMap_count (role : string) (rolesMap : list RoleCount) : list RoleCount :=
  match rolesMap with
  | [] => [RoleCount.mk role 1]
  | existingRole :: rest =>
      if decide (RoleCount.role existingRole = role)
      then RoleCount.mk (RoleCount.role existingRole) (RoleCount.count existingRole + 1)
             :: rest
      else existingRole :: rolesMap_count role rest
  end.

Definition getPlayerStats (s : Store) (playerId : string) : PlayerStats :=
  match getPlayer s playerId with
  | None => PlayerStats.mk None [] [] [] [] []
  | Some player =>
      let matchesPlayed := getPlayerMatches s playerId in
      let heroesMap := foldl (λ heroesMap row, heroesMap_count row heroesMap) [] matchesPlayed in
      let favoriteHeroes :=
        take 3 (array_sort (λ a b, HeroCount.count b - HeroCount.count a) heroesMap) in
      let allHeroesPlayed :=
        array_sort (λ a b, HeroCount.count b - HeroCount.count a) heroesMap in
      let rolesMap :=
        foldl (λ rolesMap row,
                 foldl (λ rolesMap role, rolesMap_count role rolesMap) rolesMap
                       (DBMatchPlayer.heroRoles row))
              [] matchesPlayed in
      let favoriteRoles :=
        take 3 (array_sort (λ a b, RoleCount.count b - RoleCount.count a) rolesMap) in
      let allRolesPlayed :=
        array_sort (λ a b, RoleCount.count b - RoleCount.count a) rolesMap in
      PlayerStats.mk (Some player) favoriteHeroes allHeroesPlayed favoriteRoles
        allRolesPlayed matchesPlayed
  end.

(** The display scale of a rating object: [Math.round ((ordinal + 25) * 40 + 200)]. *)
Definition displayRating (playerRating : Rating) : Z :=
  Math_round ((ordinal playerRating + 25) * 40 + 200)%Q.

(** The body of the loop of [getCurrentTrueSkillRatings]. *)
Definition currentRatingsStep (s : Store) (playerRatings : gmap string Rating)
    (m : DBMatch) : option (gmap string Rating) :=
  let matchPlayers := getMatchPlayers s (DBMatch.id m) in
  let titanPlayers :=
    DBMatchPlayer.playerId <$> filter (λ mp, DBMatchPlayer.team mp = Titans) matchPlayers in
  let atlanteanPlayers :=
    DBMatchPlayer.playerId <$> filter (λ mp, DBMatchPlayer.team mp ≠ Titans) matchPlayers in
  let titanRatings := (λ i, playerRatings !! i) <$> titanPlayers in
  let atlanteanRatings := (λ i, playerRatings !! i) <$> atlanteanPlayers in
  if decide (length titanRatings = 0%nat ∨ length atlanteanRatings = 0%nat)
  then Some playerRatings
  else
    tr ← mapM (λ r, r) titanRatings;
    ar ← mapM (λ r, r) atlanteanRatings;
    let result := rate [tr; ar] (ranks (DBMatch.winningTeam m))
                    TRUESKILL_BETA TRUESKILL_TAU in
    let R1 := storeRatings titanPlayers (default [] (result !! 0%nat)) playerRatings in
    Some (storeRatings atlanteanPlayers (default [] (result !! 1%nat)) R1).

(** [getCurrentTrueSkillRatings]: the empty object when the replay throws. *)
Definition getCurrentTrueSkillRatings (s : Store) : gmap string Z :=
  let allMatches := sortByDate (getAllMatches s) in
  let players := getAllPlayers s in
  match foldlM (currentRatingsStep s) (initialRatings players) allMatches with
  | Some playerRatings => displayRating <$> playerRatings
  | None => ∅
  end.

(** The body of the loop of [getHistoricalRatings], at index [matchIndex].
    [showDate] is [Date.prototype.toString]. *)
Definition historicalRatingsStep (showDate : Z → string) (s : Store)
    (st : gmap string Rating * list RatingSnapshot) (im : nat * DBMatch)
  : option (gmap string Rating * list RatingSnapshot) :=
  let '(playerRatings, ratingHistory) := st in
  let '(matchIndex, m) := im in
  let matchPlayers := getMatchPlayers s (DBMatch.id m) in
  let titanPlayers :=
    DBMatchPlayer.playerId <$> filter (λ mp, DBMatchPlayer.team mp = Titans) matchPlayers in
  let atlanteanPlayers :=
    DBMatchPlayer.playerId <$> filter (λ mp, DBMatchPlayer.team mp ≠ Titans) matchPlayers in
  let titanRatings := (λ i, playerRatings !! i) <$> titanPlayers in
  let atlanteanRatings := (λ i, playerRatings !! i) <$> atlanteanPlayers in
  if decide (length titanRatings = 0%nat ∨ length atlanteanRatings = 0%nat)
  then Some (playerRatings, ratingHistory)
  else
    tr ← mapM (λ r, r) titanRatings;
    ar ← mapM (λ r, r) atlanteanRatings;
    let result := rate [tr; ar] (ranks (DBMatch.winningTeam m))
                    TRUESKILL_BETA TRUESKILL_TAU in
    let R1 := storeRatings titanPlayers (default [] (result !! 0%nat)) playerRatings in
    let R2 := storeRatings atlanteanPlayers (default [] (result !! 1%nat)) R1 in
    let snapshot := displayRating <$> R2 in
    Some (R2, ratingHistory
                ++ [RatingSnapshot.mk (showDate (DBMatch.date m))
                      (Z.of_nat matchIndex + 1) snapshot]).

(** [getHistoricalRatings]: the empty list when the replay throws. *)
Definition getHistoricalRatings (showDate : Z → string) (s : Store)
  : list RatingSnapshot :=
  let allMatches := sortByDate (getAllMatches s) in
  let players := getAllPlayers s in
  match foldlM (historicalRatingsStep showDate s) (initialRatings players, [])
               (imap pair allMatches) with
  | Some (_, ratingHistory) => ratingHistory
  | None => []
  end.

Definition hasMatchData (s : Store) : bool :=
  bool_decide (0 < length (getAllMatches s))%nat.
End Service.
End FirebaseStatsService.

(** ** Match life cycle ([MatchService.ts], [FirebaseMatchService.ts]) *)

Module MatchService.
Section Service.
Context `{OpenSkill} `{Device}.
Variable showGameLength : GameLength → string.

(** The level test of [recordMatch]:
    [playerInfo.level !== undefined &&
     (existingPlayer.level === undefined || playerInfo.level > existingPlayer.level)]. *)
Definition levelBumps (stored incoming : option Z) : bool :=
  match incoming with
  | Some l =>
      match stored with
      | None => true
      | Some l0 => bool_decide (l > l0)
      end
  | None => false
  end.

Definition withLevel (player : DBPlayer) (l : option Z) : DBPlayer :=
  DBPlayer.mk (DBPlayer.id player) (DBPlayer.name player)
    (DBPlayer.totalGames player) (DBPlayer.wins player) (DBPlayer.losses player)
    (DBPlayer.elo player) (DBPlayer.mu player) (DBPlayer.sigma player)
    (DBPlayer.ordinal player) (DBPlayer.lastPlayed player)
    (DBPlayer.dateCreated player) (DBPlayer.deviceId player) l.

(** One callback of the first loop of [recordMatch]: the player it
    resolves to and the store it leaves.  The callbacks of one call are
    run here one after the other, in the order of [playerData]. *)
Definition ensurePlayer (created : string → Z) (s : Store) (playerInfo : PlayerInfo)
  : DBPlayer * Store :=
  match getPlayer s (PlayerInfo.id playerInfo) with
  | None =>
      createPlayer (created (PlayerInfo.id playerInfo))
        (PlayerInfo.id playerInfo) (PlayerInfo.id playerInfo) s
  | Some existingPlayer =>
      if levelBumps (DBPlayer.level existingPlayer) (PlayerInfo.level playerInfo)
      then
        let existingPlayer := withLevel existingPlayer (PlayerInfo.level playerInfo) in
        (existingPlayer, savePlayer existingPlayer s)
      else (existingPlayer, s)
  end.

Definition ensurePlayers (created : string → Z) (playerData : list PlayerInfo)
    (s : Store) : Store :=
  foldl (λ s playerInfo, (ensurePlayer created s playerInfo).2) s playerData.

Definition newMatch (matchUuid : string) (matchData : MatchData)
    (playerData : list PlayerInfo) : DBMatch :=
  let titanPlayers :=
    PlayerInfo.id <$> filter (λ p, PlayerInfo.team p = Titans) playerData in
  let atlanteanPlayers :=
    PlayerInfo.id <$> filter (λ p, PlayerInfo.team p = Atlanteans) playerData in
  DBMatch.mk matchUuid (MatchData.date matchData) (MatchData.winningTeam matchData)
    (MatchData.gameLength matchData) (MatchData.doubleLanes matchData)
    (length titanPlayers) (length atlanteanPlayers) (Some getDeviceId).

Definition newMatchPlayer (uuid matchId : string) (playerInfo : PlayerInfo)
  : DBMatchPlayer :=
  DBMatchPlayer.mk uuid matchId (PlayerInfo.id playerInfo) (PlayerInfo.team playerInfo)
    (PlayerInfo.heroId playerInfo) (PlayerInfo.heroName playerInfo)
    (PlayerInfo.heroRoles playerInfo) (PlayerInfo.kills playerInfo)
    (PlayerInfo.deaths playerInfo) (PlayerInfo.assists playerInfo)
    (PlayerInfo.goldEarned playerInfo) (PlayerInfo.minionKills playerInfo)
    (PlayerInfo.level playerInfo) (Some getDeviceId).

(** The writes of [recordMatch] up to the recalculation. *)
Definition persistMatch (created : string → Z) (matchUuid : string)
    (rowUuid : nat → string) (matchData : MatchData) (playerData : list PlayerInfo)
    (s : Store) : Store :=
  let s1 := ensurePlayers created playerData s in
  let m := newMatch matchUuid matchData playerData in
  let s2 := saveMatch m s1 in
  foldl (λ s mp, saveMatchPlayer mp s) s2
    (imap (λ i playerInfo, newMatchPlayer (rowUuid i) (DBMatch.id m) playerInfo)
          playerData).

(** [recordMatch].  [matchUuid] and [rowUuid i] are what [generateUUID]
    returns for the match and for the row of the [i]-th participant;
    [created id] and [today id] are clock readings. *)
Definition recordMatch (clock : Clock) (created today : string → Z)
    (matchUuid : string) (rowUuid : nat → string)
    (stats : FirebaseStatsService.t)
    (matchData : MatchData) (playerData : list PlayerInfo) (s : Store)
  : option (string * (FirebaseStatsService.t * Store)) :=
  let validation := validateNewMatch showGameLength clock matchData playerData in
  if negb (ValidationResult.isValid validation) then None
  else
    let s' := persistMatch created matchUuid rowUuid matchData playerData s in
    r ← FirebaseStatsService.recalculatePlayerStats today stats s';
    Some (matchUuid, r).

(** [deleteMatch]: throws when the match is not found. *)
Definition deleteMatch (today : string → Z) (stats : FirebaseStatsService.t)
    (matchId : string) (s : Store) : option (FirebaseStatsService.t * Store) :=
  match getMatch s matchId with
  | None => None
  | Some _ =>
      let matchPlayers := getMatchPlayers s matchId in
      let s' := deleteMatchAndPlayers matchId matchPlayers s in
      FirebaseStatsService.recalculatePlayerStats today stats s'
  end.
End Service.
End MatchService.

(** ** Editing a match ([FirebaseMatchService.ts]) *)

(** A [Partial<DBMatch>]: [None] is a key the object does not have.  For
    the optional field [deviceId] the key may be there with the value
    [undefined], which is [Some None]. *)
Module MatchUpdates.
Record t := mk {
  id : option string;
  date : option Z;
  winningTeam : option Team;
  gameLength : option GameLength;
  doubleLanes : option bool;
  titanPlayers : option nat;
  atlanteanPlayers : option nat;
  deviceId : option (option string)
}.

(** [{ ...match, ...updates }] *)
Definition apply (m : DBMatch) (updates : t) : DBMatch :=
  DBMatch.mk
    (default (DBMatch.id m) (id updates))
    (default (DBMatch.date m) (date updates))
    (default (DBMatch.winningTeam m) (winningTeam updates))
    (default (DBMatch.gameLength m) (gameLength updates))
    (default (DBMatch.doubleLanes m) (doubleLanes updates))
    (default (DBMatch.titanPlayers m) (titanPlayers updates))
    (default (DBMatch.atlanteanPlayers m) (atlanteanPlayers updates))
    (default (DBMatch.deviceId m) (deviceId updates)).
End MatchUpdates.
Abbreviation MatchUpdates := MatchUpdates.t.

(** A [Partial<DBMatchPlayer>], read as [MatchUpdates]. *)
Module MatchPlayerUpdates.
Record t := mk {
  id : option string;
  matchId : option string;
  playerId : option string;
  team : option Team;
  heroId : option Z;
  heroName : option string;
  heroRoles : option (list string);
  kills : option (option Z);
  deaths : option (option Z);
  assists : option (option Z);
  goldEarned : option (option Z);
  minionKills : option (option Z);
  level : option (option Z);
  deviceId : option (option string)
}.

(** [{ ...existingRecord, ...updates }] *)
Definition apply (mp : DBMatchPlayer) (updates : t) : DBMatchPlayer :=
  DBMatchPlayer.mk
    (default (DBMatchPlayer.id mp) (id updates))
    (default (DBMatchPlayer.matchId mp) (matchId updates))
    (default (DBMatchPlayer.playerId mp) (playerId updates))
    (default (DBMatchPlayer.team mp) (team updates))
    (default (DBMatchPlayer.heroId mp) (heroId updates))
    (default (DBMatchPlayer.heroName mp) (heroName updates))
    (default (DBMatchPlayer.heroRoles mp) (heroRoles updates))
    (default (DBMatchPlayer.kills mp) (kills updates))
    (default (DBMatchPlayer.deaths mp) (deaths updates))
    (default (DBMatchPlayer.assists mp) (assists updates))
    (default (DBMatchPlayer.goldEarned mp) (goldEarned updates))
    (default (DBMatchPlayer.minionKills mp) (minionKills updates))
    (default (DBMatchPlayer.level mp) (level updates))
    (default (DBMatchPlayer.deviceId mp) (deviceId updates)).
End MatchPlayerUpdates.
Abbreviation MatchPlayerUpdates := MatchPlayerUpdates.t.

(** One element of the [playerUpdates] argument. *)
Module PlayerUpdate.
Record t := mk { id : string; updates : MatchPlayerUpdates }.
End PlayerUpdate.
Abbreviation PlayerUpdate := PlayerUpdate.t.

(** What [canEditMatch] returns. *)
Module CanEdit.
Record t := mk { canEdit : bool; reason : option string }.
End CanEdit.
Abbreviation CanEdit := CanEdit.t.

Module FirebaseMatchService.
Section Service.
Context `{OpenSkill} `{Device}.
Variable showGameLength : GameLength → string.

(** [saveMatch] and [saveMatchPlayer] in full: [uuid] is what
    [generateUUID ()] returns when the record comes without an id.  The
    functions assign to the record they are given, so the record as they
    leave it is returned with the store. *)
Definition saveMatch (uuid : string) (m : DBMatch) (s : Store) : DBMatch * Store :=
  let m1 :=
    if decide (DBMatch.id m = "")
    then DBMatch.mk uuid (DBMatch.date m) (DBMatch.winningTeam m)
           (DBMatch.gameLength m) (DBMatch.doubleLanes m) (DBMatch.titanPlayers m)
           (DBMatch.atlanteanPlayers m) (DBMatch.deviceId m)
    else m in
  let m2 :=
    if falsy (DBMatch.deviceId m1)
    then DBMatch.mk (DBMatch.id m1) (DBMatch.date m1) (DBMatch.winningTeam m1)
           (DBMatch.gameLength m1) (DBMatch.doubleLanes m1) (DBMatch.titanPlayers m1)
           (DBMatch.atlanteanPlayers m1) (Some getDeviceId)
    else m1 in
  (m2, set_matches (insert (DBMatch.id m2) m2) s).

Definition saveMatchPlayer (uuid : string) (mp : DBMatchPlayer) (s : Store)
  : DBMatchPlayer * Store :=
  let mp1 :=
    if decide (DBMatchPlayer.id mp = "")
    then DBMatchPlayer.mk uuid (DBMatchPlayer.matchId mp)
           (DBMatchPlayer.playerId mp) (DBMatchPlayer.team mp) (DBMatchPlayer.heroId mp)
           (DBMatchPlayer.heroName mp) (DBMatchPlayer.heroRoles mp)
           (DBMatchPlayer.kills mp) (DBMatchPlayer.deaths mp) (DBMatchPlayer.assists mp)
           (DBMatchPlayer.goldEarned mp) (DBMatchPlayer.minionKills mp)
           (DBMatchPlayer.level mp) (DBMatchPlayer.deviceId mp)
    else mp in
  let mp2 :=
    if falsy (DBMatchPlayer.deviceId mp1)
    then DBMatchPlayer.mk (DBMatchPlayer.id mp1) (DBMatchPlayer.matchId mp1)
           (DBMatchPlayer.playerId mp1) (DBMatchPlayer.team mp1) (DBMatchPlayer.heroId mp1)
           (DBMatchPlayer.heroName mp1) (DBMatchPlayer.heroRoles mp1)
           (DBMatchPlayer.kills mp1) (DBMatchPlayer.deaths mp1) (DBMatchPlayer.assists mp1)
           (DBMatchPlayer.goldEarned mp1) (DBMatchPlayer.minionKills mp1)
           (DBMatchPlayer.level mp1) (Some getDeviceId)
    else mp1 in
  (mp2, set_matchPlayers (insert (DBMatchPlayer.id mp2) mp2) s).


Definition updateMatchPlayer (matchPlayerId : string) (updates : MatchPlayerUpdates)
    (s : Store) : option Store :=
  existingRecord ← matchPlayers s !! matchPlayerId;
  let updatedRecord := MatchPlayerUpdates.apply existingRecord updates in
  Some (set_matchPlayers (insert matchPlayerId updatedRecord) s).

(** [updateMatchPlayers]: one read and one write per update, in order. *)
Definition updateMatchPlayers (updates : list PlayerUpdate) (s : Store) : option Store :=
  foldlM (λ s update,
            existingRecord ← matchPlayers s !! PlayerUpdate.id update;
            let updatedRecord :=
              MatchPlayerUpdates.apply existingRecord (PlayerUpdate.updates update) in
            Some (set_matchPlayers (insert (PlayerUpdate.id update) updatedRecord) s))
         s updates.

(** [player?.name || 'Unknown Player'] *)
Definition playerName (s : Store) (matchPlayer : DBMatchPlayer) : string :=
  match getPlayer s (DBMatchPlayer.playerId matchPlayer) with
  | Some player =>
      if decide (DBPlayer.name player = "") then "Unknown Player" else DBPlayer.name player
  | None => "Unknown Player"
  end.

Definition getEditableMatch (s : Store) (matchId : string)
  : option (DBMatch * list (DBMatchPlayer * string)) :=
  match getMatch s matchId with
  | None => None
  | Some m =>
      let matchPlayers := getMatchPlayers s matchId in
      let playersWithNames :=
        (λ matchPlayer, (matchPlayer, playerName s matchPlayer)) <$> matchPlayers in
      Some (m, playersWithNames)
  end.

Definition canEditMatch (s : Store) (matchId : string) : CanEdit :=
  match getMatch s matchId with
  | None => CanEdit.mk false (Some "Match not found")
  | Some _ =>
      let matchPlayers := getMatchPlayers s matchId in
      if decide (length matchPlayers = 0%nat)
      then CanEdit.mk false (Some "Match has no player data")
      else
        match head (filter (λ matchPlayer,
                              getPlayer s (DBMatchPlayer.playerId matchPlayer) = None)
                           matchPlayers) with
        | Some matchPlayer =>
            CanEdit.mk false
              (Some ("Player " +:+ DBMatchPlayer.playerId matchPlayer
                       +:+ " no longer exists"))
        | None => CanEdit.mk true None
        end
  end.


End Service.
End FirebaseMatchService.

(** ** Export and import ([FirebaseImportExportService.ts]) *)

Definition DB_VERSION : Z := 4.

Module ExportData.
Record t := mk {
  players : list DBPlayer;
  matches : list DBMatch;
  matchPlayers : list DBMatchPlayer;
  exportDate : Z;
  version : Z
}.
End ExportData.
Abbreviation ExportData := ExportData.t.

Module FirebaseImportExportService.
Section Service.
Context `{OpenSkill} `{Device}.

(** [exportData]; [today] is [new Date ()]. *)
Definition exportData (today : Z) (s : Store) : ExportData :=
  let players := getAllPlayers s in
  let matches := getAllMatches s in
  let matchPlayers :=
    foldl (λ matchPlayers m, matchPlayers ++ getMatchPlayers s (DBMatch.id m)) [] matches in
  ExportData.mk players matches matchPlayers today DB_VERSION.

(** [importData] in its default mode, ['replace']: the result and the store
    it leaves.  [matchUuid i] and [rowUuid i] are what [generateUUID ()]
    returns for the [i]-th match and the [i]-th row when they come
    without an id.  [recalculatePlayerStats] throws only out of its loop
    over the matches, which writes nothing, so the store a failed import
    leaves is the one the recalculation was given.  The mode ['merge'] hands
    over to [mergeData] and is not part of the embedding. *)
Definition importData (today : string → Z) (stats : FirebaseStatsService.t)
    (matchUuid rowUuid : nat → string) (data : ExportData) (s : Store)
  : bool * Store :=
  let s1 := (clearAllData s).2 in
  let s2 := foldl (λ s player, savePlayer player s) s1 (ExportData.players data) in
  let s3 :=
    foldl (λ s '(i, m), (FirebaseMatchService.saveMatch (matchUuid i) m s).2) s2
          (imap pair (ExportData.matches data)) in
  let s4 :=
    foldl (λ s '(i, matchPlayer),
             (FirebaseMatchService.saveMatchPlayer (rowUuid i) matchPlayer s).2) s3
          (imap pair (ExportData.matchPlayers data)) in
  match FirebaseStatsService.recalculatePlayerStats today stats s4 with
  | Some (_, s5) => (true, s5)
  | None => (false, s4)
  end.
End Service.
End FirebaseImportExportService.

(** ** Matchmaking ([MatchMakingService.ts]) *)

Module WinProbabilityCI.
Record t := mk {
  team1Probability : Z;
  team1Lower : Z;
  team1Upper : Z;
  team2Probability : Z;
  team2Lower : Z;
  team2Upper : Z
}.
End WinProbabilityCI.
Abbreviation WinProbabilityCI := WinProbabilityCI.t.

Module MatchMakingService.
Section Service.
Context `{OpenSkill} `{Numerics}.

Record t := mk { playerRatings : gmap string Rating }.

Definition storedRating (player : DBPlayer) : Rating :=
  match DBPlayer.mu player, DBPlayer.sigma player with
  | Some m, Some sg => Rating.mk m sg
  | _, _ => rating
  end.

(** Loads the dictionary from the stored players when it is empty and
    keeps it otherwise. *)
Definition ensureRatingsInitialized (s : Store) (this : t) : t :=
  if decide (size (playerRatings this) = 0%nat)
  then mk (foldl (λ R player, <[DBPlayer.id player := storedRating player]> R)
                 ∅ (getAllPlayers s))
  else this.

Definition teamRatings (this : t) (teamPlayers : list string) : list Rating :=
  (λ playerId, default rating (playerRatings this !! playerId)) <$> teamPlayers.

Definition sumMu (rs : list Rating) : Q :=
  foldl (λ sum r, sum + Rating.mu r)%Q 0%Q rs.
Definition sumVariance (rs : list Rating) : Q :=
  foldl (λ sum r, sum + Rating.sigma r ^ 2)%Q 0%Q rs.

Definition percent (p : Q) : Z := Math_round (p * 100)%Q.

Definition calculateWinProbabilityWithCI (s : Store) (this : t)
    (team1Players team2Players : list string) : WinProbabilityCI * t :=
  let this := ensureRatingsInitialized s this in
  let team1Ratings := teamRatings this team1Players in
  let team2Ratings := teamRatings this team2Players in
  let team1Mu := sumMu team1Ratings in
  let team1SkillVariance := sumVariance team1Ratings in
  let team1PerformanceVariance :=
    (team1SkillVariance
     + inject_Z (Z.of_nat (length team1Ratings)) * TRUESKILL_BETA ^ 2)%Q in
  let team2Mu := sumMu team2Ratings in
  let team2SkillVariance := sumVariance team2Ratings in
  let team2PerformanceVariance :=
    (team2SkillVariance
     + inject_Z (Z.of_nat (length team2Ratings)) * TRUESKILL_BETA ^ 2)%Q in
  let deltaMu := (team1Mu - team2Mu)%Q in
  let deltaPerformanceVariance :=
    (team1PerformanceVariance + team2PerformanceVariance)%Q in
  let deltaPerformanceSigma := Math_sqrt deltaPerformanceVariance in
  let winProb := cdf 0 deltaPerformanceSigma deltaMu in
  let deltaSkillVariance := (team1SkillVariance + team2SkillVariance)%Q in
  let deltaSkillSigma := Math_sqrt deltaSkillVariance in
  let ciMargin := ((196 # 100) * deltaSkillSigma)%Q in
  let lowerSkillDelta := (deltaMu - ciMargin)%Q in
  let lowerWinProb := cdf 0 deltaPerformanceSigma lowerSkillDelta in
  let upperSkillDelta := (deltaMu + ciMargin)%Q in
  let upperWinProb := cdf 0 deltaPerformanceSigma upperSkillDelta in
  (WinProbabilityCI.mk
     (percent winProb) (percent lowerWinProb) (percent upperWinProb)
     (percent (1 - winProb)) (percent (1 - upperWinProb)) (percent (1 - lowerWinProb)),
   this).

(** [calculateWinProbability]: the point estimate alone. *)
Definition calculateWinProbability (s : Store) (this : t)
    (team1Players team2Players : list string) : Z * t :=
  let this := ensureRatingsInitialized s this in
  let team1Ratings := teamRatings this team1Players in
  let team2Ratings := teamRatings this team2Players in
  let team1Mu := sumMu team1Ratings in
  let team1Variance :=
    (sumVariance team1Ratings
     + inject_Z (Z.of_nat (length team1Ratings)) * TRUESKILL_BETA ^ 2)%Q in
  let team2Mu := sumMu team2Ratings in
  let team2Variance :=
    (sumVariance team2Ratings
     + inject_Z (Z.of_nat (length team2Ratings)) * TRUESKILL_BETA ^ 2)%Q in
  let combinedSigma := Math_sqrt (team1Variance + team2Variance)%Q in
  let deltaMu := (team1Mu - team2Mu)%Q in
  let winProb := cdf 0 combinedSigma deltaMu in
  (Math_round (winProb * 100)%Q, this).

Definition selectPlayers (s : Store) (playerIds : list string) : list DBPlayer :=
  filter (λ p, DBPlayer.id p ∈ playerIds) (getAllPlayers s).

(** The [forEach] of the two balancing functions: each player joins team 1
    when team 1's total, summed afresh, is at most team 2's. *)
Definition distribute (weight : DBPlayer → Z) (sorted : list DBPlayer)
  : list DBPlayer * list DBPlayer :=
  foldl (λ '(team1, team2) player,
           let team1Skill := foldl (λ sum p, sum + weight p) 0 team1 in
           let team2Skill := foldl (λ sum p, sum + weight p) 0 team2 in
           if decide (team1Skill ≤ team2Skill)
           then (team1 ++ [player], team2)
           else (team1, team2 ++ [player]))
        ([], []) sorted.

Definition generateBalancedTeams (s : Store) (this : t) (playerIds : list string)
  : (list string * list string) * t :=
  let selectedPlayers := selectPlayers s playerIds in
  if decide (length selectedPlayers < 4)%nat then (([], []), this)
  else
    let this := ensureRatingsInitialized s this in
    let selectedPlayers :=
      array_sort (λ a b, getDisplayRating b - getDisplayRating a) selectedPlayers in
    let '(team1, team2) := distribute getDisplayRating selectedPlayers in
    ((DBPlayer.id <$> team1, DBPlayer.id <$> team2), this).

Definition generateBalancedTeamsByExperience (s : Store) (playerIds : list string)
  : list string * list string :=
  let selectedPlayers := selectPlayers s playerIds in
  if decide (length selectedPlayers < 4)%nat then ([], [])
  else
    let selectedPlayers :=
      array_sort (λ a b, DBPlayer.totalGames b - DBPlayer.totalGames a)
                 selectedPlayers in
    let '(team1, team2) := distribute DBPlayer.totalGames selectedPlayers in
    (DBPlayer.id <$> team1, DBPlayer.id <$> team2).
End Service.
End MatchMakingService.


(** ** The game timer ([App.tsx]) *)

Module App.
Inductive Lane := Single | Top | Bottom.

Global Instance Lane_eq_dec : EqDecision Lane.
Proof. solve_decision. Defined.

Global Instance Lane_countable : Countable Lane.
Proof.
  refine (inj_countable'
            (λ lane, match lane with Single => 0 | Top => 1 | Bottom => 2 end)%nat
            (λ n, match n with O => Single | 1%nat => Top | _ => Bottom end) _).
  by intros [].
Defined.

Module LaneState.
Record t := mk { currentWave : Z; totalWaves : Z }.
End LaneState.
Abbreviation LaneState := LaneState.t.

Module LaneStateResult.
Record t := mk {
  single : option LaneState;
  top : option LaneState;
  bottom : option LaneState;
  hasMultipleLanes : bool
}.
End LaneStateResult.
Abbreviation LaneStateResult := LaneStateResult.t.

(** The values [currentPhase] takes in [App.tsx]. *)
Inductive GamePhase := setup | strategy | move | turn_end | victory.

Inductive DraftTeam := A | B.
Inductive DraftAction := ban | pick.

Global Instance DraftTeam_eq_dec : EqDecision DraftTeam.
Proof. solve_decision. Defined.

Global Instance DraftAction_eq_dec : EqDecision DraftAction.
Proof. solve_decision. Defined.

Module PickBanStep.
Record t := mk { team : DraftTeam; action : DraftAction; round : Z }.
End PickBanStep.
Abbreviation PickBanStep := PickBanStep.t.

(** [GameState], with the fields [App.tsx] reads and writes.  [waves] is an
    object keyed by lane, with the lanes in play as its keys; [teamLives] has
    one number for each team. *)
Module GameState.
Record t := mk {
  round : Z;
  turn : Z;
  gameLength : GameLength;
  waves : gmap Lane LaneState;
  teamLives : Team → Z;
  currentPhase : GamePhase;
  activeHeroIndex : Z;
  coinSide : Team;
  hasMultipleLanes : bool;
  completedTurns : list Z;
  allPlayersMoved : bool;
  victorTeam : option Team
}.
End GameState.
Abbreviation GameState := GameState.t.

Definition getInitialLaneState (gameLength : GameLength) (playerCount : Z)
    (useDoubleLaneFor6Players : bool) : LaneStateResult :=
  if decide (playerCount >= 7
             ∨ (playerCount = 6 ∧ useDoubleLaneFor6Players = true ∧ gameLength = Long))
  then LaneStateResult.mk None (Some (LaneState.mk 1 7)) (Some (LaneState.mk 1 7)) true
  else LaneStateResult.mk
         (Some (LaneState.mk 1 (if decide (gameLength = Quick) then 3 else 5)))
         None None false.

Definition calculateTeamLives (gameLength : GameLength) (playerCount : Z)
    (useDoubleLaneFor6Players : bool) : Z :=
  if decide (gameLength = Quick)
  then (if decide (playerCount ≤ 5) then 4 else 5)
  else if decide (playerCount = 6 ∧ useDoubleLaneFor6Players = false) then 8
  else if decide (playerCount ≤ 5) then 6
  else if decide ((playerCount = 6 ∧ useDoubleLaneFor6Players = true) ∨ playerCount ≤ 8)
  then 6
  else 7.

Definition generatePickBanSequence (playerCount : Z) : list PickBanStep :=
  let adjustedPlayerCount :=
    if decide (Z.rem playerCount 2 = 1) then playerCount + 1 else playerCount in
  [ PickBanStep.mk A ban 1; PickBanStep.mk B ban 1;
    PickBanStep.mk A pick 1; PickBanStep.mk B pick 1;
    PickBanStep.mk B ban 2; PickBanStep.mk A ban 2;
    PickBanStep.mk B pick 2; PickBanStep.mk A pick 2 ]
  ++ (if decide (adjustedPlayerCount >= 6)
      then [ PickBanStep.mk A ban 3; PickBanStep.mk B ban 3;
             PickBanStep.mk B pick 3; PickBanStep.mk A pick 3 ]
      else [])
  ++ (if decide (adjustedPlayerCount >= 8)
      then [ PickBanStep.mk B ban 4; PickBanStep.mk A ban 4;
             PickBanStep.mk A pick 4; PickBanStep.mk B pick 4 ]
      else [])
  ++ (if decide (adjustedPlayerCount >= 10)
      then [ PickBanStep.mk B ban 5; PickBanStep.mk A ban 5;
             PickBanStep.mk B pick 5; PickBanStep.mk A pick 5 ]
      else []).

(** [{ ...object, [key]: value }] *)
Definition setKey {K V} `{EqDecision K} (object : K → V) (key : K) (value : V) : K → V :=
  λ k, if decide (k = key) then value else object k.

(** [createInitialGameState]; [random] is what [Math.random ()] returns. *)
Definition createInitialGameState (random : Q) : GameState :=
  GameState.mk 1 1 Quick
    {[ Single := LaneState.mk 1 3 ]}
    (λ _, 4)
    setup (-1)
    (if Qlt_le_dec (1 # 2) random then Titans else Atlanteans)
    false [] false None.

(** [{ [lane]: laneState }] for an optional [laneState]: reading a key that
    holds [undefined] gives what reading an absent key gives. *)
Definition setLane (lane : Lane) (laneState : option LaneState)
    (waves : gmap Lane LaneState) : gmap Lane LaneState :=
  match laneState with
  | Some laneState => <[lane := laneState]> waves
  | None => waves
  end.

(** The state that [startGameWithPlayers] hands to [START_GAME]. *)
Definition startGameState (gameLength : GameLength) (playerCount : Z)
    (useDoubleLaneFor6Players : bool) (coinSide : Team) : GameState :=
  let laneState := getInitialLaneState gameLength playerCount useDoubleLaneFor6Players in
  let teamLives := calculateTeamLives gameLength playerCount useDoubleLaneFor6Players in
  GameState.mk 1 1 gameLength
    (if LaneStateResult.hasMultipleLanes laneState
     then setLane Top (LaneStateResult.top laneState)
            (setLane Bottom (LaneStateResult.bottom laneState) ∅)
     else setLane Single (LaneStateResult.single laneState) ∅)
    (λ _, teamLives)
    strategy (-1) coinSide (LaneStateResult.hasMultipleLanes laneState) [] false None.

Inductive GameAction :=
  | START_GAME (payload : GameState)
  | START_STRATEGY
  | END_STRATEGY
  | SELECT_PLAYER (playerIndex : Z)
  | MARK_PLAYER_COMPLETE (playerIndex : Z)
  | START_NEXT_TURN
  | ADJUST_TEAM_LIFE (team : Team) (delta : Z)
  | INCREMENT_WAVE (lane : Lane)
  | DECREMENT_WAVE (lane : Lane)
  | ADJUST_ROUND (delta : Z)
  | ADJUST_TURN (delta : Z)
  | DECLARE_VICTORY (team : Team)
  | RESET_GAME
  | FLIP_COIN.

Section Reducer.
(** [players.length], read from the variable the reducer shares with the
    component, and the result of [Math.random ()] in [RESET_GAME]. *)
Variable playersLength : nat.
Variable random : Q.

(** A state with one field replaced: [{ ...state, field: value }]. *)
Definition withWaves (state : GameState) (waves : gmap Lane LaneState) : GameState :=
  GameState.mk (GameState.round state) (GameState.turn state) (GameState.gameLength state)
    waves (GameState.teamLives state) (GameState.currentPhase state)
    (GameState.activeHeroIndex state) (GameState.coinSide state)
    (GameState.hasMultipleLanes state) (GameState.completedTurns state)
    (GameState.allPlayersMoved state) (GameState.victorTeam state).

(** The two wave actions differ in the new value of [currentWave] only. *)
Definition adjustWave (newWave : LaneState → Z) (state : GameState) (lane : Lane)
  : GameState :=
  if decide (lane = Single ∧ GameState.hasMultipleLanes state = false) then
    match GameState.waves state !! Single with
    | Some laneState =>
        withWaves state
          (<[Single := LaneState.mk (newWave laneState) (LaneState.totalWaves laneState)]>
             (GameState.waves state))
    | None => state
    end
  else if decide (GameState.hasMultipleLanes state = true ∧ (lane = Top ∨ lane = Bottom)) then
    match GameState.waves state !! lane with
    | Some laneState =>
        withWaves state
          (<[lane := LaneState.mk (newWave laneState) (LaneState.totalWaves laneState)]>
             (GameState.waves state))
    | None => state
    end
  else state.

Definition gameReducer (state : GameState) (action : GameAction) : GameState :=
  match action with
  | START_GAME payload => payload
  | START_STRATEGY =>
      GameState.mk (GameState.round state) (GameState.turn state)
        (GameState.gameLength state) (GameState.waves state) (GameState.teamLives state)
        strategy (-1) (GameState.coinSide state) (GameState.hasMultipleLanes state)
        (GameState.completedTurns state) (GameState.allPlayersMoved state)
        (GameState.victorTeam state)
  | END_STRATEGY =>
      GameState.mk (GameState.round state) (GameState.turn state)
        (GameState.gameLength state) (GameState.waves state) (GameState.teamLives state)
        move (-1) (GameState.coinSide state) (GameState.hasMultipleLanes state)
        [] (GameState.allPlayersMoved state) (GameState.victorTeam state)
  | SELECT_PLAYER playerIndex =>
      if decide (playerIndex ∈ GameState.completedTurns state) then state
      else
        GameState.mk (GameState.round state) (GameState.turn state)
          (GameState.gameLength state) (GameState.waves state) (GameState.teamLives state)
          (GameState.currentPhase state) playerIndex (GameState.coinSide state)
          (GameState.hasMultipleLanes state) (GameState.completedTurns state)
          (GameState.allPlayersMoved state) (GameState.victorTeam state)
  | MARK_PLAYER_COMPLETE playerIndex =>
      let newCompletedTurns := GameState.completedTurns state ++ [playerIndex] in
      let allMoved := bool_decide (length newCompletedTurns = playersLength) in
      if allMoved then
        GameState.mk (GameState.round state) (GameState.turn state)
          (GameState.gameLength state) (GameState.waves state) (GameState.teamLives state)
          turn_end (-1) (GameState.coinSide state) (GameState.hasMultipleLanes state)
          newCompletedTurns true (GameState.victorTeam state)
      else
        GameState.mk (GameState.round state) (GameState.turn state)
          (GameState.gameLength state) (GameState.waves state) (GameState.teamLives state)
          (GameState.currentPhase state) (-1) (GameState.coinSide state)
          (GameState.hasMultipleLanes state) newCompletedTurns
          (GameState.allPlayersMoved state) (GameState.victorTeam state)
  | START_NEXT_TURN =>
      let newTurn := GameState.turn state + 1 in
      if decide (newTurn > 4) then
        GameState.mk (GameState.round state + 1) 1
          (GameState.gameLength state) (GameState.waves state) (GameState.teamLives state)
          strategy (GameState.activeHeroIndex state) (GameState.coinSide state)
          (GameState.hasMultipleLanes state) [] false (GameState.victorTeam state)
      else
        GameState.mk (GameState.round state) newTurn
          (GameState.gameLength state) (GameState.waves state) (GameState.teamLives state)
          strategy (GameState.activeHeroIndex state) (GameState.coinSide state)
          (GameState.hasMultipleLanes state) [] false (GameState.victorTeam state)
  | ADJUST_TEAM_LIFE team delta =>
      GameState.mk (GameState.round state) (GameState.turn state)
        (GameState.gameLength state) (GameState.waves state)
        (setKey (GameState.teamLives state) team
           (Z.max 0 (GameState.teamLives state team + delta)))
        (GameState.currentPhase state) (GameState.activeHeroIndex state)
        (GameState.coinSide state) (GameState.hasMultipleLanes state)
        (GameState.completedTurns state) (GameState.allPlayersMoved state)
        (GameState.victorTeam state)
  | INCREMENT_WAVE lane =>
      adjustWave (λ laneState,
                    Z.min (LaneState.currentWave laneState + 1)
                          (LaneState.totalWaves laneState))
                 state lane
  | DECREMENT_WAVE lane =>
      adjustWave (λ laneState, Z.max 1 (LaneState.currentWave laneState - 1)) state lane
  | ADJUST_ROUND delta =>
      let newRound := Z.max 1 (GameState.round state + delta) in
      GameState.mk newRound (GameState.turn state)
        (GameState.gameLength state) (GameState.waves state) (GameState.teamLives state)
        (GameState.currentPhase state) (GameState.activeHeroIndex state)
        (GameState.coinSide state) (GameState.hasMultipleLanes state)
        (GameState.completedTurns state) (GameState.allPlayersMoved state)
        (GameState.victorTeam state)
  | ADJUST_TURN delta =>
      let newTurn := Z.max 1 (Z.min 4 (GameState.turn state + delta)) in
      GameState.mk (GameState.round state) newTurn
        (GameState.gameLength state) (GameState.waves state) (GameState.teamLives state)
        (GameState.currentPhase state) (GameState.activeHeroIndex state)
        (GameState.coinSide state) (GameState.hasMultipleLanes state)
        (GameState.completedTurns state) (GameState.allPlayersMoved state)
        (GameState.victorTeam state)
  | DECLARE_VICTORY team =>
      GameState.mk (GameState.round state) (GameState.turn state)
        (GameState.gameLength state) (GameState.waves state) (GameState.teamLives state)
        victory (GameState.activeHeroIndex state) (GameState.coinSide state)
        (GameState.hasMultipleLanes state) (GameState.completedTurns state)
        (GameState.allPlayersMoved state) (Some team)
  | RESET_GAME => createInitialGameState random
  | FLIP_COIN =>
      GameState.mk (GameState.round state) (GameState.turn state)
        (GameState.gameLength state) (GameState.waves state) (GameState.teamLives state)
        (GameState.currentPhase state) (GameState.activeHeroIndex state)
        (if decide (GameState.coinSide state = Titans) then Atlanteans else Titans)
        (GameState.hasMultipleLanes state) (GameState.completedTurns state)
        (GameState.allPlayersMoved state) (GameState.victorTeam state)
  end.
End Reducer.
End App.

(** * Specification vocabulary *)

(** The players a hero is assigned to, in the order of the rows. *)
Definition playersOfHero (h : Z) (playersData : list DBMatchPlayer) : list string :=
  DBMatchPlayer.playerId <$> filter (λ p, DBMatchPlayer.heroId p = h) playersData.

(** First entry of an insertion-ordered dictionary. *)
Fixpoint assoc (h : Z) (u : list (Z * list string)) : option (list string) :=
  match u with
  | [] => None
  | (h', ps) :: u' => if decide (h' = h) then Some ps else assoc h u'
  end.

(** The warnings raised on the field "teams". *)
Definition teamWarnings (r : ValidationResult) : list ValidationError :=
  filter (λ w, ValidationError.field w = "teams") (ValidationResult.warnings r).

(** An optional counter that is not negative, an optional level within
    1..10, and a row whose counters and level are such. *)
Definition nonNegative (value : option Z) : Prop :=
  match value with Some v => 0 ≤ v | None => True end.
Definition levelInRange (value : option Z) : Prop :=
  match value with Some l => 1 ≤ l ≤ 10 | None => True end.
Definition validFields (p : DBMatchPlayer) : Prop :=
  Forall (λ fv, nonNegative fv.2) (statFields p)
  ∧ levelInRange (DBMatchPlayer.level p).

Global Instance nonNegative_dec value : Decision (nonNegative value).
Proof. destruct value; apply _. Defined.
Global Instance levelInRange_dec value : Decision (levelInRange value).
Proof. destruct value; apply _. Defined.
Global Instance validFields_dec p : Decision (validFields p).
Proof. apply _. Defined.

(** A match is counted when both of its teams have a row. *)
Definition counted (s : Store) (m : DBMatch) : Prop :=
  filter (λ mp, DBMatchPlayer.team mp = Titans) (getMatchPlayers s (DBMatch.id m)) ≠ []
  ∧ filter (λ mp, DBMatchPlayer.team mp ≠ Titans) (getMatchPlayers s (DBMatch.id m)) ≠ [].

(** Player [k] has a row in match [m]. *)
Definition playsIn (s : Store) (k : string) (m : DBMatch) : Prop :=
  Exists (λ mp, DBMatchPlayer.playerId mp = k) (getMatchPlayers s (DBMatch.id m)).

(** Player [k] has a row in a counted match among [ms]. *)
Definition hasCountedGameIn (s : Store) (ms : list DBMatch) (k : string) : Prop :=
  Exists (λ m, counted s m ∧ playsIn s k m) ms.

Definition hasCountedGame (s : Store) (k : string) : Prop :=
  hasCountedGameIn s (getAllMatches s) k.

Global Instance counted_dec s m : Decision (counted s m).
Proof. apply _. Defined.
Global Instance playsIn_dec s k m : Decision (playsIn s k m).
Proof. apply _. Defined.
Global Instance hasCountedGameIn_dec s ms k : Decision (hasCountedGameIn s ms k).
Proof. apply _. Defined.
Global Instance hasCountedGame_dec s k : Decision (hasCountedGame s k).
Proof. apply _. Defined.

Definition talliesOk (t : Stats) : Prop :=
  Stats.wins t + Stats.losses t = Stats.totalGames t
  ∧ 0 ≤ Stats.wins t ∧ 0 ≤ Stats.losses t.

Section ReplayVocabulary.
Context `{OpenSkill} `{Device}.
Import FirebaseStatsService.

(** The two dictionaries after the loop over the matches. *)
Definition replay (s : Store) : option (gmap string Rating * gmap string Stats) :=
  foldlM (processMatch s)
    (initialRatings (getAllPlayers s), initialStats (getAllPlayers s))
    (sortByDate (getAllMatches s)).

(** What the loop over the matches maintains, after the matches [pre]:
    the dictionaries keep the keys [D]; tallies add up; a player's game
    count is positive exactly when the player has a row in a counted
    match; a player without one still has the default rating. *)
Record replayInv (s : Store) (D : string → Prop) (pre : list DBMatch)
    (st : gmap string Rating * gmap string Stats) : Prop := {
  inv_dom_R : ∀ k, is_Some (st.1 !! k) ↔ D k;
  inv_dom_T : ∀ k, is_Some (st.2 !! k) ↔ D k;
  inv_tally : ∀ k t, st.2 !! k = Some t →
    talliesOk t ∧ (0 < Stats.totalGames t ↔ hasCountedGameIn s pre k);
  inv_default : ∀ k, D k → ¬ hasCountedGameIn s pre k → st.1 !! k = Some rating
}.
End ReplayVocabulary.

(** The rating fields and tallies of a stored player. *)
Definition ratingView (p : DBPlayer) : option Q * option Q * option Q * Z * Z * Z * Z :=
  (DBPlayer.mu p, DBPlayer.sigma p, DBPlayer.ordinal p, DBPlayer.elo p,
   DBPlayer.totalGames p, DBPlayer.wins p, DBPlayer.losses p).

(** A match the replay can process: when it is counted, all its rows name
    stored players. *)
Definition matchOk (s : Store) (D : string → Prop) (m : DBMatch) : Prop :=
  counted s m →
  ∀ mp, mp ∈ getMatchPlayers s (DBMatch.id m) → D (DBMatchPlayer.playerId mp).

(** Order on optional levels: an undefined level is below every level. *)
Definition levelLe (a b : option Z) : Prop :=
  match a, b with
  | None, _ => True
  | Some x, Some y => x ≤ y
  | Some _, None => False
  end.

(** [x] lies exactly halfway between two consecutive integers. *)
Definition halfway (x : Q) : Prop :=
  (inject_Z (Qfloor (x + (1 # 2))) == x + (1 # 2))%Q.

Global Instance halfway_dec x : Decision (halfway x).
Proof. unfold halfway. apply Qeq_dec. Defined.

(** Greedy assignment as the specification words it: the teams and their
    running totals are carried along; the next player joins team A when
    A's total is at most B's. *)
Fixpoint greedyBySum (weight : DBPlayer → Z) (l teamA teamB : list DBPlayer)
    (sumA sumB : Z) : list DBPlayer * list DBPlayer :=
  match l with
  | [] => (teamA, teamB)
  | p :: l' =>
      if decide (sumA ≤ sumB)
      then greedyBySum weight l' (teamA ++ [p]) teamB (sumA + weight p) sumB
      else greedyBySum weight l' teamA (teamB ++ [p]) sumA (sumB + weight p)
  end.

Definition descending (weight : DBPlayer → Z) (a b : DBPlayer) : Prop :=
  weight b ≤ weight a.

Global Instance wf_store_dec s : Decision (wf_store s).
Proof.
  refine (cast_if (decide (map_Forall (λ k p, DBPlayer.id p = k) (players s)
                           ∧ map_Forall (λ k m, DBMatch.id m = k) (matches s)
                           ∧ map_Forall (λ k mp, DBMatchPlayer.id mp = k)
                               (matchPlayers s)))).
  - destruct a as (? & ? & ?). by split.
  - intros [? ? ?]. by apply n.
Defined.

Global Instance Q_eq_dec : EqDecision Q.
Proof. solve_decision. Defined.
Global Instance DBPlayer_eq_dec : EqDecision DBPlayer.
Proof. solve_decision. Defined.

(** * Sample instances and data *)

(** A stand-in for [openskill] with the package's default rating
    (mu 25, sigma 25/3) and ordinal (mu - 3 sigma); its [rate] moves the
    winners up and the losers down by one and shrinks every sigma. *)
Definition sampleRate (teams : list (list Rating)) (rank : list nat) (beta tau : Q)
  : list (list Rating) :=
  imap (λ i team,
          (λ r, Rating.mk
                  (if decide (rank !! i = Some 1%nat)
                   then Rating.mu r + 1 else Rating.mu r - 1)%Q
                  (Rating.sigma r * (9 # 10))%Q) <$> team)
       teams.

Global Instance sampleOpenSkill : OpenSkill :=
  {| rating := Rating.mk 25 (25 # 3);
     rate := sampleRate;
     ordinal r := (Rating.mu r - 3 * Rating.sigma r)%Q |}.

Global Instance sampleDevice : Device := {| getDeviceId := "device_k3x9" |}.

(** A stand-in for the numeric functions: the square root is exact on
    squares of rationals, and the distribution function reads a short table
    of the standard normal distribution, three decimals, at the largest
    listed point not above |z|. *)
Definition sampleSqrt (q : Q) : Q :=
  Qmake (Z.sqrt (Qnum q * Zpos (Qden q))) (Qden q).

Definition zTable : list (Q * Q) :=
  [ (0 # 1, 500 # 1000); (25 # 100, 599 # 1000); (50 # 100, 691 # 1000);
    (75 # 100, 773 # 1000); (100 # 100, 841 # 1000); (115 # 100, 875 # 1000);
    (150 # 100, 933 # 1000); (200 # 100, 977 # 1000); (250 # 100, 994 # 1000);
    (300 # 100, 999 # 1000); (350 # 100, 1000 # 1000) ]%Q.

Definition zLookup (a : Q) : Q :=
  foldl (λ acc kv, if Qle_bool kv.1 a then kv.2 else acc) (1 # 2)%Q zTable.

Definition sampleCdf (mean sd x : Q) : Q :=
  let z := ((x - mean) / sd)%Q in
  if Qle_bool 0 z then zLookup z else (1 - zLookup (- z))%Q.

Lemma zLookup_range a : (0 <= zLookup a)%Q ∧ (zLookup a <= 1)%Q.
Proof.
  unfold zLookup, zTable. cbn [foldl fst snd].
  repeat (match goal with
          | |- context [Qle_bool ?k a] => destruct (Qle_bool k a)
          end);
    split; by vm_compute.
Qed.

Global Instance sampleNumerics : Numerics.
Proof.
  refine {| Math_sqrt := sampleSqrt; cdf := sampleCdf |}.
  intros mean sd x. unfold sampleCdf. cbv zeta.
  destruct (Qle_bool 0 _).
  - apply zLookup_range.
  - destruct (zLookup_range (- ((x - mean) / sd))). split; lra.
Defined.

Definition emptyStore : Store := mkStore ∅ ∅ ∅.

Definition sampleInfo (pid : string) (team : Team) (heroId : Z) (level : option Z)
  : PlayerInfo :=
  PlayerInfo.mk pid team heroId ("hero" +:+ pretty heroId) []
    (Some 3) (Some 2) None None None level.

Definition samplePlayerData : list PlayerInfo :=
  [ sampleInfo "ann" Titans 1 (Some 3); sampleInfo "bob" Titans 2 None;
    sampleInfo "cy" Atlanteans 3 (Some 2); sampleInfo "dee" Atlanteans 4 None ].

Definition rematchPlayerData : list PlayerInfo :=
  [ sampleInfo "eve" Titans 5 None; sampleInfo "zed" Titans 6 (Some 4);
    sampleInfo "fay" Atlanteans 7 None; sampleInfo "gus" Atlanteans 8 (Some 2) ].

Definition sampleMatchData : MatchData := MatchData.mk 1699000000000 Titans Quick false.

Definition sampleShow (g : GameLength) : string :=
  match g with Quick => "Quick" | Long => "Long" end.

Definition sampleClock : Clock :=
  {| now := 1700000000000; oneYearAgo := 1668464000000 |}.

Definition sampleRowUuid (prefix : string) (i : nat) : string := prefix +:+ pretty i.

(** A store with one recorded 2 v 2 match and a fifth player without games;
    its ratings are stale. *)
Definition sampleStore : Store :=
  savePlayer (newPlayer 1600000000000 "zed" "Zed")
    (MatchService.persistMatch (λ _, 1699000000500) "m-1" (sampleRowUuid "row-")
       sampleMatchData samplePlayerData emptyStore).

Definition sampleService : FirebaseStatsService.t := FirebaseStatsService.mk ∅.

(** The store after one recalculation of [sampleStore]. *)
Definition sampleRecalculated : FirebaseStatsService.t * Store :=
  default (sampleService, sampleStore)
    (FirebaseStatsService.recalculatePlayerStats (λ _, 1699000001000)
       sampleService sampleStore).

(** The result of recording a second match on [sampleStore]. *)
Definition sampleRecorded : string * (FirebaseStatsService.t * Store) :=
  default ("", (sampleService, sampleStore))
    (MatchService.recordMatch sampleShow sampleClock (λ _, 1699100000500)
       (λ _, 1699100001000) "m-2" (sampleRowUuid "rematch-") sampleService
       sampleMatchData rematchPlayerData sampleStore).

Definition ratedPlayer (pid : string) (games : Z) (ord : Q) : DBPlayer :=
  DBPlayer.mk pid pid games 0 games 1200 (Some (ord + 25)%Q) (Some (25 # 3))
    (Some ord) 1690000000000 1680000000000 (Some "device_k3x9") (Some 1).

(** Four players whose display ratings are 1400, 2000, 1600 and 1800. *)
Definition ratedStore : Store :=
  foldr savePlayer emptyStore
    [ ratedPlayer "kim" 3 5; ratedPlayer "lou" 9 20;
      ratedPlayer "max" 1 10; ratedPlayer "nat" 4 15 ].

(** Two players 1.15 standard deviations apart: [sampleNumerics] gives the
    first a win probability of 0.875. *)
Definition duelStore : Store :=
  foldr savePlayer emptyStore
    [ DBPlayer.mk "ann" "ann" 0 0 0 1200 (Some (415 # 12)) (Some (25 # 6))
        (Some (265 # 12)) 1690000000000 1680000000000 (Some "device_k3x9") (Some 1);
      DBPlayer.mk "bob" "bob" 0 0 0 1200 (Some 25%Q) (Some (25 # 6)) (Some (25 # 2))
        1690000000000 1680000000000 (Some "device_k3x9") (Some 1) ].

Definition sampleMatchMaking : MatchMakingService.t := MatchMakingService.mk ∅.

Definition sampleMatch (titans atlanteans : nat) : DBMatch :=
  DBMatch.mk "m1" 1699000000000 Titans Quick false titans atlanteans None.

Definition sampleRow (pid : string) (team : Team) (heroId : Z) : DBMatchPlayer :=
  DBMatchPlayer.mk ("row-" +:+ pid) "m1" pid team heroId ("hero" +:+ pretty heroId) []
    (Some 3) (Some 2) None None None (Some 4) None.

Definition threeVersusTwo : list DBMatchPlayer :=
  [ sampleRow "ann" Titans 1; sampleRow "bob" Titans 2; sampleRow "cy" Titans 3;
    sampleRow "dee" Atlanteans 4; sampleRow "eve" Atlanteans 5 ].

Definition fourVersusTwo : list DBMatchPlayer :=
  sampleRow "fay" Titans 6 :: threeVersusTwo.

Definition sharedHero : list DBMatchPlayer :=
  [ sampleRow "ann" Titans 7; sampleRow "bob" Atlanteans 2; sampleRow "cy" Atlanteans 7 ].

(** * Further vocabulary *)

(** The shape of a version-4 identifier, read off the template of
    [generateUUID]: an [x] stands for a lower-case hexadecimal digit, the
    [y] for one of 8, 9, a, b, and every other character for itself. *)
Definition isHexDigit (c : Ascii.ascii) : Prop :=
  c ∈ String.list_ascii_of_string "0123456789abcdef".

Definition matchesTemplate (t c : Ascii.ascii) : Prop :=
  if decide (t = "x"%char) then isHexDigit c
  else if decide (t = "y"%char) then c ∈ String.list_ascii_of_string "89ab"
  else c = t.

Definition uuidShape (u : string) : Prop :=
  Forall2 matchesTemplate
    (String.list_ascii_of_string "xxxxxxxx-xxxx-4xxx-yxxx-xxxxxxxxxxxx")
    (String.list_ascii_of_string u).

Global Instance isHexDigit_dec c : Decision (isHexDigit c).
Proof. unfold isHexDigit. apply _. Defined.
Global Instance matchesTemplate_dec t c : Decision (matchesTemplate t c).
Proof. unfold matchesTemplate. repeat case_decide; apply _. Defined.
Global Instance uuidShape_dec u : Decision (uuidShape u).
Proof. unfold uuidShape. apply _. Defined.

(** The sum of the counts of a list of entries. *)
Definition totalCount {E} (count : E → Z) (l : list E) : Z :=
  foldr (λ e acc, count e + acc) 0 l.

(** A counting [Map], as [getPlayerStats] fills it: the first entry with
    the key is bumped, or a new entry is appended. *)
Section CountingMapDefinitions.
Context {X E K : Type} `{EqDecision K}.
Variables (key : E → K) (bump : E → E) (new : X → E) (keyOf : X → K).

Fixpoint countInto (x : X) (m : list E) : list E :=
  match m with
  | [] => [new x]
  | e :: rest =>
      if decide (key e = keyOf x) then bump e :: rest else e :: countInto x rest
  end.

Definition countAll (xs : list X) : list E := foldl (λ m x, countInto x m) [] xs.
End CountingMapDefinitions.

(** The two counting maps of [getPlayerStats]: what bumps an entry and what
    a new entry is. *)
Definition bumpHero (e : HeroCount) : HeroCount :=
  HeroCount.mk (HeroCount.heroId e) (HeroCount.heroName e) (HeroCount.count e + 1).

Definition newHero (row : DBMatchPlayer) : HeroCount :=
  HeroCount.mk (DBMatchPlayer.heroId row) (DBMatchPlayer.heroName row) 1.

Definition bumpRole (e : RoleCount) : RoleCount :=
  RoleCount.mk (RoleCount.role e) (RoleCount.count e + 1).

Definition newRole (role : string) : RoleCount := RoleCount.mk role 1.

(** A row after the updates that name [k], applied in order. *)
Definition applyUpdates (updates : list PlayerUpdate) (k : string) (row : DBMatchPlayer)
  : DBMatchPlayer :=
  foldl (λ row u, MatchPlayerUpdates.apply row (PlayerUpdate.updates u)) row
        (filter (λ u, PlayerUpdate.id u = k) updates).

(** Updates that leave the identity of the rows alone: no two name the same
    row, and none sets [id] or [matchId]. *)
Definition keepsIdentity (updates : list PlayerUpdate) : Prop :=
  NoDup (PlayerUpdate.id <$> updates)
  ∧ Forall (λ u, MatchPlayerUpdates.id (PlayerUpdate.updates u) = None
                 ∧ MatchPlayerUpdates.matchId (PlayerUpdate.updates u) = None) updates.

Global Instance keepsIdentity_dec updates : Decision (keepsIdentity updates).
Proof. unfold keepsIdentity. apply _. Defined.

(** The rows of player [k] in match [m]; how many of them count as games
    (none when the match is not counted), and how many as wins. *)
Definition rowsOf (s : Store) (k : string) (m : DBMatch) : list DBMatchPlayer :=
  filter (λ mp, DBMatchPlayer.playerId mp = k) (getMatchPlayers s (DBMatch.id m)).

Definition gamesOfMatch (s : Store) (k : string) (m : DBMatch) : Z :=
  if decide (counted s m) then Z.of_nat (length (rowsOf s k m)) else 0.

Definition winsOfMatch (s : Store) (k : string) (m : DBMatch) : Z :=
  if decide (counted s m)
  then Z.of_nat (length (filter (λ mp, DBMatchPlayer.team mp = DBMatch.winningTeam m)
                                (rowsOf s k m)))
  else 0.

(** A store that an export hands on whole: every record carries a device
    id, no match and no row has the empty id, and every row belongs to a
    stored match. *)
Definition exportable (s : Store) : Prop :=
  map_Forall (λ _ p, falsy (DBPlayer.deviceId p) = false) (players s)
  ∧ map_Forall (λ k m, k ≠ "" ∧ falsy (DBMatch.deviceId m) = false) (matches s)
  ∧ map_Forall (λ k mp, k ≠ "" ∧ falsy (DBMatchPlayer.deviceId mp) = false
                        ∧ is_Some (matches s !! DBMatchPlayer.matchId mp))
               (matchPlayers s).

Global Instance exportable_dec s : Decision (exportable s).
Proof. unfold exportable. apply _. Defined.

(** The total of a team as the balancing functions compute it:
    [team.reduce ((sum, p) => sum + weight (p), 0)]. *)
Definition teamTotal (weight : DBPlayer → Z) (team : list DBPlayer) : Z :=
  foldl (λ sum p, sum + weight p) 0 team.

(** ** The game timer's counters *)

(** A lane's wave counter lies between 1 and the lane's number of waves. *)
Definition validLane (laneState : App.LaneState) : Prop :=
  1 ≤ App.LaneState.currentWave laneState ≤ App.LaneState.totalWaves laneState.

(** The ranges the game screen relies on: rounds count from 1, a round has
    the turns 1 to 4, no team has a negative number of lives and the wave
    counter of every lane in play is within the lane's waves. *)
Definition validState (state : App.GameState) : Prop :=
  1 ≤ App.GameState.round state
  ∧ 1 ≤ App.GameState.turn state ≤ 4
  ∧ 0 ≤ App.GameState.teamLives state Titans
  ∧ 0 ≤ App.GameState.teamLives state Atlanteans
  ∧ map_Forall (λ _, validLane) (App.GameState.waves state).

(** An action whose payload, if it carries a state, carries a valid one. *)
Definition validAction (action : App.GameAction) : Prop :=
  match action with
  | App.START_GAME payload => validState payload
  | _ => True
  end.

Global Instance validLane_dec laneState : Decision (validLane laneState).
Proof. unfold validLane. apply _. Defined.

Global Instance validState_dec state : Decision (validState state).
Proof. unfold validState. apply _. Defined.

Global Instance validAction_dec action : Decision (validAction action).
Proof. destruct action; simpl; apply _. Defined.

(** The reducer run over a list of dispatched actions, each with the value
    [Math.random ()] has when it is handled. *)
Definition dispatchAll (playersLength : nat) (state : App.GameState)
    (actions : list (Q * App.GameAction)) : App.GameState :=
  foldl (λ state '(random, action), App.gameReducer playersLength random state action)
        state actions.

(** The steps of one kind in a pick/ban sequence, and those of one team. *)
Definition stepsOf (action : App.DraftAction) (sequence : list App.PickBanStep)
  : list App.PickBanStep :=
  filter (λ step, App.PickBanStep.action step = action) sequence.

Definition stepsOfTeam (team : App.DraftTeam) (sequence : list App.PickBanStep)
  : list App.PickBanStep :=
  filter (λ step, App.PickBanStep.team step = team) sequence.

(** ** Further sample data *)

(** What [Math.random] returns on its successive calls. *)
Definition sampleRandom (i : nat) : Q := if Nat.even i then 3 # 16 else 11 # 16.




(** A game of seven players, started and played for a while. *)
Definition sampleGame : App.GameState := App.startGameState Long 7 false Titans.

Definition sampleActions : list (Q * App.GameAction) :=
  [ (1 # 4, App.START_GAME sampleGame); (1 # 4, App.END_STRATEGY);
    (1 # 4, App.MARK_PLAYER_COMPLETE 0); (1 # 4, App.START_NEXT_TURN);
    (1 # 4, App.ADJUST_TEAM_LIFE Titans (-9)); (1 # 4, App.INCREMENT_WAVE App.Top);
    (1 # 4, App.ADJUST_TURN 7); (1 # 4, App.ADJUST_ROUND (-5)) ].

(** * Generic facts: sorting and monadic folds *)

Section SortFacts.
Context {A : Type} (cmp : A → A → Z).

Lemma sort_insert_perm x l : sort_insert cmp x l ≡ₚ x :: l.
Proof.
  induction l as [|y l IH]; [done |]. simpl. case_decide; [done |].
  rewrite IH. apply Permutation_swap.
Qed.

Lemma array_sort_perm l : array_sort cmp l ≡ₚ l.
Proof.
  induction l as [|x l IH]; [done |]. simpl.
  by rewrite sort_insert_perm, IH.
Qed.

Lemma array_sort_elem_of x l : x ∈ array_sort cmp l ↔ x ∈ l.
Proof. by rewrite array_sort_perm. Qed.
End SortFacts.

(** Sorting by an integer key in ascending order: the result is ordered, and
    elements with equal keys keep their original order. *)
Section SortByKey.
Context {A : Type} (key : A → Z).

Lemma sort_insert_ascending x l :
  StronglySorted (λ a b, key a ≤ key b) l →
  StronglySorted (λ a b, key a ≤ key b) (sort_insert (λ a b, key a - key b) x l).
Proof.
  induction l as [|y l IH]; intros Hl; simpl.
  - repeat constructor.
  - apply StronglySorted_inv in Hl as [Hl Hy]. case_decide as Hc.
    + constructor; [by constructor |]. constructor; [lia |].
      eapply Forall_impl; [exact Hy |]. intros z ?. simpl in *. lia.
    + constructor; [by apply IH |].
      rewrite sort_insert_perm. constructor; [lia | done].
Qed.

Lemma array_sort_ascending l :
  StronglySorted (λ a b, key a ≤ key b) (array_sort (λ a b, key a - key b) l).
Proof.
  induction l as [|x l IH]; simpl; [constructor | by apply sort_insert_ascending].
Qed.

Lemma sort_insert_filter_key x l d :
  filter (λ y, key y = d) (sort_insert (λ a b, key a - key b) x l) =
  filter (λ y, key y = d) (x :: l).
Proof.
  induction l as [|y l IH]; [done |]. simpl. case_decide as Hc; [done |].
  rewrite filter_cons, IH, !filter_cons.
  destruct (decide (key y = d)), (decide (key x = d)); try done. lia.
Qed.

Lemma array_sort_stable l d :
  filter (λ y, key y = d) (array_sort (λ a b, key a - key b) l) =
  filter (λ y, key y = d) l.
Proof.
  induction l as [|x l IH]; [done |]. simpl.
  by rewrite sort_insert_filter_key, !filter_cons, IH.
Qed.
End SortByKey.

(** A loop invariant indexed by the prefix of the list already visited. *)
Lemma foldlM_invariant {A B} (f : B → A → option B) (P : list A → B → Prop)
    (l : list A) (b b' : B) :
  P [] b →
  (∀ pre a b1 b2, P pre b1 → f b1 a = Some b2 → P (pre ++ [a]) b2) →
  foldlM f b l = Some b' → P l b'.
Proof.
  intros Hb Hstep.
  assert (∀ b0 pre, P pre b0 → foldlM f b0 l = Some b' → P (pre ++ l) b') as Hgen.
  { clear b Hb. induction l as [|a l IH]; intros b pre Hpre; simpl.
    - intros [= <-]. by rewrite app_nil_r.
    - destruct (f b a) as [b1|] eqn:Hf; [|done]. intros Hl.
      rewrite (cons_middle a pre l), app_assoc. eapply IH; [|done]. eauto. }
  apply (Hgen b []). done.
Qed.

Lemma foldlM_is_Some {A B} (f : B → A → option B) (P : B → Prop) (l : list A) (b : B) :
  P b →
  (∀ a b1, a ∈ l → P b1 → ∃ b2, f b1 a = Some b2 ∧ P b2) →
  ∃ b', foldlM f b l = Some b' ∧ P b'.
Proof.
  revert b. induction l as [|a l IH]; intros b Hb Hstep; simpl; [eauto |].
  destruct (Hstep a b) as (b2 & -> & Hb2); [left | done |].
  apply IH; [done |]. intros a' b1 Ha'. apply Hstep. by right.
Qed.

Lemma foldlM_ext {A B} (f g : B → A → option B) (l : list A) (b : B) :
  (∀ a b1, a ∈ l → f b1 a = g b1 a) → foldlM f b l = foldlM g b l.
Proof.
  revert b. induction l as [|a l IH]; intros b Hfg; simpl; [done |].
  rewrite Hfg by left. destruct (g b a); [|done].
  apply IH. intros a' b1 Ha'. apply Hfg. by right.
Qed.

(** * Store facts *)

Lemma elem_of_getAllPlayers s p :
  p ∈ getAllPlayers s ↔ ∃ k, players s !! k = Some p.
Proof.
  unfold getAllPlayers. rewrite list_elem_of_fmap. split.
  - intros ([k q] & -> & Hin). exists k. by apply elem_of_map_to_list.
  - intros (k & Hk). exists (k, p). split; [done |]. by apply elem_of_map_to_list.
Qed.

Lemma getAllPlayers_ids s :
  wf_store s → DBPlayer.id <$> getAllPlayers s = (map_to_list (players s)).*1.
Proof.
  intros Hwf. unfold getAllPlayers. rewrite <- list_fmap_compose.
  apply list_fmap_ext. intros i [k p] Hi. simpl.
  apply (wf_players _ Hwf). apply elem_of_map_to_list.
  by apply list_elem_of_lookup_2 in Hi.
Qed.

Lemma getAllPlayers_ids_NoDup s : wf_store s → NoDup (DBPlayer.id <$> getAllPlayers s).
Proof. intros Hwf. rewrite getAllPlayers_ids by done. apply NoDup_fst_map_to_list. Qed.

Lemma elem_of_getAllPlayers_ids s k :
  wf_store s → k ∈ DBPlayer.id <$> getAllPlayers s ↔ is_Some (players s !! k).
Proof.
  intros Hwf. rewrite list_elem_of_fmap. split.
  - intros (p & -> & (k' & Hk)%elem_of_getAllPlayers).
    rewrite (wf_players _ Hwf _ _ Hk). eauto.
  - intros [p Hp]. exists p. split; [by rewrite (wf_players _ Hwf _ _ Hp) |].
    apply elem_of_getAllPlayers. eauto.
Qed.

Lemma elem_of_getAllMatches s m :
  m ∈ getAllMatches s ↔ ∃ k, matches s !! k = Some m.
Proof.
  unfold getAllMatches. rewrite list_elem_of_fmap. split.
  - intros ([k q] & -> & Hin). exists k. by apply elem_of_map_to_list.
  - intros (k & Hk). exists (k, m). split; [done |]. by apply elem_of_map_to_list.
Qed.

Lemma elem_of_getMatchPlayers s matchId mp :
  mp ∈ getMatchPlayers s matchId ↔
  DBMatchPlayer.matchId mp = matchId ∧ ∃ k, matchPlayers s !! k = Some mp.
Proof.
  unfold getMatchPlayers. rewrite list_elem_of_filter, list_elem_of_fmap.
  apply and_iff_compat_l. split.
  - intros ([k q] & -> & Hin). exists k. by apply elem_of_map_to_list.
  - intros (k & Hk). exists (k, mp). split; [done |]. by apply elem_of_map_to_list.
Qed.

(** A dictionary filled with one value for a list of keys. *)
Lemma lookup_foldl_insert_const {A V} (key : A → string) (v : V) (l : list A)
    (m : gmap string V) (k : string) :
  foldl (λ m x, <[key x := v]> m) m l !! k =
  if decide (k ∈ key <$> l) then Some v else m !! k.
Proof.
  revert m. induction l as [|x l IH]; intros m.
  - destruct (decide _) as [Hin|]; [by apply elem_of_nil in Hin | done].
  - cbn [foldl]. rewrite IH, fmap_cons.
    destruct (decide (k ∈ key <$> l)) as [Hin|Hin].
    + by rewrite decide_True by (by right).
    + destruct (decide (key x = k)) as [<-|Hne].
      * rewrite decide_True by left. apply lookup_insert_eq.
      * rewrite decide_False by (intros [?|?]%elem_of_cons; done).
        by apply lookup_insert_ne.
Qed.

(** * Replay of the match history *)

Section ReplayFacts.
Context `{OpenSkill} `{Device}.
Import FirebaseStatsService.

Lemma storeRatings_lookup_ne ids rs (R : gmap string Rating) k :
  k ∉ ids → storeRatings ids rs R !! k = R !! k.
Proof.
  unfold storeRatings. revert rs R.
  induction ids as [|i ids IH]; intros [|r rs] R Hk; try done.
  simpl. apply not_elem_of_cons in Hk as [Hne Hk].
  rewrite IH by done. by apply lookup_insert_ne.
Qed.

Lemma storeRatings_is_Some ids rs (R : gmap string Rating) k :
  (∀ i, i ∈ ids → is_Some (R !! i)) →
  is_Some (storeRatings ids rs R !! k) ↔ is_Some (R !! k).
Proof.
  unfold storeRatings. revert rs R.
  induction ids as [|i ids IH]; intros [|r rs] R Hids; try done.
  simpl. rewrite IH.
  - rewrite lookup_insert_is_Some. split; [intros [<-|[_ ?]] | ]; [| done |].
    + apply Hids. left.
    + intros Hk. destruct (decide (i = k)); [by left | by right].
  - intros j Hj. rewrite lookup_insert_is_Some.
    destruct (decide (i = j)); [by left | right]. split; [done |].
    apply Hids. by right.
Qed.

Lemma updateStats_None m (T : gmap string Stats) mps k :
  T !! k = None → foldl (updateStats m) T mps !! k = None.
Proof.
  revert T. induction mps as [|mp mps IH]; intros T HT; [done |].
  simpl. apply IH. unfold updateStats.
  destruct (T !! DBMatchPlayer.playerId mp) eqn:Hmp; [|done].
  rewrite lookup_insert_ne; [done | congruence].
Qed.

Lemma updateStats_Some m (T : gmap string Stats) mps k st :
  T !! k = Some st →
  ∃ st', foldl (updateStats m) T mps !! k = Some st'
    ∧ Stats.totalGames st ≤ Stats.totalGames st'
    ∧ (talliesOk st → talliesOk st')
    ∧ (k ∈ DBMatchPlayer.playerId <$> mps → Stats.totalGames st < Stats.totalGames st')
    ∧ (k ∉ DBMatchPlayer.playerId <$> mps → st' = st).
Proof.
  revert T st. induction mps as [|mp mps IH]; intros T st HT.
  - exists st. split_and!; [done | lia | done | by intros ?%elem_of_nil | done].
  - cbn [foldl]. rewrite fmap_cons.
    destruct (decide (DBMatchPlayer.playerId mp = k)) as [Hk|Hk].
    + set (st1 := if decide (DBMatchPlayer.team mp = DBMatch.winningTeam m)
                  then Stats.mk (Stats.totalGames st + 1) (Stats.wins st + 1)
                         (Stats.losses st)
                  else Stats.mk (Stats.totalGames st + 1) (Stats.wins st)
                         (Stats.losses st + 1)).
      assert (updateStats m T mp !! k = Some st1) as H1.
      { unfold updateStats. rewrite Hk, HT. subst k. apply lookup_insert_eq. }
      destruct (IH _ _ H1) as (st' & Hst' & Hle & Hsum & _ & _).
      assert (Stats.totalGames st1 = Stats.totalGames st + 1) as Htg.
      { unfold st1. by case_decide. }
      assert (talliesOk st → talliesOk st1) as Hs1.
      { unfold talliesOk, st1. case_decide; simpl; lia. }
      exists st'. split_and!; [done | lia | auto | lia |].
      intros Hnot. exfalso. apply Hnot. rewrite Hk. left.
    + assert (updateStats m T mp !! k = Some st) as H1.
      { unfold updateStats. destruct (T !! DBMatchPlayer.playerId mp); [|done].
        by rewrite lookup_insert_ne. }
      destruct (IH _ _ H1) as (st' & Hst' & Hle & Hsum & Hin & Hnot).
      exists st'. split_and!; [done | done | done | |].
      * intros [?|?]%elem_of_cons; [congruence | auto].
      * intros Hn. apply Hnot. intros ?. apply Hn. by right.
Qed.

Lemma playsIn_team s k m :
  playsIn s k m ↔
  k ∈ DBMatchPlayer.playerId <$>
        filter (λ mp, DBMatchPlayer.team mp = Titans) (getMatchPlayers s (DBMatch.id m))
  ∨ k ∈ DBMatchPlayer.playerId <$>
        filter (λ mp, DBMatchPlayer.team mp ≠ Titans) (getMatchPlayers s (DBMatch.id m)).
Proof.
  unfold playsIn. rewrite Exists_exists. split.
  - intros (mp & Hin & <-).
    destruct (decide (DBMatchPlayer.team mp = Titans)); [left | right];
      apply list_elem_of_fmap; exists mp; (split; [done |]);
      by apply list_elem_of_filter.
  - intros [Hk|Hk]; apply list_elem_of_fmap in Hk as (mp & -> & Hin);
      apply list_elem_of_filter in Hin as [_ Hin]; by exists mp.
Qed.

Lemma playsIn_elem_of s k m :
  playsIn s k m ↔ k ∈ DBMatchPlayer.playerId <$> getMatchPlayers s (DBMatch.id m).
Proof.
  unfold playsIn. rewrite Exists_exists, list_elem_of_fmap.
  split; intros (mp & ? & ?); by exists mp.
Qed.

Lemma hasCountedGameIn_snoc s pre m k :
  hasCountedGameIn s (pre ++ [m]) k ↔
  hasCountedGameIn s pre k ∨ (counted s m ∧ playsIn s k m).
Proof.
  unfold hasCountedGameIn. rewrite Exists_app, Exists_cons, Exists_nil. tauto.
Qed.

Lemma processMatch_inv s D pre st m st' :
  replayInv s D pre st → processMatch s st m = Some st' →
  replayInv s D (pre ++ [m]) st'.
Proof.
  destruct st as [R T]. intros [HR HT Htally Hdef]. simpl in *.
  unfold processMatch.
  set (mps := getMatchPlayers s (DBMatch.id m)).
  set (tit := DBMatchPlayer.playerId <$> filter (λ mp, DBMatchPlayer.team mp = Titans) mps).
  set (atl := DBMatchPlayer.playerId <$> filter (λ mp, DBMatchPlayer.team mp ≠ Titans) mps).
  destruct (decide _) as [Hskip|Hplay].
  - (* skipped: an empty team *)
    intros [= <-].
    assert (¬ counted s m) as Hnc.
    { unfold counted. fold mps. intros [Ht Ha].
      unfold tit, atl in Hskip. rewrite !length_fmap in Hskip.
      destruct Hskip as [Hz|Hz]; apply nil_length_inv in Hz; done. }
    split; simpl; [done | done | |].
    + intros k t Hk. destruct (Htally k t Hk) as (? & ?).
      rewrite hasCountedGameIn_snoc. tauto.
    + intros k Hk Hn. apply Hdef; [done |].
      rewrite hasCountedGameIn_snoc in Hn. tauto.
  - (* played *)
    assert (counted s m) as Hc.
    { unfold counted. fold mps. unfold tit, atl in Hplay.
      rewrite !length_fmap in Hplay.
      split; intros Hz; rewrite Hz in Hplay; apply Hplay; [by left | by right]. }
    destruct (mapM _ ((λ i, R !! i) <$> tit)) as [tr|] eqn:Htr; [|done].
    destruct (mapM _ ((λ i, R !! i) <$> atl)) as [ar|] eqn:Har; [|done].
    simpl. intros [= <-].
    assert (∀ i, i ∈ tit → is_Some (R !! i)) as Htit.
    { intros i Hi. assert (is_Some (mapM (λ r, r) ((λ i, R !! i) <$> tit))) as Hs by eauto.
      apply mapM_is_Some_1 in Hs. rewrite Forall_fmap, Forall_forall in Hs.
      by apply Hs. }
    assert (∀ i, i ∈ atl → is_Some (R !! i)) as Hatl.
    { intros i Hi. assert (is_Some (mapM (λ r, r) ((λ i, R !! i) <$> atl))) as Hs by eauto.
      apply mapM_is_Some_1 in Hs. rewrite Forall_fmap, Forall_forall in Hs.
      by apply Hs. }
    set (R1 := storeRatings tit _ R).
    assert (∀ k, is_Some (R1 !! k) ↔ is_Some (R !! k)) as HR1.
    { intros k. by apply storeRatings_is_Some. }
    split; simpl.
    + intros k. rewrite storeRatings_is_Some, HR1; [done |].
      intros i Hi. apply HR1. auto.
    + intros k. rewrite <- HT. destruct (T !! k) as [t|] eqn:Hk.
      * destruct (updateStats_Some m T mps k t Hk) as (t' & -> & _). split; eauto.
      * rewrite (updateStats_None m T mps k Hk). done.
    + intros k t' Hk'. destruct (T !! k) as [t|] eqn:Hk.
      * destruct (updateStats_Some m T mps k t Hk) as (t1 & Ht1 & Hle & Hsum & Hin & Hnot).
        rewrite Ht1 in Hk'. injection Hk' as ->.
        destruct (Htally k t Hk) as (Hs & Hiff).
        split; [auto |]. assert (0 ≤ Stats.totalGames t) by (unfold talliesOk in Hs; lia).
        rewrite hasCountedGameIn_snoc, playsIn_elem_of. fold mps.
        destruct (decide (k ∈ DBMatchPlayer.playerId <$> mps)) as [Hp|Hp].
        -- specialize (Hin Hp). split; [intros _; right; done | lia].
        -- rewrite (Hnot Hp). rewrite Hiff. tauto.
      * by rewrite (updateStats_None m T mps k Hk) in Hk'.
    + intros k Hk Hn. rewrite hasCountedGameIn_snoc in Hn.
      assert (¬ playsIn s k m) as Hnp by tauto.
      rewrite playsIn_team in Hnp. fold mps tit atl in Hnp.
      rewrite storeRatings_lookup_ne by tauto. unfold R1.
      rewrite storeRatings_lookup_ne by tauto. apply Hdef; [done | tauto].
Qed.

Lemma replayInv_initial s :
  wf_store s →
  replayInv s (λ k, is_Some (players s !! k)) []
    (initialRatings (getAllPlayers s), initialStats (getAllPlayers s)).
Proof.
  intros Hwf. unfold initialRatings, initialStats. split; simpl.
  - intros k. rewrite lookup_foldl_insert_const, lookup_empty.
    rewrite <- elem_of_getAllPlayers_ids by done.
    case_decide; split; first [done | by intros [? ?]].
  - intros k. rewrite lookup_foldl_insert_const, lookup_empty.
    rewrite <- elem_of_getAllPlayers_ids by done.
    case_decide; split; first [done | by intros [? ?]].
  - intros k t. rewrite lookup_foldl_insert_const, lookup_empty.
    case_decide; [|done]. intros [= <-]. unfold talliesOk. simpl.
    split; [lia |]. unfold hasCountedGameIn. rewrite Exists_nil. lia.
  - intros k Hk _. rewrite lookup_foldl_insert_const.
    rewrite decide_True; [done |]. by apply elem_of_getAllPlayers_ids.
Qed.

(** The replay visits the matches by ascending date, matches of one date
    in the order the store lists them. *)
Lemma sortByDate_spec allMatches :
  sortByDate allMatches ≡ₚ allMatches
  ∧ StronglySorted (λ a b, DBMatch.date a ≤ DBMatch.date b) (sortByDate allMatches)
  ∧ ∀ d, filter (λ m, DBMatch.date m = d) (sortByDate allMatches)
         = filter (λ m, DBMatch.date m = d) allMatches.
Proof.
  unfold sortByDate. split_and!.
  - apply array_sort_perm.
  - apply array_sort_ascending.
  - apply array_sort_stable.
Qed.

Lemma hasCountedGameIn_sorted s k :
  hasCountedGameIn s (sortByDate (getAllMatches s)) k
  ↔ hasCountedGameIn s (getAllMatches s) k.
Proof.
  unfold hasCountedGameIn, sortByDate. rewrite !Exists_exists.
  by setoid_rewrite array_sort_elem_of.
Qed.

Lemma replay_inv s R T :
  wf_store s → replay s = Some (R, T) →
  replayInv s (λ k, is_Some (players s !! k)) (getAllMatches s) (R, T).
Proof.
  intros Hwf Hr.
  pose proof (foldlM_invariant (processMatch s)
                (replayInv s (λ k, is_Some (players s !! k))) _ _ _
                (replayInv_initial s Hwf)
                (λ pre a b1 b2, processMatch_inv s _ pre b1 a b2) Hr) as [HR HT Ht Hd].
  split; [done | done | |].
  - intros k t Hk. rewrite <- hasCountedGameIn_sorted. by apply Ht.
  - intros k Hk Hn. apply Hd; [done |]. by rewrite hasCountedGameIn_sorted.
Qed.
End ReplayFacts.

Section RecalcFacts.
Context `{OpenSkill} `{Device}.
Import FirebaseStatsService.

Lemma withDeviceId_id p : DBPlayer.id (withDeviceId p) = DBPlayer.id p.
Proof. unfold withDeviceId. by destruct (falsy _). Qed.

Lemma savePlayer_lookup p s k :
  players (savePlayer p s) !! k =
  if decide (DBPlayer.id p = k) then Some (withDeviceId p) else players s !! k.
Proof.
  unfold savePlayer, set_players. cbn [players].
  case_decide as Hk; [subst k; apply lookup_insert_eq | by apply lookup_insert_ne].
Qed.

Lemma savePlayer_wf p s : wf_store s → wf_store (savePlayer p s).
Proof.
  intros [Hp Hm Hmp]. split; [| done | done].
  intros k q. rewrite savePlayer_lookup. case_decide as Hk.
  - intros [= <-]. by rewrite withDeviceId_id.
  - apply Hp.
Qed.

Lemma saveUpdated_loop today R T l s s' :
  foldlM (saveUpdated today R T) s l = Some s' →
  matches s' = matches s ∧ matchPlayers s' = matchPlayers s
  ∧ (∀ k, k ∉ DBPlayer.id <$> l → players s' !! k = players s !! k)
  ∧ (NoDup (DBPlayer.id <$> l) → ∀ p, p ∈ l →
       ∃ st r, T !! DBPlayer.id p = Some st ∧ R !! DBPlayer.id p = Some r
         ∧ players s' !! DBPlayer.id p =
           Some (withDeviceId (updatedPlayer (today (DBPlayer.id p)) p st r))).
Proof.
  revert s. induction l as [|p l IH]; intros s.
  - intros [= <-]. split_and!; [done | done | done |]. by intros _ q ?%elem_of_nil.
  - cbn [foldlM]. unfold saveUpdated at 1.
    destruct (T !! DBPlayer.id p) as [st|] eqn:HT; [|done].
    destruct (R !! DBPlayer.id p) as [r|] eqn:HR; [|done]. simpl.
    intros Hl. destruct (IH _ Hl) as (Hm & Hmp & Hout & Hin).
    rewrite ?fmap_cons. split_and!; [done | done | |].
    + intros k [Hne Hk]%not_elem_of_cons. rewrite Hout by done.
      rewrite savePlayer_lookup. by rewrite decide_False.
    + intros [Hp Hnd]%NoDup_cons q [->|Hq]%elem_of_cons.
      * exists st, r. split_and!; [done | done |].
        rewrite Hout by done. rewrite savePlayer_lookup. by rewrite decide_True.
      * by apply Hin.
Qed.

Lemma saveUpdated_loop_is_Some today (R : gmap string Rating) (T : gmap string Stats)
    l s :
  (∀ p, p ∈ l → is_Some (T !! DBPlayer.id p) ∧ is_Some (R !! DBPlayer.id p)) →
  is_Some (foldlM (saveUpdated today R T) s l).
Proof.
  revert s. induction l as [|p l IH]; intros s Hl; [by eexists |].
  cbn [foldlM]. unfold saveUpdated at 1.
  destruct (Hl p) as [[st ->] [r ->]]; [left |]. simpl.
  apply IH. intros q Hq. apply Hl. by right.
Qed.

Lemma recalculatePlayerStats_replay today this s :
  recalculatePlayerStats today this s =
  match replay s with
  | Some (R, T) =>
      match foldlM (saveUpdated today R T) s (getAllPlayers s) with
      | Some s' => Some (mk R, s')
      | None => None
      end
  | None => None
  end.
Proof.
  unfold recalculatePlayerStats, replay.
  destruct (foldlM (processMatch s) _ _) as [[R T]|]; [|done]. simpl.
  by destruct (foldlM (saveUpdated today R T) s (getAllPlayers s)).
Qed.

(** The recalculation succeeds exactly when the replay does, and then
    rewrites every stored player from the two dictionaries and leaves the
    other tables alone. *)
Lemma recalculatePlayerStats_Some today this s R T :
  wf_store s → replay s = Some (R, T) →
  ∃ s', recalculatePlayerStats today this s = Some (mk R, s')
    ∧ matches s' = matches s ∧ matchPlayers s' = matchPlayers s
    ∧ (∀ k, players s !! k = None → players s' !! k = None)
    ∧ (∀ k p, players s !! k = Some p →
         ∃ st r, T !! k = Some st ∧ R !! k = Some r
           ∧ players s' !! k = Some (withDeviceId (updatedPlayer (today k) p st r))).
Proof.
  intros Hwf Hr. rewrite recalculatePlayerStats_replay, Hr.
  destruct (replay_inv s R T Hwf Hr) as [HR HT _ _]. simpl in HR, HT.
  destruct (saveUpdated_loop_is_Some today R T (getAllPlayers s) s) as [s' Hs'].
  { intros p (k & Hk)%elem_of_getAllPlayers.
    rewrite (wf_players _ Hwf _ _ Hk). rewrite HR, HT. eauto. }
  exists s'. rewrite Hs'.
  destruct (saveUpdated_loop _ _ _ _ _ _ Hs') as (Hm & Hmp & Hout & Hin).
  split_and!; [done | done | done | |].
  - intros k Hk. rewrite Hout, Hk; [done |].
    rewrite elem_of_getAllPlayers_ids by done. rewrite Hk. by intros [? ?].
  - intros k p Hk.
    destruct (Hin (getAllPlayers_ids_NoDup s Hwf) p) as (st & r & HTk & HRk & Hp).
    { apply elem_of_getAllPlayers. eauto. }
    rewrite (wf_players _ Hwf _ _ Hk) in HTk, HRk, Hp. eauto.
Qed.

(** A failed run fails whatever the clock and the service state: the
    exception is thrown by the loop over the matches, before any write. *)
Lemma recalculatePlayerStats_None today today' this this' s :
  wf_store s →
  recalculatePlayerStats today this s = None →
  recalculatePlayerStats today' this' s = None.
Proof.
  intros Hwf. rewrite !recalculatePlayerStats_replay.
  destruct (replay s) as [[R T]|] eqn:Hr; [|done].
  destruct (recalculatePlayerStats_Some today this s R T Hwf Hr) as (s1 & Hs1 & _).
  rewrite recalculatePlayerStats_replay, Hr in Hs1.
  by destruct (foldlM (saveUpdated today R T) s (getAllPlayers s)).
Qed.

Lemma recalculatePlayerStats_inv today this s this' s' :
  recalculatePlayerStats today this s = Some (this', s') →
  ∃ R T, replay s = Some (R, T) ∧ this' = mk R.
Proof.
  rewrite recalculatePlayerStats_replay.
  destruct (replay s) as [[R T]|]; [|done].
  destruct (foldlM _ _ _); [|done]. intros [= <- <-]. eauto.
Qed.

Lemma recalculatePlayerStats_wf today this s this' s' :
  wf_store s → recalculatePlayerStats today this s = Some (this', s') → wf_store s'.
Proof.
  intros Hwf Hrec.
  destruct (recalculatePlayerStats_inv _ _ _ _ _ Hrec) as (R & T & Hr & ->).
  destruct (recalculatePlayerStats_Some today this s R T Hwf Hr)
    as (s1 & Hs1 & Hm & Hmp & Hnone & Hsome).
  rewrite Hrec in Hs1. injection Hs1 as <-.
  split.
  - intros k q Hq. destruct (players s !! k) as [p|] eqn:Hk.
    + destruct (Hsome k p Hk) as (st & r & _ & _ & Hq').
      rewrite Hq in Hq'. injection Hq' as ->.
      rewrite withDeviceId_id. simpl. by apply (wf_players _ Hwf).
    + by rewrite (Hnone k Hk) in Hq.
  - rewrite Hm. apply (wf_matches _ Hwf).
  - rewrite Hmp. apply (wf_matchPlayers _ Hwf).
Qed.

(** The replay reads the players' keys, the matches and the rows only. *)
Lemma replay_ext s1 s2 :
  wf_store s1 → wf_store s2 →
  (∀ k, is_Some (players s1 !! k) ↔ is_Some (players s2 !! k)) →
  matches s1 = matches s2 → matchPlayers s1 = matchPlayers s2 →
  replay s1 = replay s2.
Proof.
  intros Hwf1 Hwf2 Hdom Hm Hmp. unfold replay.
  assert (getAllMatches s1 = getAllMatches s2) as -> by (unfold getAllMatches; by rewrite Hm).
  assert (initialRatings (getAllPlayers s1) = initialRatings (getAllPlayers s2)) as ->.
  { apply map_eq. intros k. unfold initialRatings.
    rewrite !lookup_foldl_insert_const.
    destruct (decide (k ∈ _ <$> getAllPlayers s1)) as [Hk|Hk];
      rewrite elem_of_getAllPlayers_ids, Hdom, <- elem_of_getAllPlayers_ids in Hk by done;
      [by rewrite decide_True | by rewrite decide_False]. }
  assert (initialStats (getAllPlayers s1) = initialStats (getAllPlayers s2)) as ->.
  { apply map_eq. intros k. unfold initialStats.
    rewrite !lookup_foldl_insert_const.
    destruct (decide (k ∈ _ <$> getAllPlayers s1)) as [Hk|Hk];
      rewrite elem_of_getAllPlayers_ids, Hdom, <- elem_of_getAllPlayers_ids in Hk by done;
      [by rewrite decide_True | by rewrite decide_False]. }
  apply foldlM_ext. intros m st _. unfold processMatch, getMatchPlayers.
  by rewrite Hmp.
Qed.
End RecalcFacts.

Section RecalcTheorems.
Context `{OpenSkill} `{Device}.
Import FirebaseStatsService.

Lemma ratingView_updated today p st r :
  ratingView (withDeviceId (updatedPlayer today p st r)) =
  (Some (Rating.mu r), Some (Rating.sigma r), Some (ordinal r),
   Math_round ((ordinal r + 25) * 40 + 200)%Q,
   Stats.totalGames st, Stats.wins st, Stats.losses st).
Proof. unfold withDeviceId. by destruct (falsy _). Qed.

(** C1.  A second recalculation, run on the store the first one left,
    succeeds and gives every player the rating fields and tallies the
    first one gave; neither the clock nor the dictionary kept by the
    service matters. *)
Theorem replay_determinism today1 today2 this this' s this1 s1 :
  wf_store s →
  recalculatePlayerStats today1 this s = Some (this1, s1) →
  ∃ this2 s2,
    recalculatePlayerStats today2 this' s1 = Some (this2, s2)
    ∧ ∀ k, ratingView <$> players s2 !! k = ratingView <$> players s1 !! k.
Proof.
  intros Hwf Hrec.
  pose proof (recalculatePlayerStats_wf _ _ _ _ _ Hwf Hrec) as Hwf1.
  destruct (recalculatePlayerStats_inv _ _ _ _ _ Hrec) as (R & T & Hr & ->).
  destruct (recalculatePlayerStats_Some today1 this s R T Hwf Hr)
    as (s1' & Hs1 & Hm & Hmp & Hnone & Hsome).
  rewrite Hrec in Hs1. injection Hs1 as <-.
  assert (replay s1 = Some (R, T)) as Hr1.
  { rewrite <- Hr. apply replay_ext; try done.
    intros k. destruct (players s !! k) as [p|] eqn:Hk.
    - destruct (Hsome k p Hk) as (st & r & _ & _ & ->). split; eauto.
    - by rewrite (Hnone k Hk). }
  destruct (recalculatePlayerStats_Some today2 this' s1 R T Hwf1 Hr1)
    as (s2 & Hs2 & _ & _ & Hnone2 & Hsome2).
  exists (mk R), s2. split; [done |]. intros k.
  destruct (players s !! k) as [p|] eqn:Hk.
  - destruct (Hsome k p Hk) as (st & r & HT & HR & Hp1).
    destruct (Hsome2 k _ Hp1) as (st' & r' & HT' & HR' & Hp2).
    rewrite Hp1, Hp2. simplify_eq. simpl. by rewrite !ratingView_updated.
  - rewrite (Hnone2 k), (Hnone k Hk); [done |]. by apply Hnone.
Qed.

(** C2.  After a recalculation every stored player has
    [wins + losses = totalGames]. *)
Theorem tally_invariant today this s this' s' :
  wf_store s →
  recalculatePlayerStats today this s = Some (this', s') →
  ∀ k p, players s' !! k = Some p →
    DBPlayer.wins p + DBPlayer.losses p = DBPlayer.totalGames p.
Proof.
  intros Hwf Hrec k p' Hp'.
  destruct (recalculatePlayerStats_inv _ _ _ _ _ Hrec) as (R & T & Hr & ->).
  destruct (recalculatePlayerStats_Some today this s R T Hwf Hr)
    as (s1 & Hs1 & _ & _ & Hnone & Hsome).
  rewrite Hrec in Hs1. injection Hs1 as <-.
  destruct (players s !! k) as [p|] eqn:Hk; [|by rewrite (Hnone k Hk) in Hp'].
  destruct (Hsome k p Hk) as (st & r & HT & _ & Hp).
  rewrite Hp' in Hp. injection Hp as ->.
  destruct (replay_inv s R T Hwf Hr) as [_ _ Htally _].
  destruct (Htally k st HT) as ((Hsum & _) & _).
  pose proof (ratingView_updated (today k) p st r) as Hview.
  unfold ratingView in Hview. injection Hview as _ _ _ _ -> -> ->. done.
Qed.

(** C9.  A recalculation keeps [id], [name] and [dateCreated] of every
    stored player.  A player with no row in a counted match is stored with
    the default rating, its ordinal and the old [lastPlayed]; a player
    with such a row is stored with [lastPlayed] set to the clock reading
    of the run. *)
Theorem recalculation_frame today this s this' s' :
  wf_store s →
  recalculatePlayerStats today this s = Some (this', s') →
  ∀ k p, players s !! k = Some p →
    ∃ p', players s' !! k = Some p'
      ∧ DBPlayer.id p' = DBPlayer.id p
      ∧ DBPlayer.name p' = DBPlayer.name p
      ∧ DBPlayer.dateCreated p' = DBPlayer.dateCreated p
      ∧ (¬ hasCountedGame s k →
           DBPlayer.mu p' = Some (Rating.mu rating)
           ∧ DBPlayer.sigma p' = Some (Rating.sigma rating)
           ∧ DBPlayer.ordinal p' = Some (ordinal rating)
           ∧ DBPlayer.lastPlayed p' = DBPlayer.lastPlayed p)
      ∧ (hasCountedGame s k → DBPlayer.lastPlayed p' = today k).
Proof.
  intros Hwf Hrec k p Hk.
  destruct (recalculatePlayerStats_inv _ _ _ _ _ Hrec) as (R & T & Hr & ->).
  destruct (recalculatePlayerStats_Some today this s R T Hwf Hr)
    as (s1 & Hs1 & _ & _ & Hnone & Hsome).
  rewrite Hrec in Hs1. injection Hs1 as <-.
  destruct (Hsome k p Hk) as (st & r & HT & HR & Hp).
  destruct (replay_inv s R T Hwf Hr) as [_ _ Htally Hdef]. simpl in *.
  destruct (Htally k st HT) as (_ & Hiff).
  exists (withDeviceId (updatedPlayer (today k) p st r)).
  assert (∀ q, DBPlayer.name (withDeviceId q) = DBPlayer.name q
               ∧ DBPlayer.dateCreated (withDeviceId q) = DBPlayer.dateCreated q
               ∧ DBPlayer.lastPlayed (withDeviceId q) = DBPlayer.lastPlayed q
               ∧ DBPlayer.mu (withDeviceId q) = DBPlayer.mu q
               ∧ DBPlayer.sigma (withDeviceId q) = DBPlayer.sigma q
               ∧ DBPlayer.ordinal (withDeviceId q) = DBPlayer.ordinal q) as Hwd.
  { intros q. unfold withDeviceId. by destruct (falsy _). }
  destruct (Hwd (updatedPlayer (today k) p st r)) as (Hn & Hdc & Hlp & Hmu & Hsg & Hord).
  split_and!; [done | by rewrite withDeviceId_id | by rewrite Hn | by rewrite Hdc | |].
  - intros Hno. rewrite Hmu, Hsg, Hord, Hlp. simpl.
    assert (R !! k = Some rating) as HR'.
    { apply Hdef; [by exists p | exact Hno]. }
    rewrite HR in HR'. injection HR' as ->.
    split_and!; try done. rewrite decide_False; [done |].
    intros Hgt. apply Hno, Hiff. lia.
  - intros Hyes. rewrite Hlp. simpl. rewrite decide_True; [done |].
    unfold hasCountedGame in Hyes. apply Hiff in Hyes. lia.
Qed.
End RecalcTheorems.

Lemma foldlM_is_Some_iff {A B} (f : B → A → option B) (P : list A → B → Prop)
    (ok : A → Prop) (l : list A) :
  (∀ pre a b1 b2, P pre b1 → f b1 a = Some b2 → P (pre ++ [a]) b2) →
  (∀ pre a b1, P pre b1 → is_Some (f b1 a) ↔ ok a) →
  ∀ pre b, P pre b → is_Some (foldlM f b l) ↔ Forall ok l.
Proof.
  intros Hstep Hok. induction l as [|a l IH]; intros pre b Hb; simpl.
  - split; [constructor | eauto].
  - rewrite Forall_cons, <- (Hok pre a b Hb).
    destruct (f b a) as [b1|] eqn:Hf.
    + rewrite (IH (pre ++ [a]) b1) by eauto. split; [eauto | tauto].
    + split; [by intros [? ?] | by intros [[? ?] _]].
Qed.

Section ReplaySuccess.
Context `{OpenSkill} `{Device}.
Import FirebaseStatsService.

Lemma filter_not_nil {A} (P : A → Prop) `{∀ x, Decision (P x)} (l : list A) :
  filter P l ≠ [] ↔ ∃ x, x ∈ l ∧ P x.
Proof.
  split.
  - intros Hne. destruct (filter P l) as [|x l'] eqn:Hf; [done |].
    assert (x ∈ filter P l) as Hx by (rewrite Hf; left).
    apply list_elem_of_filter in Hx as [? ?]. eauto.
  - intros (x & Hx & HP) Hnil.
    assert (x ∈ filter P l) as Hin by (by apply list_elem_of_filter).
    rewrite Hnil in Hin. by apply elem_of_nil in Hin.
Qed.

Lemma processMatch_is_Some s D pre st m :
  replayInv s D pre st → is_Some (processMatch s st m) ↔ matchOk s D m.
Proof.
  destruct st as [R T]. intros [HR _ _ _]. simpl in HR.
  unfold processMatch, matchOk.
  set (mps := getMatchPlayers s (DBMatch.id m)).
  set (tit := DBMatchPlayer.playerId <$> filter (λ mp, DBMatchPlayer.team mp = Titans) mps).
  set (atl := DBMatchPlayer.playerId <$> filter (λ mp, DBMatchPlayer.team mp ≠ Titans) mps).
  destruct (decide _) as [Hskip|Hplay].
  - split; [|eauto]. intros _ [Ht Ha]. fold mps in Ht, Ha.
    unfold tit, atl in Hskip. rewrite !length_fmap in Hskip.
    destruct Hskip as [Hz|Hz]; apply nil_length_inv in Hz; done.
  - assert (counted s m) as Hc.
    { unfold counted. fold mps. unfold tit, atl in Hplay.
      rewrite !length_fmap in Hplay.
      split; intros Hz; rewrite Hz in Hplay; apply Hplay; [by left | by right]. }
    assert (∀ ids : list string,
               is_Some (mapM (λ r, r) ((λ i, R !! i) <$> ids)) ↔ ∀ i, i ∈ ids → D i)
      as HmapM.
    { intros ids. rewrite mapM_is_Some, Forall_fmap, Forall_forall.
      split; intros Hall i Hi; apply HR; by apply Hall. }
    split.
    + intros Hsome _ mp Hmp.
      destruct (mapM _ ((λ i, R !! i) <$> tit)) as [tr|] eqn:Htr;
        [|by destruct Hsome].
      destruct (mapM _ ((λ i, R !! i) <$> atl)) as [ar|] eqn:Har;
        [|by destruct Hsome].
      destruct (decide (DBMatchPlayer.team mp = Titans)) as [Hteam|Hteam].
      * apply (proj1 (HmapM tit)); [by rewrite Htr |].
        apply list_elem_of_fmap. exists mp. split; [done |].
        by apply list_elem_of_filter.
      * apply (proj1 (HmapM atl)); [by rewrite Har |].
        apply list_elem_of_fmap. exists mp. split; [done |].
        by apply list_elem_of_filter.
    + intros Hall. specialize (Hall Hc).
      destruct (proj2 (HmapM tit)) as [tr ->].
      { intros i (mp & -> & [_ Hmp]%list_elem_of_filter)%list_elem_of_fmap. auto. }
      destruct (proj2 (HmapM atl)) as [ar ->].
      { intros i (mp & -> & [_ Hmp]%list_elem_of_filter)%list_elem_of_fmap. auto. }
      simpl. eauto.
Qed.

(** The replay succeeds exactly when every counted match names stored
    players only. *)
Lemma replay_is_Some s :
  wf_store s →
  is_Some (replay s) ↔
  ∀ m, m ∈ getAllMatches s → matchOk s (λ k, is_Some (players s !! k)) m.
Proof.
  intros Hwf. unfold replay.
  rewrite (foldlM_is_Some_iff (processMatch s)
             (replayInv s (λ k, is_Some (players s !! k)))
             (matchOk s (λ k, is_Some (players s !! k)))
             (sortByDate (getAllMatches s))
             (λ pre a b1 b2, processMatch_inv s _ pre b1 a b2)
             (λ pre a b1, processMatch_is_Some s _ pre b1 a)
             [] _ (replayInv_initial s Hwf)).
  rewrite Forall_forall. unfold sortByDate.
  by setoid_rewrite array_sort_elem_of.
Qed.
End ReplaySuccess.

(** * Recording and deleting a match *)

Section LifecycleFacts.
Context `{OpenSkill} `{Device}.
Import FirebaseStatsService MatchService.

Lemma withDeviceId_level p : DBPlayer.level (withDeviceId p) = DBPlayer.level p.
Proof. unfold withDeviceId. by destruct (falsy _). Qed.

Lemma levelLe_refl a : levelLe a a.
Proof. destruct a; simpl; [lia | done]. Qed.

Lemma levelLe_trans a b c : levelLe a b → levelLe b c → levelLe a c.
Proof. destruct a, b, c; simpl; try done; lia. Qed.

Lemma levelBumps_spec stored incoming :
  levelBumps stored incoming = true ↔
  ∃ l, incoming = Some l ∧ (stored = None ∨ ∃ l0, stored = Some l0 ∧ l0 < l).
Proof.
  unfold levelBumps. destruct incoming as [l|]; [|split; [done | by intros (? & ? & _)]].
  destruct stored as [l0|].
  - rewrite bool_decide_eq_true. split.
    + intros Hgt. exists l. split; [done |]. right. exists l0. split; [done | lia].
    + intros (? & [= <-] & [?|(? & [= <-] & ?)]); [done | lia].
  - split; [|done]. intros _. exists l. split; [done | by left].
Qed.

Lemma levelBumps_le stored incoming :
  levelBumps stored incoming = true → levelLe stored incoming.
Proof.
  intros (l & -> & [->|(l0 & -> & ?)])%levelBumps_spec; simpl; [done | lia].
Qed.

(** One callback of the first loop. *)
Lemma ensurePlayer_facts created s playerInfo :
  wf_store s →
  let s' := (ensurePlayer created s playerInfo).2 in
  wf_store s'
  ∧ matches s' = matches s ∧ matchPlayers s' = matchPlayers s
  ∧ is_Some (players s' !! PlayerInfo.id playerInfo)
  ∧ (∀ k p, players s !! k = Some p →
       ∃ p', players s' !! k = Some p'
         ∧ levelLe (DBPlayer.level p) (DBPlayer.level p')).
Proof.
  intros Hwf. unfold ensurePlayer, getPlayer, createPlayer.
  destruct (players s !! PlayerInfo.id playerInfo) as [ex|] eqn:Hex.
  - pose proof (wf_players _ Hwf _ _ Hex) as Hid.
    destruct (levelBumps _ _) eqn:Hb; cbn [snd].
    + split_and!; [by apply savePlayer_wf | done | done | |].
      * rewrite savePlayer_lookup. cbn [withLevel DBPlayer.id].
        rewrite decide_True by done. eauto.
      * intros k p Hk. rewrite savePlayer_lookup. cbn [withLevel DBPlayer.id].
        case_decide as Hkk.
        -- eexists. split; [done |]. rewrite withDeviceId_level.
           cbn [DBPlayer.level].
           assert (p = ex) as -> by congruence. by apply levelBumps_le.
        -- exists p. split; [done | apply levelLe_refl].
    + split_and!; [done | done | done | eauto |].
      intros k p Hk. exists p. split; [done | apply levelLe_refl].
  - cbn [snd]. split_and!; [by apply savePlayer_wf | done | done | |].
    + rewrite savePlayer_lookup. cbn [newPlayer DBPlayer.id].
      rewrite decide_True by done. eauto.
    + intros k p Hk. rewrite savePlayer_lookup. cbn [newPlayer DBPlayer.id].
      rewrite decide_False by congruence. exists p. split; [done | apply levelLe_refl].
Qed.

Lemma ensurePlayers_facts created playerData s :
  wf_store s →
  let s' := ensurePlayers created playerData s in
  wf_store s'
  ∧ matches s' = matches s ∧ matchPlayers s' = matchPlayers s
  ∧ (∀ playerInfo, playerInfo ∈ playerData →
       is_Some (players s' !! PlayerInfo.id playerInfo))
  ∧ (∀ k p, players s !! k = Some p →
       ∃ p', players s' !! k = Some p'
         ∧ levelLe (DBPlayer.level p) (DBPlayer.level p')).
Proof.
  unfold ensurePlayers. revert s.
  induction playerData as [|playerInfo playerData IH]; intros s Hwf.
  - simpl. split_and!; [done | done | done | by intros ? ?%elem_of_nil |].
    intros k p Hk. exists p. split; [done | apply levelLe_refl].
  - cbn [foldl].
    destruct (ensurePlayer_facts created s playerInfo Hwf) as (Hwf1 & Hm1 & Hr1 & Hin1 & Hle1).
    destruct (IH _ Hwf1) as (Hwf2 & Hm2 & Hr2 & Hin2 & Hle2).
    split_and!; [done | congruence | congruence | |].
    + intros q [->|Hq]%elem_of_cons; [|by apply Hin2].
      destruct Hin1 as [p1 Hp1]. destruct (Hle2 _ _ Hp1) as (p' & -> & _). eauto.
    + intros k p Hk. destruct (Hle1 k p Hk) as (p1 & Hp1 & Hl1).
      destruct (Hle2 k p1 Hp1) as (p2 & Hp2 & Hl2).
      exists p2. split; [done |]. by eapply levelLe_trans.
Qed.

Lemma saveMatch_facts m s :
  wf_store s →
  wf_store (saveMatch m s)
  ∧ players (saveMatch m s) = players s
  ∧ matchPlayers (saveMatch m s) = matchPlayers s
  ∧ is_Some (matches (saveMatch m s) !! DBMatch.id m)
  ∧ ∀ k m', matches (saveMatch m s) !! k = Some m' →
      matches s !! k = Some m' ∨ k = DBMatch.id m.
Proof.
  intros [Hp Hm Hmp]. unfold saveMatch, set_matches.
  destruct (falsy _); cbn [matches players matchPlayers DBMatch.id].
  - split_and!; [split; [done | | done] | done | done | |]; cbn [matches].
    + intros k m'. rewrite lookup_insert. case_decide as Hk; [|apply Hm].
      by intros [= <-].
    + rewrite lookup_insert_eq. eauto.
    + intros k m'. rewrite lookup_insert. case_decide; [by right | by left].
  - split_and!; [split; [done | | done] | done | done | |]; cbn [matches].
    + intros k m'. rewrite lookup_insert. case_decide as Hk; [|apply Hm].
      by intros [= <-].
    + rewrite lookup_insert_eq. eauto.
    + intros k m'. rewrite lookup_insert. case_decide; [by right | by left].
Qed.

Lemma saveMatchPlayer_facts mp s :
  wf_store s →
  wf_store (saveMatchPlayer mp s)
  ∧ players (saveMatchPlayer mp s) = players s
  ∧ matches (saveMatchPlayer mp s) = matches s
  ∧ ∀ k mp', matchPlayers (saveMatchPlayer mp s) !! k = Some mp' →
      matchPlayers s !! k = Some mp'
      ∨ DBMatchPlayer.matchId mp' = DBMatchPlayer.matchId mp.
Proof.
  intros [Hp Hm Hmp]. unfold saveMatchPlayer, set_matchPlayers.
  destruct (falsy _); cbn [matches players matchPlayers DBMatchPlayer.id].
  - split_and!; [split; [done | done |] | done | done |]; cbn [matchPlayers].
    + intros k m'. rewrite lookup_insert. case_decide as Hk; [|apply Hmp].
      by intros [= <-].
    + intros k m'. rewrite lookup_insert. case_decide; [|by left].
      intros [= <-]. by right.
  - split_and!; [split; [done | done |] | done | done |]; cbn [matchPlayers].
    + intros k m'. rewrite lookup_insert. case_decide as Hk; [|apply Hmp].
      by intros [= <-].
    + intros k m'. rewrite lookup_insert. case_decide; [|by left].
      intros [= <-]. by right.
Qed.

Lemma saveMatchPlayers_facts mid rows s :
  wf_store s → Forall (λ mp, DBMatchPlayer.matchId mp = mid) rows →
  let s' := foldl (λ s mp, saveMatchPlayer mp s) s rows in
  wf_store s' ∧ players s' = players s ∧ matches s' = matches s
  ∧ ∀ k mp', matchPlayers s' !! k = Some mp' →
      matchPlayers s !! k = Some mp' ∨ DBMatchPlayer.matchId mp' = mid.
Proof.
  revert s. induction rows as [|mp rows IH]; intros s Hwf Hrows; simpl.
  - split_and!; [done | done | done |]. intros k mp' Hk. by left.
  - apply Forall_cons in Hrows as [Hmp Hrows].
    destruct (saveMatchPlayer_facts mp s Hwf) as (Hwf1 & Hp1 & Hm1 & Hr1).
    destruct (IH _ Hwf1 Hrows) as (Hwf2 & Hp2 & Hm2 & Hr2).
    split_and!; [done | congruence | congruence |].
    intros k mp' Hk. destruct (Hr2 k mp' Hk) as [Hk1|?]; [|by right].
    destruct (Hr1 k mp' Hk1) as [?|?]; [by left | right; congruence].
Qed.

(** The store after the writes of [recordMatch]. *)
Lemma persistMatch_facts created matchUuid rowUuid matchData playerData s :
  wf_store s →
  let s' := persistMatch created matchUuid rowUuid matchData playerData s in
  wf_store s'
  ∧ (∀ playerInfo, playerInfo ∈ playerData →
       is_Some (players s' !! PlayerInfo.id playerInfo))
  ∧ (∀ k p, players s !! k = Some p →
       ∃ p', players s' !! k = Some p'
         ∧ levelLe (DBPlayer.level p) (DBPlayer.level p'))
  ∧ is_Some (matches s' !! matchUuid)
  ∧ (∀ k m, matches s' !! k = Some m → matches s !! k = Some m ∨ k = matchUuid)
  ∧ (∀ k mp, matchPlayers s' !! k = Some mp →
       matchPlayers s !! k = Some mp ∨ DBMatchPlayer.matchId mp = matchUuid).
Proof.
  intros Hwf. unfold persistMatch.
  destruct (ensurePlayers_facts created playerData s Hwf) as (Hwf1 & Hm1 & Hr1 & Hin1 & Hle1).
  set (s1 := ensurePlayers created playerData s) in *.
  set (m := newMatch matchUuid matchData playerData).
  destruct (saveMatch_facts m s1 Hwf1) as (Hwf2 & Hp2 & Hr2 & Hmid & Hm2).
  set (rows := imap _ playerData).
  destruct (saveMatchPlayers_facts matchUuid rows (saveMatch m s1) Hwf2)
    as (Hwf3 & Hp3 & Hm3 & Hr3).
  { apply Forall_forall. intros mp Hmp. unfold rows in Hmp.
    apply list_elem_of_lookup in Hmp as [i Hi].
    rewrite list_lookup_imap in Hi.
    destruct (playerData !! i); simpl in Hi; [|done]. by injection Hi as <-. }
  cbv zeta. split_and!; [done | | | | |].
  - intros q Hq. rewrite Hp3, Hp2. by apply Hin1.
  - intros k p Hk. rewrite Hp3, Hp2. by apply Hle1.
  - by rewrite Hm3.
  - intros k m'. rewrite Hm3. intros Hk.
    destruct (Hm2 k m' Hk) as [?|?]; [left; congruence | by right].
  - intros k mp Hk. destruct (Hr3 k mp Hk) as [Hk'|?]; [left | by right].
    congruence.
Qed.

Lemma lookup_foldl_delete {V} (key : V → string) (l : list V)
    (m : gmap string V) k :
  foldl (λ m x, delete (key x) m) m l !! k =
  if decide (k ∈ key <$> l) then None else m !! k.
Proof.
  revert m. induction l as [|x l IH]; intros m.
  - destruct (decide _) as [Hin|]; [by apply elem_of_nil in Hin | done].
  - cbn [foldl]. rewrite IH, fmap_cons.
    destruct (decide (k ∈ key <$> l)) as [Hin|Hin].
    + by rewrite decide_True by (by right).
    + destruct (decide (key x = k)) as [<-|Hne].
      * rewrite decide_True by left. apply lookup_delete_eq.
      * rewrite decide_False by (intros [?|?]%elem_of_cons; done).
        by apply lookup_delete_ne.
Qed.

(** The store after the deletions of [deleteMatch]. *)
Lemma deleteMatchAndPlayers_facts matchId s :
  wf_store s →
  let s' := deleteMatchAndPlayers matchId (getMatchPlayers s matchId) s in
  wf_store s' ∧ players s' = players s
  ∧ matches s' = delete matchId (matches s)
  ∧ ∀ k mp, matchPlayers s' !! k = Some mp ↔
      matchPlayers s !! k = Some mp ∧ DBMatchPlayer.matchId mp ≠ matchId.
Proof.
  intros Hwf. unfold deleteMatchAndPlayers.
  set (rows := getMatchPlayers s matchId).
  assert (∀ s0,
    players (foldl (λ s player, set_matchPlayers (delete (DBMatchPlayer.id player)) s)
                   s0 rows) = players s0
    ∧ matches (foldl (λ s player, set_matchPlayers (delete (DBMatchPlayer.id player)) s)
                     s0 rows) = matches s0
    ∧ matchPlayers (foldl (λ s player, set_matchPlayers (delete (DBMatchPlayer.id player)) s)
                          s0 rows)
      = foldl (λ m x, delete (DBMatchPlayer.id x) m) (matchPlayers s0) rows) as Hfold.
  { induction rows as [|r rows IH]; intros s0; [done |]. cbn [foldl].
    destruct (IH (set_matchPlayers (delete (DBMatchPlayer.id r)) s0)) as (-> & -> & ->).
    done. }
  destruct (Hfold s) as (Hp & Hm & Hr).
  assert (∀ k mp,
    foldl (λ m x, delete (DBMatchPlayer.id x) m) (matchPlayers s) rows !! k = Some mp ↔
    matchPlayers s !! k = Some mp ∧ DBMatchPlayer.matchId mp ≠ matchId) as Hrows.
  { intros k mp. rewrite lookup_foldl_delete. case_decide as Hin.
    - split; [done |]. intros [Hk Hne].
      apply list_elem_of_fmap in Hin as (mp' & -> & Hmp').
      apply elem_of_getMatchPlayers in Hmp' as [Hid (k' & Hk')].
      rewrite <- (wf_matchPlayers _ Hwf _ _ Hk') in Hk'. congruence.
    - split; [|tauto]. intros Hk. split; [done |]. intros Hid. apply Hin.
      apply list_elem_of_fmap. exists mp.
      split; [by rewrite (wf_matchPlayers _ Hwf _ _ Hk) |].
      apply elem_of_getMatchPlayers. eauto. }
  cbv zeta. unfold set_matches. cbn [players matches matchPlayers].
  rewrite Hp, Hm, Hr. split_and!; [| done | done | done].
  split; cbn [players matches matchPlayers].
  - apply (wf_players _ Hwf).
  - intros k m [_ Hk]%lookup_delete_Some. by apply (wf_matches _ Hwf).
  - intros k mp [Hk _]%Hrows. by apply (wf_matchPlayers _ Hwf).
Qed.
End LifecycleFacts.

Section LifecycleTheorems.
Context `{OpenSkill} `{Device}.
Variable showGameLength : GameLength → string.
Import FirebaseStatsService MatchService.

(** C7.  Record a match whose players have no row in the stored history,
    then delete it: the deletion succeeds and its recalculation leaves
    every player of the match with the rating fields and tallies of a new
    player.  The display rating of the default ordinal is assumed to be
    [INITIAL_ELO], as [createPlayer] has it. *)
Theorem record_delete_roundtrip clock created today1 today2 matchUuid rowUuid
    stats0 stats' matchData playerData s mid stats1 s1 :
  wf_store s →
  (∀ k mp, matchPlayers s !! k = Some mp →
     DBMatchPlayer.playerId mp ∉ PlayerInfo.id <$> playerData) →
  Math_round ((ordinal rating + 25) * 40 + 200)%Q = INITIAL_ELO →
  recordMatch showGameLength clock created today1 matchUuid rowUuid stats0
    matchData playerData s = Some (mid, (stats1, s1)) →
  ∃ stats2 s2,
    deleteMatch today2 stats' mid s1 = Some (stats2, s2)
    ∧ ∀ playerInfo, playerInfo ∈ playerData →
        ∃ p, players s2 !! PlayerInfo.id playerInfo = Some p
          ∧ ratingView p =
            (Some (Rating.mu rating), Some (Rating.sigma rating),
             Some (ordinal rating), INITIAL_ELO, 0, 0, 0).
Proof.
  intros Hwf Hnew Helo. unfold recordMatch.
  destruct (negb _); [done |].
  set (sp := persistMatch created matchUuid rowUuid matchData playerData s).
  destruct (recalculatePlayerStats today1 stats0 sp) as [[st1 s1']|] eqn:Hrec; [|done].
  simpl. intros [= <- -> ->].
  destruct (persistMatch_facts created matchUuid rowUuid matchData playerData s Hwf)
    as (Hwfp & Hinp & _ & Hmid & Hmsp & Hrp). fold sp in Hwfp, Hinp, Hmid, Hmsp, Hrp.
  (* the store after the first recalculation *)
  pose proof (recalculatePlayerStats_wf _ _ _ _ _ Hwfp Hrec) as Hwf1.
  destruct (recalculatePlayerStats_inv _ _ _ _ _ Hrec) as (R1 & T1 & Hr1 & ->).
  destruct (recalculatePlayerStats_Some today1 stats0 sp R1 T1 Hwfp Hr1)
    as (s1' & Hs1 & Hm1 & Hrows1 & Hnone1 & Hsome1).
  rewrite Hrec in Hs1. injection Hs1 as <-.
  assert (∀ k, is_Some (players sp !! k) → is_Some (players s1 !! k)) as Hdom1.
  { intros k [p Hp]. destruct (Hsome1 k p Hp) as (? & ? & _ & _ & ->). eauto. }
  (* the deletion *)
  unfold deleteMatch, getMatch. rewrite Hm1.
  destruct Hmid as [m0 ->].
  destruct (deleteMatchAndPlayers_facts matchUuid s1 Hwf1) as (Hwfd & Hpd & Hmd & Hrd).
  set (sd := deleteMatchAndPlayers matchUuid (getMatchPlayers s1 matchUuid) s1) in *.
  assert (∀ m mp, m ∈ getAllMatches sd → mp ∈ getMatchPlayers sd (DBMatch.id m) →
            m ∈ getAllMatches sp ∧ mp ∈ getMatchPlayers sp (DBMatch.id m)
            ∧ ∃ k, matchPlayers s !! k = Some mp) as Hback.
  { intros m mp (km & Hkm)%elem_of_getAllMatches [Hid (k & Hk)]%elem_of_getMatchPlayers.
    rewrite Hmd in Hkm. apply lookup_delete_Some in Hkm as [Hne Hkm].
    rewrite Hm1 in Hkm. pose proof (wf_matches _ Hwfp _ _ Hkm) as Hidm.
    apply Hrd in Hk as [Hk Hmid']. rewrite Hrows1 in Hk.
    split_and!.
    - apply elem_of_getAllMatches. eauto.
    - apply elem_of_getMatchPlayers. eauto.
    - destruct (Hrp k mp Hk) as [?|?]; [eauto | done]. }
  assert (∀ m, m ∈ getAllMatches sd → counted sd m → counted sp m) as Hcounted.
  { intros m Hm [Ht Ha]. apply filter_not_nil in Ht as (mp1 & Hmp1 & Ht1).
    apply filter_not_nil in Ha as (mp2 & Hmp2 & Ht2).
    split; apply filter_not_nil; [exists mp1 | exists mp2];
      (split; [by apply (Hback m) | done]). }
  assert (is_Some (replay sd)) as [[R T] Hrd'].
  { apply replay_is_Some; [done |]. intros m Hm Hc mp Hmp.
    destruct (Hback m mp Hm Hmp) as (Hm' & Hmp' & _).
    assert (is_Some (replay sp)) as Hsp by eauto.
    rewrite (replay_is_Some sp Hwfp) in Hsp.
    rewrite Hpd. apply Hdom1. apply (Hsp m Hm'); [by apply Hcounted | done]. }
  destruct (recalculatePlayerStats_Some today2 stats' sd R T Hwfd Hrd')
    as (s2 & Hs2 & _ & _ & _ & Hsome2).
  exists (mk R), s2. split; [done |].
  intros playerInfo Hpi. set (k := PlayerInfo.id playerInfo).
  destruct (Hdom1 k (Hinp _ Hpi)) as [p1 Hp1]. rewrite <- Hpd in Hp1.
  destruct (Hsome2 k p1 Hp1) as (st & r & HT & HR & Hp2).
  exists (withDeviceId (updatedPlayer (today2 k) p1 st r)). split; [done |].
  destruct (replay_inv sd R T Hwfd Hrd') as [_ _ Htally Hdef]. simpl in *.
  assert (¬ hasCountedGameIn sd (getAllMatches sd) k) as Hno.
  { unfold hasCountedGameIn. rewrite Exists_exists.
    intros (m & Hm & _ & (mp & Hmp & Hk)%Exists_exists).
    destruct (Hback m mp Hm Hmp) as (_ & _ & k0 & Hk0).
    apply (Hnew k0 mp Hk0). rewrite Hk. apply list_elem_of_fmap. by exists playerInfo. }
  assert (R !! k = Some rating) as HR' by (apply Hdef; [by exists p1 | done]).
  rewrite HR in HR'. injection HR' as ->.
  destruct (Htally k st HT) as ((Hsum & Hw & Hl) & Hiff).
  assert (Stats.totalGames st = 0 ∧ Stats.wins st = 0 ∧ Stats.losses st = 0)
    as (Htg & Hwz & Hlz).
  { assert (¬ 0 < Stats.totalGames st) by (rewrite Hiff; done). lia. }
  rewrite ratingView_updated, Helo, Htg, Hwz, Hlz. done.
Qed.

End LifecycleTheorems.

(** * Validation: hero exclusivity and team sizes *)

Lemma assoc_push h pid u h' :
  assoc h' (heroUsage_push h pid u) =
  if decide (h = h') then Some (default [] (assoc h u) ++ [pid]) else assoc h' u.
Proof.
  induction u as [|[k ps] u IH]; simpl.
  - repeat case_decide; congruence.
  - destruct (decide (k = h)) as [->|Hk]; simpl.
    + repeat case_decide; congruence.
    + rewrite IH. repeat case_decide; congruence.
Qed.

Lemma keys_push h pid u :
  (heroUsage_push h pid u).*1 = if decide (h ∈ u.*1) then u.*1 else u.*1 ++ [h].
Proof.
  induction u as [|[k ps] u IH].
  - destruct (decide (h ∈ [])) as [Hin|Hin]; [by apply elem_of_nil in Hin | done].
  - cbn [heroUsage_push]. destruct (decide (k = h)) as [->|Hk].
    + rewrite !fmap_cons. cbn [fst]. rewrite decide_True; [done | left].
    + rewrite !fmap_cons, IH. cbn [fst].
      destruct (decide (h ∈ u.*1)) as [Hin|Hin].
      * rewrite decide_True; [done | by right].
      * rewrite decide_False; [done |].
        intros [->|?]%elem_of_cons; done.
Qed.

Lemma heroUsage_snoc l p :
  heroUsage (l ++ [p]) =
  heroUsage_push (DBMatchPlayer.heroId p) (DBMatchPlayer.playerId p) (heroUsage l).
Proof. unfold heroUsage. by rewrite foldl_snoc. Qed.

Lemma heroUsage_keys_NoDup l : NoDup (heroUsage l).*1.
Proof.
  induction l as [|p l IH] using rev_ind; [constructor |].
  rewrite heroUsage_snoc, keys_push. case_decide; [done |].
  apply NoDup_app. split_and!; [done | | apply NoDup_singleton].
  intros x Hx ->%list_elem_of_singleton. done.
Qed.

Lemma assoc_heroUsage h l :
  assoc h (heroUsage l) =
  if decide (playersOfHero h l = []) then None else Some (playersOfHero h l).
Proof.
  induction l as [|p l IH] using rev_ind; [done |].
  rewrite heroUsage_snoc, assoc_push. unfold playersOfHero in *.
  rewrite filter_app, fmap_app.
  destruct (decide (DBMatchPlayer.heroId p = h)) as [Hp|Hp].
  - subst h. rewrite filter_cons_True by done. rewrite filter_nil, IH.
    destruct (decide (_ <$> filter _ l = [])) as [Hnil|Hnil].
    + rewrite Hnil. by rewrite decide_False.
    + rewrite decide_False; [done |].
      intros Happ. by apply app_eq_nil in Happ as [_ ?].
  - rewrite filter_cons_False by done. rewrite filter_nil, fmap_nil, app_nil_r.
    exact IH.
Qed.

Lemma assoc_elem_of h ps u : NoDup u.*1 → (h, ps) ∈ u ↔ assoc h u = Some ps.
Proof.
  induction u as [|[k qs] u IH]; simpl; intros Hnd.
  - split; [by intros ?%elem_of_nil | done].
  - apply NoDup_cons in Hnd as [Hk Hnd]. rewrite elem_of_cons, IH by done.
    destruct (decide (k = h)) as [->|Hne].
    + split; [intros [[= ->]|Ha] | intros [= ->]; by left]; [done |].
      exfalso. apply Hk. apply IH in Ha; [|done].
      apply list_elem_of_fmap. by exists (h, ps).
    + split; [intros [[=]|?] | by right]; done.
Qed.

(** The dictionary built by the duplicate-hero pass holds, for every hero
    that occurs, the players of its rows. *)
Lemma heroUsage_spec h ps l :
  (h, ps) ∈ heroUsage l ↔ ps = playersOfHero h l ∧ ps ≠ [].
Proof.
  rewrite assoc_elem_of by apply heroUsage_keys_NoDup.
  rewrite assoc_heroUsage. case_decide as Hnil; split.
  - done.
  - intros [-> ?]; done.
  - intros [= <-]; done.
  - intros [-> _]; done.
Qed.

Lemma heroErrors_elem_of e u :
  e ∈ heroErrors u ↔
  ∃ h ps, (h, ps) ∈ u ∧ (1 < length ps)%nat ∧ e = heroError h ps.
Proof.
  unfold heroErrors. rewrite list_elem_of_In, in_flat_map. split.
  - intros ([h ps] & Hin%list_elem_of_In & He). case_decide; [|by destruct He].
    destruct He as [<-|[]]. eauto.
  - intros (h & ps & Hin & Hlen & ->). exists (h, ps).
    split; [by apply list_elem_of_In |]. rewrite decide_True by done. by left.
Qed.

Lemma filter_none {A} (P : A → Prop) `{∀ x, Decision (P x)} (l : list A) :
  (∀ x, x ∈ l → ¬ P x) → filter P l = [].
Proof.
  induction l as [|x l IH]; [done |]. intros Hl.
  rewrite filter_cons_False by (apply Hl; left).
  apply IH. intros y Hy. apply Hl. by right.
Qed.

Lemma filter_key_NoDup {A} (f : A → Z) (h : Z) (l : list A) :
  NoDup (f <$> l) → (length (filter (λ p, f p = h) l) ≤ 1)%nat.
Proof.
  induction l as [|x l IH]; [simpl; lia |].
  rewrite fmap_cons. intros [Hx Hnd]%NoDup_cons.
  destruct (decide (f x = h)) as [Hh|Hh].
  - rewrite filter_cons_True by done. simpl.
    assert (filter (λ p, f p = h) l = []) as ->; [|simpl; lia].
    apply filter_none. intros y Hy Hfy.
    apply Hx. apply list_elem_of_fmap. exists y. split; [congruence | done].
  - rewrite filter_cons_False by done. by apply IH.
Qed.

Lemma flat_map_nil {A B} (f : A → list B) (l : list A) :
  (∀ x, x ∈ l → f x = []) → flat_map f l = [].
Proof.
  induction l as [|x l IH]; [done |]. intros Hf. simpl.
  rewrite Hf by left. apply IH. intros y Hy. apply Hf. by right.
Qed.

Lemma filter_flat_map_nil {A B} (P : B → Prop) `{∀ x, Decision (P x)}
    (f : A → list B) (l : list A) :
  (∀ x y, y ∈ f x → ¬ P y) → filter P (flat_map f l) = [].
Proof.
  intros Hf. apply filter_none.
  intros y [x [_ Hy]]%list_elem_of_In%in_flat_map.
  apply (Hf x). by apply list_elem_of_In.
Qed.

Section ValidationFacts.
Variable showGameLength : GameLength → string.
Implicit Types (clock : Clock) (matchData : DBMatch) (playersData : list DBMatchPlayer).

Lemma killsWarnings_field matchData p w :
  w ∈ killsWarnings showGameLength matchData p → ValidationError.field w = "kills".
Proof.
  unfold killsWarnings. destruct (DBMatchPlayer.kills p); [|by intros ?%elem_of_nil].
  cbv zeta.
  repeat (match goal with |- context [decide ?P] => destruct (decide P) end);
    intros Hw; try (by apply elem_of_nil in Hw);
    by apply list_elem_of_singleton in Hw as ->.
Qed.

Lemma deathsWarnings_field p w :
  w ∈ deathsWarnings p → ValidationError.field w = "deaths".
Proof.
  unfold deathsWarnings. destruct (DBMatchPlayer.deaths p); [|by intros ?%elem_of_nil].
  case_decide; intros Hw; [|by apply elem_of_nil in Hw].
  by apply list_elem_of_singleton in Hw as ->.
Qed.

Lemma dateWarnings_field clock matchData w :
  w ∈ dateWarnings clock matchData → ValidationError.field w = "date".
Proof.
  unfold dateWarnings. intros [Hw|Hw]%elem_of_app; case_decide;
    try (by apply elem_of_nil in Hw);
    by apply list_elem_of_singleton in Hw as ->.
Qed.

Lemma negativeErrors_field p e :
  e ∈ negativeErrors p → ValidationError.field e ≠ "hero".
Proof.
  unfold negativeErrors, statFields. simpl.
  repeat (match goal with
          | |- context [match ?o with Some _ => _ | None => _ end] => destruct o
          | |- context [decide ?P] => destruct (decide P)
          end; simpl);
    rewrite ?elem_of_cons, elem_of_nil; intros He;
    repeat (destruct He as [->|He]; [done |]); done.
Qed.

Lemma levelErrors_field p e :
  e ∈ levelErrors p → ValidationError.field e ≠ "hero".
Proof.
  unfold levelErrors. destruct (DBMatchPlayer.level p); [|by intros ?%elem_of_nil].
  case_decide; intros He; [|by apply elem_of_nil in He].
  by apply list_elem_of_singleton in He as ->.
Qed.

Lemma negativeErrors_valid p : validFields p → negativeErrors p = [].
Proof.
  intros [Hst _]. unfold negativeErrors. apply flat_map_nil.
  intros [f [v|]] Hin; [|done]. case_decide as Hneg; [|done].
  rewrite Forall_forall in Hst. specialize (Hst _ Hin). simpl in Hst. lia.
Qed.

Lemma levelErrors_valid p : validFields p → levelErrors p = [].
Proof.
  intros [_ Hl]. unfold levelErrors. destruct (DBMatchPlayer.level p) as [l|]; [|done].
  simpl in Hl. case_decide; [lia | done].
Qed.

Lemma heroErrors_NoDup playersData :
  NoDup (DBMatchPlayer.heroId <$> playersData) → heroErrors (heroUsage playersData) = [].
Proof.
  intros Hnd. unfold heroErrors. apply flat_map_nil.
  intros [h ps] [-> _]%heroUsage_spec. rewrite decide_False; [done |].
  unfold playersOfHero. rewrite length_fmap.
  pose proof (filter_key_NoDup DBMatchPlayer.heroId h playersData Hnd). lia.
Qed.
End ValidationFacts.

Section ValidationTheorems.
Variable showGameLength : GameLength → string.
Implicit Types (clock : Clock) (matchData : DBMatch) (playersData : list DBMatchPlayer).

Lemma teamWarnings_eq clock matchData playersData :
  let titans := length (filter (λ p, DBMatchPlayer.team p = Titans) playersData) in
  let atlanteans := length (filter (λ p, DBMatchPlayer.team p = Atlanteans) playersData) in
  teamWarnings (validateMatchEdit showGameLength clock matchData playersData) =
  if decide (Z.abs (Z.of_nat titans - Z.of_nat atlanteans) > 1)
  then [teamSizeWarning titans atlanteans] else [].
Proof.
  intros titans atlanteans. unfold teamWarnings, validateMatchEdit.
  cbn [ValidationResult.warnings]. rewrite !filter_app.
  rewrite (filter_flat_map_nil _ _ playersData); last first.
  { intros p w [Hw|Hw]%elem_of_app.
    - by rewrite (killsWarnings_field _ _ _ _ Hw).
    - by rewrite (deathsWarnings_field _ _ Hw). }
  rewrite (filter_none _ (dateWarnings _ _)); last first.
  { intros w Hw. by rewrite (dateWarnings_field _ _ _ Hw). }
  rewrite !app_nil_r. fold titans atlanteans. by case_decide.
Qed.

Lemma errors_nil clock matchData playersData :
  filter (λ p, DBMatchPlayer.team p = Titans) playersData ≠ [] →
  filter (λ p, DBMatchPlayer.team p = Atlanteans) playersData ≠ [] →
  NoDup (DBMatchPlayer.heroId <$> playersData) →
  Forall validFields playersData →
  ValidationResult.errors (validateMatchEdit showGameLength clock matchData playersData)
  = [].
Proof.
  intros Ht Ha Hnd Hv. unfold validateMatchEdit. cbn [ValidationResult.errors].
  rewrite heroErrors_NoDup by done.
  rewrite (flat_map_nil _ playersData); last first.
  { intros p Hp. rewrite Forall_forall in Hv.
    by rewrite negativeErrors_valid, levelErrors_valid by auto. }
  rewrite !decide_False; [done | by intros ?%nil_length_inv | by intros ?%nil_length_inv].
Qed.

Lemma isValid_errors clock matchData playersData :
  ValidationResult.isValid (validateMatchEdit showGameLength clock matchData playersData)
  = bool_decide
      (ValidationResult.errors
         (validateMatchEdit showGameLength clock matchData playersData) = []).
Proof.
  unfold validateMatchEdit. cbn [ValidationResult.isValid ValidationResult.errors].
  apply bool_decide_ext. split; [apply nil_length_inv | by intros ->].
Qed.

(** C5 (as amended).  A team-size warning is raised exactly when the two
    team sizes differ by more than one, and then exactly once.  A match of
    3 Titans against 2 Atlanteans whose other fields are valid is accepted
    with no team-size warning. *)
Theorem team_size_warning clock matchData playersData :
  let r := validateMatchEdit showGameLength clock matchData playersData in
  let titans := length (filter (λ p, DBMatchPlayer.team p = Titans) playersData) in
  let atlanteans := length (filter (λ p, DBMatchPlayer.team p = Atlanteans) playersData) in
  (teamWarnings r =
     if decide (Z.abs (Z.of_nat titans - Z.of_nat atlanteans) > 1)
     then [teamSizeWarning titans atlanteans] else [])
  ∧ (titans = 3%nat → atlanteans = 2%nat →
     NoDup (DBMatchPlayer.heroId <$> playersData) →
     Forall validFields playersData →
     ValidationResult.isValid r = true ∧ teamWarnings r = []).
Proof.
  intros r titans atlanteans. split; [apply teamWarnings_eq |].
  intros Ht Ha Hnd Hv. split.
  - unfold r. rewrite isValid_errors, errors_nil; try done.
    + fold titans in Ht. intros Hnil. unfold titans in Ht. by rewrite Hnil in Ht.
    + intros Hnil. unfold atlanteans in Ha. by rewrite Hnil in Ha.
  - unfold r. rewrite teamWarnings_eq. fold titans atlanteans.
    rewrite Ht, Ha. done.
Qed.

(** C6.  When a hero is assigned to two or more rows of a match, the match
    is invalid and the errors contain the hero error naming that hero and
    all the players of its rows; when all heroes differ, no error is
    raised on the field "hero". *)
Theorem hero_exclusivity clock matchData playersData :
  let r := validateMatchEdit showGameLength clock matchData playersData in
  (∀ h, (2 ≤ length (filter (λ p, DBMatchPlayer.heroId p = h) playersData))%nat →
     ValidationResult.isValid r = false
     ∧ ValidationError.mk "hero" None
         ("Hero ID " +:+ pretty h +:+ " is assigned to multiple players: "
            +:+ join ", " (playersOfHero h playersData))
         error ∈ ValidationResult.errors r)
  ∧ (NoDup (DBMatchPlayer.heroId <$> playersData) →
     ∀ e, e ∈ ValidationResult.errors r → ValidationError.field e ≠ "hero").
Proof.
  intros r. split.
  - intros h Hh.
    assert (heroError h (playersOfHero h playersData) ∈ ValidationResult.errors r) as He.
    { unfold r, validateMatchEdit. cbn [ValidationResult.errors].
      rewrite !elem_of_app. right. right. left.
      apply heroErrors_elem_of. exists h, (playersOfHero h playersData).
      assert (length (playersOfHero h playersData) ≥ 2)%nat as Hlen.
      { unfold playersOfHero. rewrite length_fmap. lia. }
      split_and!; [| lia | done].
      apply heroUsage_spec. split; [done |].
      destruct (playersOfHero h playersData); [simpl in Hlen; lia | done]. }
    split; [| exact He].
    unfold r. rewrite isValid_errors. apply bool_decide_eq_false.
    intros Hnil. fold r in Hnil. rewrite Hnil in He. by apply elem_of_nil in He.
  - intros Hnd e. unfold r, validateMatchEdit. cbn [ValidationResult.errors].
    rewrite heroErrors_NoDup by done. rewrite !elem_of_app.
    intros [He|[He|[He|He]]].
    + case_decide; [|by apply elem_of_nil in He].
      by apply list_elem_of_singleton in He as ->.
    + case_decide; [|by apply elem_of_nil in He].
      by apply list_elem_of_singleton in He as ->.
    + by apply elem_of_nil in He.
    + apply list_elem_of_In, in_flat_map in He as (p & _ & He).
      apply list_elem_of_In, elem_of_app in He as [He|He].
      * by apply negativeErrors_field in He.
      * by apply levelErrors_field in He.
Qed.
End ValidationTheorems.

(** C5, the claim as stated: the sample match of 3 Titans against 2
    Atlanteans is valid and carries no warning at all, so not exactly one
    warning about team sizes. *)
Lemma three_versus_two_no_warning :
  let r := validateMatchEdit sampleShow sampleClock (sampleMatch 3 2) threeVersusTwo in
  ValidationResult.isValid r = true
  ∧ ValidationResult.warnings r = []
  ∧ length (teamWarnings r) ≠ 1%nat.
Proof. vm_compute. split_and!; [done | done | lia]. Qed.

Example four_versus_two_warning :
  let r := validateMatchEdit sampleShow sampleClock (sampleMatch 4 2) fourVersusTwo in
  ValidationResult.isValid r = true
  ∧ teamWarnings r =
    [ValidationError.mk "teams" None
       "Team sizes are unbalanced (Titans: 4, Atlanteans: 2)" warning].
Proof. by vm_compute. Qed.

Lemma team_size_warning_witness :
  let r := validateMatchEdit sampleShow sampleClock (sampleMatch 3 2) threeVersusTwo in
  ValidationResult.isValid r = true ∧ teamWarnings r = [].
Proof.
  apply (proj2 (team_size_warning sampleShow sampleClock (sampleMatch 3 2) threeVersusTwo)).
  - reflexivity.
  - reflexivity.
  - compute_done.
  - compute_done.
Defined.

Lemma hero_exclusivity_witness :
  let r := validateMatchEdit sampleShow sampleClock (sampleMatch 1 2) sharedHero in
  ValidationResult.isValid r = false
  ∧ ValidationError.mk "hero" None
      "Hero ID 7 is assigned to multiple players: ann, cy" error
    ∈ ValidationResult.errors r.
Proof.
  apply (proj1 (hero_exclusivity sampleShow sampleClock (sampleMatch 1 2) sharedHero) 7).
  vm_compute. lia.
Defined.

(** * Rounding *)





(** * Matchmaking *)

Section SortedFacts.
Context (weight : DBPlayer → Z).
Let cmp (a b : DBPlayer) : Z := weight b - weight a.

Lemma sort_insert_sorted x l :
  StronglySorted (descending weight) l →
  StronglySorted (descending weight) (sort_insert cmp x l).
Proof.
  induction l as [|y l IH]; intros Hl; simpl.
  - repeat constructor.
  - apply StronglySorted_inv in Hl as [Hl Hy]. case_decide as Hc.
    + constructor; [by constructor |]. constructor; [unfold descending, cmp in *; lia |].
      eapply Forall_impl; [exact Hy |]. unfold descending, cmp in *. intros z ?. lia.
    + constructor; [by apply IH |].
      rewrite (sort_insert_perm cmp x l). constructor; [|done].
      unfold descending, cmp in *. lia.
Qed.

Lemma array_sort_sorted l : StronglySorted (descending weight) (array_sort cmp l).
Proof.
  induction l as [|x l IH]; simpl; [constructor | by apply sort_insert_sorted].
Qed.

Lemma weight_injective (l : list DBPlayer) a b :
  NoDup (weight <$> l) → a ∈ l → b ∈ l → weight a = weight b → a = b.
Proof.
  induction l as [|x l IH]; [by intros _ ?%elem_of_nil |].
  rewrite fmap_cons. intros [Hx Hnd]%NoDup_cons Ha Hb Hw.
  apply elem_of_cons in Ha as [->|Ha]; apply elem_of_cons in Hb as [->|Hb].
  - done.
  - exfalso. apply Hx. rewrite Hw. by apply list_elem_of_fmap_2.
  - exfalso. apply Hx. rewrite <- Hw. by apply list_elem_of_fmap_2.
  - by apply IH.
Qed.

(** With pairwise distinct weights there is one descending arrangement. *)
Lemma descending_unique l1 l2 :
  NoDup (weight <$> l1) →
  StronglySorted (descending weight) l1 → StronglySorted (descending weight) l2 →
  l1 ≡ₚ l2 → l1 = l2.
Proof.
  revert l2. induction l1 as [|x l1 IH]; intros l2 Hnd H1 H2 Hp.
  - by apply Permutation_nil_l in Hp.
  - destruct l2 as [|y l2]; [by apply Permutation_nil_r in Hp |].
    apply StronglySorted_inv in H1 as [H1 Hx].
    apply StronglySorted_inv in H2 as [H2 Hy].
    assert (x = y) as ->.
    { apply (weight_injective (x :: l1)); [done | left | by rewrite Hp; left |].
      assert (x ∈ y :: l2) as Hxin by (rewrite <- Hp; left).
      assert (y ∈ x :: l1) as Hyin by (rewrite Hp; left).
      apply elem_of_cons in Hxin as [->|Hxin]; [done |].
      apply elem_of_cons in Hyin as [->|Hyin]; [done |].
      rewrite Forall_forall in Hx, Hy.
      specialize (Hx _ Hyin). specialize (Hy _ Hxin).
      unfold descending in *. lia. }
    f_equal. apply IH; [| done | done | by apply Permutation_cons_inv in Hp].
    rewrite fmap_cons in Hnd. by apply NoDup_cons in Hnd as [_ ?].
Qed.
End SortedFacts.

Section MatchMakingFacts.
Context `{OpenSkill} `{Numerics}.
Import MatchMakingService.

Lemma distribute_from weight (l teamA teamB : list DBPlayer) :
  foldl (λ '(team1, team2) player,
           let team1Skill := foldl (λ sum p, sum + weight p) 0 team1 in
           let team2Skill := foldl (λ sum p, sum + weight p) 0 team2 in
           if decide (team1Skill ≤ team2Skill)
           then (team1 ++ [player], team2)
           else (team1, team2 ++ [player]))
        (teamA, teamB) l
  = greedyBySum weight l teamA teamB
      (foldl (λ sum p, sum + weight p) 0 teamA)
      (foldl (λ sum p, sum + weight p) 0 teamB).
Proof.
  revert teamA teamB. induction l as [|p l IH]; intros teamA teamB; [done |].
  cbn [foldl greedyBySum]. case_decide.
  - rewrite IH. by rewrite foldl_snoc.
  - rewrite IH. by rewrite foldl_snoc.
Qed.

(** The source's loop, which sums both teams afresh for every player, is
    the greedy assignment with running totals. *)
Lemma distribute_greedy weight l :
  distribute weight l = greedyBySum weight l [] [] 0 0.
Proof. unfold distribute. by rewrite distribute_from. Qed.

Lemma greedyBySum_perm weight l teamA teamB sumA sumB :
  (greedyBySum weight l teamA teamB sumA sumB).1
    ++ (greedyBySum weight l teamA teamB sumA sumB).2
  ≡ₚ teamA ++ teamB ++ l.
Proof.
  revert teamA teamB sumA sumB.
  induction l as [|p l IH]; intros teamA teamB sumA sumB; simpl.
  - by rewrite app_nil_r.
  - case_decide; rewrite IH.
    + rewrite <- !app_assoc. simpl. apply Permutation_app_head.
      by rewrite Permutation_middle.
    + rewrite <- !app_assoc. done.
Qed.

Lemma generateBalancedTeams_teams s this playerIds :
  (4 ≤ length (selectPlayers s playerIds))%nat →
  (generateBalancedTeams s this playerIds).1 =
  let sorted :=
    array_sort (λ a b, getDisplayRating b - getDisplayRating a)
               (selectPlayers s playerIds) in
  (DBPlayer.id <$> (greedyBySum getDisplayRating sorted [] [] 0 0).1,
   DBPlayer.id <$> (greedyBySum getDisplayRating sorted [] [] 0 0).2).
Proof.
  intros Hlen. unfold generateBalancedTeams.
  rewrite decide_False by lia. rewrite distribute_greedy.
  by destruct (greedyBySum _ _ _ _ _ _).
Qed.

Lemma generateBalancedTeamsByExperience_teams s playerIds :
  (4 ≤ length (selectPlayers s playerIds))%nat →
  generateBalancedTeamsByExperience s playerIds =
  let sorted :=
    array_sort (λ a b, DBPlayer.totalGames b - DBPlayer.totalGames a)
               (selectPlayers s playerIds) in
  (DBPlayer.id <$> (greedyBySum DBPlayer.totalGames sorted [] [] 0 0).1,
   DBPlayer.id <$> (greedyBySum DBPlayer.totalGames sorted [] [] 0 0).2).
Proof.
  intros Hlen. unfold generateBalancedTeamsByExperience.
  rewrite decide_False by lia. rewrite distribute_greedy.
  by destruct (greedyBySum _ _ _ _ _ _).
Qed.

Lemma selectPlayers_ids_NoDup s playerIds :
  wf_store s → NoDup (DBPlayer.id <$> selectPlayers s playerIds).
Proof.
  intros Hwf. unfold selectPlayers.
  pose proof (getAllPlayers_ids_NoDup s Hwf) as Hnd.
  induction (getAllPlayers s) as [|p l IH]; [constructor |].
  rewrite fmap_cons in Hnd. apply NoDup_cons in Hnd as [Hp Hnd].
  destruct (decide (DBPlayer.id p ∈ playerIds)).
  - rewrite filter_cons_True by done. rewrite fmap_cons. apply NoDup_cons.
    split; [|by apply IH]. intros (q & Hq & [_ Hin]%list_elem_of_filter)%list_elem_of_fmap.
    apply Hp. rewrite Hq. by apply list_elem_of_fmap_2.
  - rewrite filter_cons_False by done. by apply IH.
Qed.

Lemma selectPlayers_ids_elem_of s playerIds k :
  wf_store s →
  k ∈ DBPlayer.id <$> selectPlayers s playerIds ↔
  k ∈ playerIds ∧ is_Some (players s !! k).
Proof.
  intros Hwf. unfold selectPlayers. rewrite list_elem_of_fmap. split.
  - intros (p & -> & [Hin Hp]%list_elem_of_filter). split; [done |].
    apply elem_of_getAllPlayers_ids; [done |]. by apply list_elem_of_fmap_2.
  - intros [Hin [p Hp]]. exists p. pose proof (wf_players _ Hwf _ _ Hp) as Hid.
    split; [done |]. apply list_elem_of_filter. split; [by rewrite Hid |].
    apply elem_of_getAllPlayers. eauto.
Qed.
End MatchMakingFacts.

Section MatchMakingTheorems.
Context `{OpenSkill} `{Numerics}.
Import MatchMakingService.


(** C4.  [generateBalancedTeams] arranges the selected players by display
    rating, highest first, and assigns them greedily by running totals,
    ties to team 1; four players rated 2000, 1800, 1600 and 1400 are split
    into {2000, 1400} and {1800, 1600}. *)
Theorem balance_by_skill s this playerIds :
  let selected := selectPlayers s playerIds in
  let sorted :=
    array_sort (λ a b, getDisplayRating b - getDisplayRating a) selected in
  sorted ≡ₚ selected
  ∧ StronglySorted (λ a b, getDisplayRating b ≤ getDisplayRating a) sorted
  ∧ ((4 ≤ length selected)%nat →
     (generateBalancedTeams s this playerIds).1 =
     (DBPlayer.id <$> (greedyBySum getDisplayRating sorted [] [] 0 0).1,
      DBPlayer.id <$> (greedyBySum getDisplayRating sorted [] [] 0 0).2))
  ∧ (∀ p1 p2 p3 p4,
       selected ≡ₚ [p1; p2; p3; p4] →
       getDisplayRating p1 = 2000 → getDisplayRating p2 = 1800 →
       getDisplayRating p3 = 1600 → getDisplayRating p4 = 1400 →
       (generateBalancedTeams s this playerIds).1 =
       ([DBPlayer.id p1; DBPlayer.id p4], [DBPlayer.id p2; DBPlayer.id p3])).
Proof.
  intros selected sorted.
  assert (sorted ≡ₚ selected) as Hperm by apply array_sort_perm.
  assert (StronglySorted (descending getDisplayRating) sorted) as Hsorted
    by apply array_sort_sorted.
  split_and!; [done | done | by apply generateBalancedTeams_teams |].
  intros p1 p2 p3 p4 Hsel H1 H2 H3 H4.
  assert (sorted = [p1; p2; p3; p4]) as Heq.
  { apply (descending_unique getDisplayRating); [| done | | by rewrite Hperm].
    - rewrite Hperm, Hsel. simpl. rewrite H1, H2, H3, H4. compute_done.
    - unfold descending. repeat constructor; lia. }
  rewrite generateBalancedTeams_teams by (unfold selected in Hsel; by rewrite Hsel).
  fold selected sorted. rewrite Heq. cbn [greedyBySum].
  rewrite ?H1, ?H2, ?H3, ?H4. done.
Qed.

(** C10 (as amended).  When the list selects at least four stored players,
    either balancing function returns every selected player on one of its
    two teams, once, and nobody else; when it selects fewer than four,
    both teams are empty.  A list of distinct stored ids selects as many
    players as it has entries. *)
Theorem balance_partition s this playerIds :
  wf_store s →
  let selected := selectPlayers s playerIds in
  let skill := (generateBalancedTeams s this playerIds).1 in
  let experience := generateBalancedTeamsByExperience s playerIds in
  ((4 ≤ length selected)%nat →
     skill.1 ++ skill.2 ≡ₚ DBPlayer.id <$> selected
     ∧ experience.1 ++ experience.2 ≡ₚ DBPlayer.id <$> selected)
  ∧ NoDup (DBPlayer.id <$> selected)
  ∧ (∀ k, k ∈ DBPlayer.id <$> selected ↔ k ∈ playerIds ∧ is_Some (players s !! k))
  ∧ (NoDup playerIds → Forall (λ k, is_Some (players s !! k)) playerIds →
     DBPlayer.id <$> selected ≡ₚ playerIds)
  ∧ ((length selected < 4)%nat → skill = ([], []) ∧ experience = ([], [])).
Proof.
  intros Hwf selected skill experience.
  pose proof (selectPlayers_ids_NoDup s playerIds Hwf) as Hnd.
  split_and!; [| done | intros k; by apply selectPlayers_ids_elem_of | |].
  - intros Hlen. unfold skill, experience.
    rewrite generateBalancedTeams_teams, generateBalancedTeamsByExperience_teams by done.
    cbv zeta. cbn [fst snd]. rewrite <- !fmap_app, !greedyBySum_perm.
    cbn [app]. by rewrite !array_sort_perm.
  - intros Hids Hall. apply NoDup_Permutation; [done | done |].
    intros k. unfold selected. rewrite selectPlayers_ids_elem_of by done.
    rewrite Forall_forall in Hall. split; [tauto |]. intros Hk. split; [done | auto].
  - intros Hlen. unfold skill, experience, generateBalancedTeams,
      generateBalancedTeamsByExperience.
    fold selected. by rewrite !decide_True by done.
Qed.
End MatchMakingTheorems.

(** * The store invariant *)

(** [wf_store] holds of the empty store and is kept by the operations that
    write: it holds of every store they can reach. *)
Section StoreInvariant.
Context `{OpenSkill} `{Device}.
Variable showGameLength : GameLength → string.

Lemma emptyStore_wf : wf_store emptyStore.
Proof. split; intros k x Hk; simpl in Hk; by rewrite lookup_empty in Hk. Qed.

Lemma recordMatch_wf clock created today matchUuid rowUuid stats0 matchData
    playerData s r :
  wf_store s →
  MatchService.recordMatch showGameLength clock created today matchUuid rowUuid stats0
    matchData playerData s = Some r →
  wf_store r.2.2.
Proof.
  intros Hwf. unfold MatchService.recordMatch. destruct (negb _); [done |].
  destruct (FirebaseStatsService.recalculatePlayerStats _ _ _) as [[st1 s1]|] eqn:Hrec;
    [|done].
  simpl. intros [= <-]. simpl.
  eapply recalculatePlayerStats_wf; [|exact Hrec].
  apply persistMatch_facts. done.
Qed.

Lemma deleteMatch_wf today stats0 matchId s r :
  wf_store s →
  MatchService.deleteMatch today stats0 matchId s = Some r →
  wf_store r.2.
Proof.
  intros Hwf. unfold MatchService.deleteMatch. destruct (getMatch s matchId); [|done].
  destruct r as [st1 s1]. intros Hrec. simpl.
  eapply recalculatePlayerStats_wf; [|exact Hrec].
  apply deleteMatchAndPlayers_facts. done.
Qed.
End StoreInvariant.

(** * Witnesses and counterexamples *)

(** The 2 v 2 match of [sampleStore], won by the Titans: a win for "ann",
    a loss for "cy", no game for "zed". *)
Example sample_recalculation_tallies :
  (λ p, (DBPlayer.totalGames p, DBPlayer.wins p, DBPlayer.losses p))
    <$> players sampleRecalculated.2 !! "ann" = Some (1, 1, 0)
  ∧ (λ p, (DBPlayer.totalGames p, DBPlayer.wins p, DBPlayer.losses p))
      <$> players sampleRecalculated.2 !! "cy" = Some (1, 0, 1)
  ∧ (λ p, (DBPlayer.totalGames p, DBPlayer.wins p, DBPlayer.losses p))
      <$> players sampleRecalculated.2 !! "zed" = Some (0, 0, 0).
Proof. by vm_compute. Qed.

Lemma replay_determinism_witness :
  ∃ this2 s2,
    FirebaseStatsService.recalculatePlayerStats (λ _, 1699000009000) sampleService
      sampleRecalculated.2 = Some (this2, s2)
    ∧ ∀ k, ratingView <$> players s2 !! k
           = ratingView <$> players sampleRecalculated.2 !! k.
Proof.
  apply (replay_determinism (λ _, 1699000001000) (λ _, 1699000009000)
           sampleService sampleService sampleStore sampleRecalculated.1).
  - compute_done.
  - vm_compute. reflexivity.
Defined.

Lemma tally_invariant_witness :
  ∃ p, players sampleRecalculated.2 !! "ann" = Some p
       ∧ DBPlayer.wins p + DBPlayer.losses p = DBPlayer.totalGames p.
Proof.
  destruct (players sampleRecalculated.2 !! "ann") as [p|] eqn:Hp;
    [|vm_compute in Hp; discriminate].
  exists p. split; [reflexivity |].
  apply (tally_invariant (λ _, 1699000001000) sampleService sampleStore
           sampleRecalculated.1 sampleRecalculated.2
           ltac:(compute_done) ltac:(vm_compute; reflexivity) "ann" p Hp).
Defined.

Lemma recalculation_frame_witness :
  ∃ p', players sampleRecalculated.2 !! "zed" = Some p'
    ∧ DBPlayer.id p' = "zed" ∧ DBPlayer.name p' = "Zed"
    ∧ DBPlayer.dateCreated p' = 1600000000000
    ∧ (¬ hasCountedGame sampleStore "zed" →
         DBPlayer.mu p' = Some 25%Q ∧ DBPlayer.sigma p' = Some (25 # 3)
         ∧ DBPlayer.ordinal p' = Some (25 - 3 * (25 # 3))%Q
         ∧ DBPlayer.lastPlayed p' = 1600000000000)
    ∧ (hasCountedGame sampleStore "zed" → DBPlayer.lastPlayed p' = 1699000001000).
Proof.
  apply (recalculation_frame (λ _, 1699000001000) sampleService sampleStore
           sampleRecalculated.1 sampleRecalculated.2
           ltac:(compute_done) ltac:(vm_compute; reflexivity) "zed"
           (newPlayer 1600000000000 "zed" "Zed")).
  vm_compute. reflexivity.
Defined.

Lemma record_delete_roundtrip_witness :
  ∃ stats2 s2,
    MatchService.deleteMatch (λ _, 1699100009000) sampleService "m-2"
      sampleRecorded.2.2 = Some (stats2, s2)
    ∧ ∀ playerInfo, playerInfo ∈ rematchPlayerData →
        ∃ p, players s2 !! PlayerInfo.id playerInfo = Some p
          ∧ ratingView p =
            (Some (Rating.mu rating), Some (Rating.sigma rating),
             Some (ordinal rating), INITIAL_ELO, 0, 0, 0).
Proof.
  apply (record_delete_roundtrip sampleShow sampleClock (λ _, 1699100000500)
           (λ _, 1699100001000) (λ _, 1699100009000) "m-2" (sampleRowUuid "rematch-")
           sampleService sampleService sampleMatchData rematchPlayerData sampleStore
           "m-2" sampleRecorded.2.1 sampleRecorded.2.2).
  - compute_done.
  - change (map_Forall (λ _ mp, DBMatchPlayer.playerId mp
                                ∉ PlayerInfo.id <$> rematchPlayerData)
                       (matchPlayers sampleStore)).
    compute_done.
  - vm_compute. reflexivity.
  - vm_compute. reflexivity.
Defined.



Lemma balance_by_skill_witness :
  (MatchMakingService.generateBalancedTeams ratedStore sampleMatchMaking
     ["kim"; "lou"; "max"; "nat"]).1 = (["lou"; "kim"], ["nat"; "max"]).
Proof.
  apply (proj2 (proj2 (proj2
           (balance_by_skill ratedStore sampleMatchMaking ["kim"; "lou"; "max"; "nat"])))
           (ratedPlayer "lou" 9 20) (ratedPlayer "nat" 4 15)
           (ratedPlayer "max" 1 10) (ratedPlayer "kim" 3 5)).
  - compute_done.
  - reflexivity.
  - reflexivity.
  - reflexivity.
  - reflexivity.
Defined.

(** C10, the claim as stated: four ids that all resolve to stored players,
    one of them twice, select three players; both teams come back empty and
    the selected player "ann" is on neither. *)
Lemma balance_repeated_id :
  let playerIds := ["ann"; "ann"; "bob"; "cy"] in
  let teams := (MatchMakingService.generateBalancedTeams sampleStore sampleMatchMaking
                  playerIds).1 in
  (4 ≤ length playerIds)%nat
  ∧ Forall (λ k, is_Some (players sampleStore !! k)) playerIds
  ∧ teams = ([], [])
  ∧ MatchMakingService.generateBalancedTeamsByExperience sampleStore playerIds = ([], [])
  ∧ "ann" ∉ teams.1 ++ teams.2.
Proof.
  split_and!; [simpl; lia | compute_done | by vm_compute | by vm_compute |].
  vm_compute. by intros ?%elem_of_nil.
Qed.

Lemma balance_partition_witness :
  let playerIds := ["ann"; "bob"; "cy"; "dee"] in
  let skill := (MatchMakingService.generateBalancedTeams sampleStore sampleMatchMaking
                  playerIds).1 in
  skill.1 ++ skill.2 ≡ₚ DBPlayer.id <$> MatchMakingService.selectPlayers sampleStore playerIds
  ∧ DBPlayer.id <$> MatchMakingService.selectPlayers sampleStore playerIds ≡ₚ playerIds.
Proof.
  intros playerIds skill.
  destruct (balance_partition sampleStore sampleMatchMaking playerIds ltac:(compute_done))
    as (Hteams & _ & _ & Hids & _).
  split.
  - apply Hteams. vm_compute. lia.
  - apply Hids; compute_done.
Defined.

(** * Identifiers *)

Section UuidFacts.
Variable Math_random : nat → Q.
Hypothesis Math_random_range : ∀ i, (0 <= Math_random i)%Q ∧ (Math_random i < 1)%Q.

Lemma toInt32_nibble (q : Q) :
  (0 <= q)%Q → (q < 1)%Q → 0 ≤ toInt32 (q * 16) < 16.
Proof.
  intros H0 H1. unfold toInt32.
  assert (0 <= q * 16)%Q as Hl by lra.
  assert (q * 16 < 16)%Q as Hu by lra.
  set (x := (q * 16)%Q) in *. clearbody x.
  assert (0 ≤ Qnum x) as Hnum.
  { unfold Qle in Hl. simpl in Hl. lia. }
  rewrite Z.quot_div_nonneg by lia.
  replace (Qnum x / Z.pos (Qden x)) with (Qfloor x) by by destruct x.
  assert (0 ≤ Qfloor x) as Hf0.
  { change 0 with (Qfloor 0). by apply Qfloor_resp_le. }
  assert (Qfloor x < 16) as Hf16.
  { destruct (decide (Qfloor x < 16)) as [|Hge]; [done | exfalso].
    assert (16 <= x)%Q; [| lra].
    eapply Qle_trans; [| apply Qfloor_le].
    change 16%Q with (inject_Z 16). rewrite <- Zle_Qle. lia. }
  rewrite Z.mod_small by lia. lia.
Qed.

Lemma hexDigit_isHexDigit v : 0 ≤ v < 16 → isHexDigit (hexDigit v).
Proof.
  intros Hv. unfold isHexDigit, hexDigit.
  destruct (lookup_lt_is_Some_2 (String.list_ascii_of_string "0123456789abcdef")
              (Z.to_nat v)) as [c Hc].
  { simpl. lia. }
  rewrite Hc. simpl. by eapply list_elem_of_lookup_2.
Qed.

Lemma toString16_digit v :
  0 ≤ v < 16 → toString16 v = String (hexDigit v) EmptyString.
Proof.
  intros Hv. unfold toString16. destruct (decide (v < 0)); [lia |].
  simpl. destruct (decide (v < 16)); [| lia].
  by rewrite Z.mod_small by lia.
Qed.

Lemma variant_range r : 0 ≤ r < 16 → 8 ≤ Z.lor (Z.land r 3) 8 < 12.
Proof.
  intros Hr.
  assert (r ∈ (Z.of_nat <$> seq 0 16)) as Hin.
  { apply list_elem_of_fmap. exists (Z.to_nat r). split; [lia |].
    apply list_elem_of_In, in_seq. lia. }
  simpl in Hin. repeat (apply elem_of_cons in Hin as [-> | Hin]; [by vm_compute |]).
  by apply elem_of_nil in Hin.
Qed.

Lemma hexDigit_variant v :
  8 ≤ v < 12 → hexDigit v ∈ String.list_ascii_of_string "89ab".
Proof.
  intros Hv.
  assert (v = 8 ∨ v = 9 ∨ v = 10 ∨ v = 11) as [-> | [-> | [-> | ->]]] by lia;
    vm_compute; repeat constructor.
Qed.

Lemma replacement_shape c i :
  c = "x"%char ∨ c = "y"%char →
  ∃ d, utils.replacement c (Math_random i) = String d EmptyString
       ∧ matchesTemplate c d.
Proof.
  intros Hc. destruct (Math_random_range i) as [H0 H1].
  pose proof (toInt32_nibble _ H0 H1) as Hr.
  unfold utils.replacement, matchesTemplate. cbv zeta.
  destruct (decide (c = "x"%char)) as [-> | Hx].
  - eexists. split; [by apply toString16_digit |]. by apply hexDigit_isHexDigit.
  - destruct Hc as [-> | ->]; [done |]. simpl.
    pose proof (variant_range _ Hr) as Hv.
    eexists. split; [apply toString16_digit; lia |]. by apply hexDigit_variant.
Qed.

Lemma replaceXY_shape template i :
  Forall2 matchesTemplate (String.list_ascii_of_string template)
    (String.list_ascii_of_string (utils.replaceXY Math_random template i)).
Proof.
  revert i. induction template as [| c rest IH]; intros i; simpl; [constructor |].
  destruct (decide _) as [Hc | Hc].
  - destruct (replacement_shape c i Hc) as (d & -> & Hd). simpl.
    constructor; [done | apply IH].
  - simpl. constructor; [| apply IH].
    unfold matchesTemplate. repeat case_decide; tauto.
Qed.

(** X1.  Whatever [Math.random] returns within its range, [generateUUID]
    returns a string of the shape of its template: the same length, the
    hyphens and the version digit 4 in place, a lower-case hexadecimal
    digit for every [x], and one of 8, 9, a, b for the [y]. *)
Theorem generateUUID_shape : uuidShape (utils.generateUUID Math_random).
Proof. apply replaceXY_shape. Qed.
End UuidFacts.

(** X2.  [getDeviceId] is stable: the identifier it returns is not empty
    and is in the storage afterwards, so that every later call returns the
    same identifier and leaves the storage as it is, whatever the clock and
    [Math.random] then give. *)
Theorem getDeviceId_stable timestamp randomPart timestamp' randomPart'
    (localStorage : gmap string string) :
  let r := utils.getDeviceId timestamp randomPart localStorage in
  r.1 ≠ ""
  ∧ r.2 !! utils.storageKey = Some r.1
  ∧ utils.getDeviceId timestamp' randomPart' r.2 = r
  ∧ (∀ deviceId, localStorage !! utils.storageKey = Some deviceId → deviceId ≠ "" →
       r = (deviceId, localStorage)).
Proof.
  assert (∀ deviceId (ls : gmap string string),
            ls !! utils.storageKey = Some deviceId → deviceId ≠ "" →
            ∀ t p, utils.getDeviceId t p ls = (deviceId, ls)) as Hkeep.
  { intros deviceId ls Hl Hne t p. unfold utils.getDeviceId. rewrite Hl.
    by destruct (decide (deviceId = "")). }
  assert (∀ t p (ls : gmap string string),
            let d := "device_" +:+ t +:+ "_" +:+ p in
            d ≠ "" ∧ <[utils.storageKey := d]> ls !! utils.storageKey = Some d) as Hgen.
  { intros t p ls. split; [done | apply lookup_insert_eq]. }
  intros r. unfold r, utils.getDeviceId. cbv zeta.
  destruct (localStorage !! utils.storageKey) as [deviceId |] eqn:Hl.
  - destruct (decide (deviceId = "")) as [-> | Hne]; simpl.
    + destruct (Hgen timestamp randomPart localStorage) as [Hd Hs].
      split_and!; [done | done | by apply Hkeep |].
      intros d [= <-]. done.
    + split_and!; [done | done | by apply Hkeep |].
      by intros d [= <-] _.
  - simpl. destruct (Hgen timestamp randomPart localStorage) as [Hd Hs].
    split_and!; [done | done | by apply Hkeep | done].
Qed.

(** * Deleting players *)

Section DeletePlayerFacts.
Context `{OpenSkill} `{Device}.
Import FirebaseStatsService.

Lemma withDeviceId_totalGames p :
  DBPlayer.totalGames (withDeviceId p) = DBPlayer.totalGames p.
Proof. unfold withDeviceId. by destruct (falsy _). Qed.

Lemma deletePlayer_true playerId s :
  (deletePlayer playerId s).1 = true ↔
  ∃ player, players s !! playerId = Some player ∧ DBPlayer.totalGames player = 0.
Proof.
  unfold deletePlayer, getPlayer.
  destruct (players s !! playerId) as [player |]; simpl.
  - destruct (decide (DBPlayer.totalGames player ≠ 0)) as [Hne | Heq]; simpl.
    + split; [done |]. by intros (? & [= <-] & ?).
    + split; [| done]. intros _. exists player. split; [done | lia].
  - split; [done |]. by intros (? & ? & ?).
Qed.

Lemma deletePlayer_store playerId s :
  (deletePlayer playerId s).2 =
  if (deletePlayer playerId s).1 then set_players (delete playerId) s else s.
Proof.
  unfold deletePlayer, getPlayer.
  destruct (players s !! playerId) as [player |]; [| done].
  by destruct (decide (DBPlayer.totalGames player ≠ 0)).
Qed.

Lemma delete_player_wf playerId s : wf_store s → wf_store (set_players (delete playerId) s).
Proof.
  intros [Hp Hm Hr]. split; simpl; [| done | done].
  intros k p Hk. apply lookup_delete_Some in Hk as [_ Hk]. by apply Hp.
Qed.

Lemma getMatchPlayers_ext s1 s2 matchId :
  matchPlayers s1 = matchPlayers s2 → getMatchPlayers s1 matchId = getMatchPlayers s2 matchId.
Proof. unfold getMatchPlayers. by intros ->. Qed.

Lemma getAllMatches_ext s1 s2 : matches s1 = matches s2 → getAllMatches s1 = getAllMatches s2.
Proof. unfold getAllMatches. by intros ->. Qed.

Lemma counted_ext s1 s2 m :
  matchPlayers s1 = matchPlayers s2 → counted s1 m ↔ counted s2 m.
Proof. intros Heq. unfold counted. by rewrite (getMatchPlayers_ext s1 s2 _ Heq). Qed.

(** X3.  In a store whose records are keyed by their ids, [deletePlayer]
    accepts exactly the players that [getPlayersWithNoGames] lists, and a
    refused deletion leaves the store as it is. *)
Theorem no_games_deletable s playerId :
  wf_store s →
  ((deletePlayer playerId s).1 = true ↔
     playerId ∈ DBPlayer.id <$> getPlayersWithNoGames s)
  ∧ ((deletePlayer playerId s).1 = false → (deletePlayer playerId s).2 = s).
Proof.
  intros Hwf. split.
  - rewrite deletePlayer_true. unfold getPlayersWithNoGames. split.
    + intros (player & Hk & Hz). apply list_elem_of_fmap. exists player.
      split; [symmetry; by eapply wf_players |].
      apply list_elem_of_filter. split; [done |]. apply elem_of_getAllPlayers. eauto.
    + intros (player & -> & Hin)%list_elem_of_fmap.
      apply list_elem_of_filter in Hin as [Hz Hin].
      apply elem_of_getAllPlayers in Hin as [k Hk].
      exists player. split; [| done].
      by rewrite (wf_players s Hwf k player Hk).
  - intros Hf. by rewrite deletePlayer_store, Hf.
Qed.

(** X4.  After a recalculation, [deletePlayer] accepts a player exactly when
    the player is stored and has no row in a counted match; the deletion
    removes that player alone, keeps every match and row, and the next
    recalculation does not throw. *)
Theorem delete_after_recalculation today today' this this' s this1 s1 playerId :
  wf_store s →
  recalculatePlayerStats today this s = Some (this1, s1) →
  let r := deletePlayer playerId s1 in
  (r.1 = true ↔ is_Some (players s !! playerId) ∧ ¬ hasCountedGame s playerId)
  ∧ (r.1 = true →
       players r.2 = delete playerId (players s1)
       ∧ matches r.2 = matches s ∧ matchPlayers r.2 = matchPlayers s
       ∧ is_Some (recalculatePlayerStats today' this' r.2)).
Proof.
  intros Hwf Hrec r.
  destruct (recalculatePlayerStats_inv _ _ _ _ _ Hrec) as (R & T & Hreplay & ->).
  destruct (recalculatePlayerStats_Some today this s R T Hwf Hreplay)
    as (s1' & Hrec' & Hm & Hr & Hnone & Hsome).
  rewrite Hrec in Hrec'. injection Hrec' as <-.
  pose proof (replay_inv s R T Hwf Hreplay) as Hinv.
  assert (r.1 = true ↔ is_Some (players s !! playerId) ∧ ¬ hasCountedGame s playerId)
    as Hiff.
  { unfold r. rewrite deletePlayer_true. split.
    - intros (player & Hk & Hz).
      destruct (players s !! playerId) as [p |] eqn:Hp.
      + split; [by eexists |].
        destruct (Hsome _ _ Hp) as (st & rt & HT & _ & Hk').
        rewrite Hk in Hk'. injection Hk' as ->.
        rewrite withDeviceId_totalGames in Hz. simpl in Hz.
        destruct (inv_tally _ _ _ _ Hinv playerId st HT) as [_ Hcnt].
        intros Hc. apply Hcnt in Hc. simpl in Hz. lia.
      + by rewrite (Hnone _ Hp) in Hk.
    - intros [[p Hp] Hnc].
      destruct (Hsome _ _ Hp) as (st & rt & HT & _ & Hk').
      eexists. split; [exact Hk' |]. rewrite withDeviceId_totalGames. simpl.
      destruct (inv_tally _ _ _ _ Hinv playerId st HT) as [(Hsum & Hw & Hl) Hcnt].
      destruct (decide (0 < Stats.totalGames st)) as [Hpos | ?]; [| lia].
      by apply Hcnt in Hpos. }
  split; [exact Hiff |]. intros Htrue.
  assert (r.2 = set_players (delete playerId) s1) as Hr2.
  { unfold r in *. by rewrite deletePlayer_store, Htrue. }
  rewrite Hr2. simpl. split_and!; [done | done | done |].
  apply Hiff in Htrue as [_ Hnc].
  pose proof (recalculatePlayerStats_wf _ _ _ _ _ Hwf Hrec) as Hwf1.
  pose proof (delete_player_wf playerId s1 Hwf1) as Hwf2.
  set (s2 := set_players (delete playerId) s1) in *.
  assert (is_Some (replay s2)) as [[R2 T2] Hreplay2].
  { apply replay_is_Some; [done |]. intros m Hin Hcounted mp Hmp.
    assert (matchPlayers s2 = matchPlayers s) as Hrows by done.
    assert (getAllMatches s2 = getAllMatches s) as Hms.
    { apply getAllMatches_ext. done. }
    rewrite Hms in Hin. rewrite (counted_ext s2 s m Hrows) in Hcounted.
    rewrite (getMatchPlayers_ext s2 s _ Hrows) in Hmp.
    assert (is_Some (replay s)) as Hok by (rewrite Hreplay; by eexists).
    destruct (proj1 (replay_is_Some s Hwf) Hok m Hin Hcounted mp Hmp) as [p Hp].
    destruct (Hsome _ _ Hp) as (st & rt & _ & _ & Hk').
    unfold s2. simpl. rewrite lookup_delete_ne; [by eexists |].
    intros Heq. apply Hnc. apply Exists_exists. exists m. split; [done |].
    split; [done |]. apply Exists_exists. exists mp. split; [done | done]. }
  destruct (recalculatePlayerStats_Some today' this' s2 R2 T2 Hwf2 Hreplay2)
    as (s3 & -> & _). by eexists.
Qed.
End DeletePlayerFacts.

(** * Validation: what is accepted *)

Section ValidationAccepts.
Variable showGameLength : GameLength → string.
Implicit Types (clock : Clock) (matchData : DBMatch) (playersData : list DBMatchPlayer).

Lemma NoDup_filter_key {A} (f : A → Z) (l : list A) :
  (∀ h, (length (filter (λ p, f p = h) l) ≤ 1)%nat) → NoDup (f <$> l).
Proof.
  induction l as [| x l IH]; intros Hle; [constructor |].
  rewrite fmap_cons. constructor.
  - intros (y & Hxy & Hy)%list_elem_of_fmap.
    specialize (Hle (f x)). rewrite filter_cons_True in Hle by done.
    assert (y ∈ filter (λ p, f p = f x) l) as Hin.
    { apply list_elem_of_filter. by split. }
    destruct (filter (λ p, f p = f x) l); [by apply elem_of_nil in Hin |].
    simpl in Hle. lia.
  - apply IH. intros h. specialize (Hle h).
    destruct (decide (f x = h)) as [Heq | Hne].
    + rewrite filter_cons_True in Hle by done. simpl in Hle. lia.
    + by rewrite filter_cons_False in Hle by done.
Qed.

Lemma heroErrors_nil_NoDup playersData :
  heroErrors (heroUsage playersData) = [] → NoDup (DBMatchPlayer.heroId <$> playersData).
Proof.
  intros Hnil. apply NoDup_filter_key. intros h.
  destruct (decide (length (filter (λ p, DBMatchPlayer.heroId p = h) playersData) ≤ 1)%nat)
    as [| Hgt]; [done | exfalso].
  assert (heroError h (playersOfHero h playersData) ∈ heroErrors (heroUsage playersData))
    as Hin.
  { apply heroErrors_elem_of. exists h, (playersOfHero h playersData).
    assert (1 < length (playersOfHero h playersData))%nat as Hlen.
    { unfold playersOfHero. rewrite length_fmap. lia. }
    split_and!; [| done | done].
    apply heroUsage_spec. split; [done |]. intros Heq. rewrite Heq in Hlen. simpl in Hlen. lia. }
  rewrite Hnil in Hin. by apply elem_of_nil in Hin.
Qed.

Lemma negativeErrors_nil p : negativeErrors p = [] → Forall (λ fv, nonNegative fv.2) (statFields p).
Proof.
  unfold negativeErrors. intros Hnil. apply Forall_forall. intros [f [v |]] Hin; [| done].
  simpl. destruct (decide (v < 0)) as [Hneg | ?]; [exfalso | lia].
  assert (ValidationError.mk f (Some (DBMatchPlayer.playerId p))
            (f +:+ " cannot be negative") error ∈ ([] : list ValidationError)) as Hbad;
    [| by apply elem_of_nil in Hbad].
  rewrite <- Hnil. apply list_elem_of_In, in_flat_map. exists (f, Some v).
  split; [by apply list_elem_of_In |]. rewrite decide_True by done. by left.
Qed.

Lemma levelErrors_nil p : levelErrors p = [] → levelInRange (DBMatchPlayer.level p).
Proof.
  unfold levelErrors, levelInRange. destruct (DBMatchPlayer.level p) as [l |]; [| done].
  case_decide; [done | lia].
Qed.

Lemma flat_map_nil_inv {A B} (f : A → list B) (l : list A) :
  flat_map f l = [] → ∀ x, x ∈ l → f x = [].
Proof.
  induction l as [| y l IH]; simpl; intros Hnil x Hx; [by apply elem_of_nil in Hx |].
  apply app_eq_nil in Hnil as [Hy Hl].
  apply elem_of_cons in Hx as [-> | Hx]; [done | by apply IH].
Qed.

Lemma validateMatchEdit_isValid clock matchData playersData :
  ValidationResult.isValid (validateMatchEdit showGameLength clock matchData playersData)
    = true
  ↔ filter (λ p, DBMatchPlayer.team p = Titans) playersData ≠ []
    ∧ filter (λ p, DBMatchPlayer.team p = Atlanteans) playersData ≠ []
    ∧ NoDup (DBMatchPlayer.heroId <$> playersData)
    ∧ Forall validFields playersData.
Proof.
  rewrite isValid_errors, bool_decide_eq_true. split.
  - unfold validateMatchEdit. cbn [ValidationResult.errors]. intros Hnil.
    apply app_eq_nil in Hnil as [Ht Hnil]. apply app_eq_nil in Hnil as [Ha Hnil].
    apply app_eq_nil in Hnil as [Hh Hf].
    split_and!.
    + intros Heq. rewrite Heq in Ht. by rewrite decide_True in Ht.
    + intros Heq. rewrite Heq in Ha. by rewrite decide_True in Ha.
    + by apply heroErrors_nil_NoDup.
    + apply Forall_forall. intros p Hp.
      pose proof (flat_map_nil_inv _ _ Hf p Hp) as Hp'.
      apply app_eq_nil in Hp' as [Hn Hl].
      split; [by apply negativeErrors_nil | by apply levelErrors_nil].
  - intros (Ht & Ha & Hnd & Hv). by apply errors_nil.
Qed.

(** X5.  [validateMatchEdit] accepts exactly the rows in which both teams
    have a player, no hero is used twice, no counter is negative and every
    level lies within 1..10: the match record and the clock have no say
    in it. *)
Theorem validation_accepts clock matchData playersData :
  ValidationResult.isValid (validateMatchEdit showGameLength clock matchData playersData)
    = true
  ↔ filter (λ p, DBMatchPlayer.team p = Titans) playersData ≠ []
    ∧ filter (λ p, DBMatchPlayer.team p = Atlanteans) playersData ≠ []
    ∧ NoDup (DBMatchPlayer.heroId <$> playersData)
    ∧ Forall validFields playersData.
Proof. apply validateMatchEdit_isValid. Qed.

Lemma in_flat_map_elem_of {A B} (f : A → list B) (l : list A) (y : B) :
  y ∈ flat_map f l ↔ ∃ x, x ∈ l ∧ y ∈ f x.
Proof.
  rewrite list_elem_of_In, in_flat_map. split; intros (x & Hx & Hy); exists x;
    by rewrite ?list_elem_of_In in *.
Qed.

(** X6.  Every entry of [errors] has severity [error] and every entry of
    [warnings] has severity [warning]. *)
Theorem validation_severity clock matchData playersData :
  let r := validateMatchEdit showGameLength clock matchData playersData in
  Forall (λ e, ValidationError.severity e = error) (ValidationResult.errors r)
  ∧ Forall (λ w, ValidationError.severity w = warning) (ValidationResult.warnings r).
Proof.
  intros r. unfold r, validateMatchEdit.
  cbn [ValidationResult.errors ValidationResult.warnings]. split.
  - apply Forall_app_2; [| apply Forall_app_2; [| apply Forall_app_2]].
    + case_decide; repeat constructor.
    + case_decide; repeat constructor.
    + apply Forall_forall. intros e (h & ps & _ & _ & ->)%heroErrors_elem_of. done.
    + apply Forall_forall. intros e (p & _ & He)%in_flat_map_elem_of.
      apply elem_of_app in He as [He | He].
      * unfold negativeErrors in He. apply in_flat_map_elem_of in He as ([f [v |]] & _ & He);
          [| by apply elem_of_nil in He].
        case_decide; [| by apply elem_of_nil in He].
        by apply list_elem_of_singleton in He as ->.
      * unfold levelErrors in He. destruct (DBMatchPlayer.level p); [| by apply elem_of_nil in He].
        case_decide; [| by apply elem_of_nil in He].
        by apply list_elem_of_singleton in He as ->.
  - apply Forall_app_2; [| apply Forall_app_2].
    + case_decide; repeat constructor.
    + apply Forall_forall. intros w (p & _ & Hw)%in_flat_map_elem_of.
      apply elem_of_app in Hw as [Hw | Hw].
      * unfold killsWarnings in Hw. destruct (DBMatchPlayer.kills p); [| by apply elem_of_nil in Hw].
        cbv zeta in Hw.
        repeat (match type of Hw with context [decide ?P] => destruct (decide P) end);
          try (by apply elem_of_nil in Hw);
          by apply list_elem_of_singleton in Hw as ->.
      * unfold deathsWarnings in Hw. destruct (DBMatchPlayer.deaths p); [| by apply elem_of_nil in Hw].
        case_decide; [| by apply elem_of_nil in Hw].
        by apply list_elem_of_singleton in Hw as ->.
    + unfold dateWarnings. apply Forall_app_2; case_decide; repeat constructor.
Qed.

Lemma statistics_warnings_field clock matchData playersData (field : string) pid :
  field = "kills" ∨ field = "deaths" →
  (∃ w, w ∈ ValidationResult.warnings
              (validateMatchEdit showGameLength clock matchData playersData)
        ∧ ValidationError.field w = field
        ∧ ValidationError.playerId w = Some pid)
  ↔ ∃ p n, p ∈ playersData ∧ DBMatchPlayer.playerId p = pid
      ∧ (if decide (field = "kills") then DBMatchPlayer.kills p else DBMatchPlayer.deaths p)
        = Some n
      ∧ n > (if decide (field = "kills")
             then if decide (DBMatch.gameLength matchData = Quick) then 10 else 20
             else 15).
Proof.
  intros Hfield. unfold validateMatchEdit. cbn [ValidationResult.warnings]. split.
  - intros (w & Hw & Hf & Hp).
    apply elem_of_app in Hw as [Hw | Hw].
    { case_decide; [| by apply elem_of_nil in Hw].
      apply list_elem_of_singleton in Hw as ->. done. }
    apply elem_of_app in Hw as [Hw | Hw]; last first.
    { apply dateWarnings_field in Hw. rewrite Hw in Hf. by destruct Hfield as [-> | ->]. }
    apply in_flat_map_elem_of in Hw as (p & Hin & Hw).
    apply elem_of_app in Hw as [Hw | Hw].
    + pose proof (killsWarnings_field showGameLength _ _ _ Hw) as Hk.
      rewrite Hk in Hf. subst field. rewrite !decide_True by done.
      unfold killsWarnings in Hw.
      destruct (DBMatchPlayer.kills p) as [k |] eqn:Hkills; [| by apply elem_of_nil in Hw].
      cbv zeta in Hw.
      destruct (decide (k ≠ 0 ∧ k > 0)); [| by apply elem_of_nil in Hw].
      destruct (decide (DBMatch.gameLength matchData = Quick));
        (destruct (decide (k > _)); [| by apply elem_of_nil in Hw]);
        apply list_elem_of_singleton in Hw as ->; injection Hp as <-;
        exists p, k; split_and!; try done; try lia; by case_decide.
    + pose proof (deathsWarnings_field _ _ Hw) as Hd.
      rewrite Hd in Hf. subst field. rewrite !decide_False by done.
      unfold deathsWarnings in Hw.
      destruct (DBMatchPlayer.deaths p) as [d |] eqn:Hdeaths; [| by apply elem_of_nil in Hw].
      destruct (decide (d ≠ 0 ∧ d > 15)) as [[_ Hd15] |]; [| by apply elem_of_nil in Hw].
      apply list_elem_of_singleton in Hw as ->. injection Hp as <-.
      exists p, d. split_and!; try done; try lia; by case_decide.
  - intros (p & n & Hin & Hpid & Hn & Hgt).
    destruct Hfield as [-> | ->].
    + rewrite !decide_True in * by done.
      eexists. split.
      * apply elem_of_app. right. apply elem_of_app. left.
        apply in_flat_map_elem_of. exists p. split; [done |].
        apply elem_of_app. left. unfold killsWarnings. rewrite Hn. cbv zeta.
        rewrite decide_True; last first.
        { destruct (decide (DBMatch.gameLength matchData = Quick)); lia. }
        rewrite decide_True; [apply list_elem_of_singleton; reflexivity |].
        destruct (decide (DBMatch.gameLength matchData = Quick)); lia.
      * simpl. by rewrite Hpid.
    + rewrite !decide_False in * by done.
      eexists. split.
      * apply elem_of_app. right. apply elem_of_app. left.
        apply in_flat_map_elem_of. exists p. split; [done |].
        apply elem_of_app. right. unfold deathsWarnings. rewrite Hn.
        rewrite decide_True by lia. apply list_elem_of_singleton. reflexivity.
      * simpl. by rewrite Hpid.
Qed.

(** X7.  The statistics warnings: a player draws a warning on [kills]
    exactly when a row of the player has more than 10 kills in a quick
    match or more than 20 in a long one, and a warning on [deaths] exactly
    when a row of the player has more than 15 deaths. *)
Theorem statistics_warnings clock matchData playersData pid :
  let warnings :=
    ValidationResult.warnings
      (validateMatchEdit showGameLength clock matchData playersData) in
  ((∃ w, w ∈ warnings ∧ ValidationError.field w = "kills"
         ∧ ValidationError.playerId w = Some pid)
   ↔ ∃ p n, p ∈ playersData ∧ DBMatchPlayer.playerId p = pid
       ∧ DBMatchPlayer.kills p = Some n
       ∧ n > (if decide (DBMatch.gameLength matchData = Quick) then 10 else 20))
  ∧ ((∃ w, w ∈ warnings ∧ ValidationError.field w = "deaths"
           ∧ ValidationError.playerId w = Some pid)
     ↔ ∃ p n, p ∈ playersData ∧ DBMatchPlayer.playerId p = pid
         ∧ DBMatchPlayer.deaths p = Some n ∧ n > 15).
Proof.
  intros warnings. split.
  - unfold warnings.
    rewrite (statistics_warnings_field clock matchData playersData "kills" pid) by auto.
    by rewrite !decide_True by done.
  - unfold warnings.
    rewrite (statistics_warnings_field clock matchData playersData "deaths" pid) by auto.
    by rewrite !decide_False by done.
Qed.
End ValidationAccepts.

(** * Rating queries *)

Section RatingQueries.
Context `{OpenSkill} `{Device}.
Import FirebaseStatsService.

Lemma currentRatingsStep_processMatch s R T m :
  currentRatingsStep s R m = fst <$> processMatch s (R, T) m.
Proof.
  unfold currentRatingsStep, processMatch. cbv zeta.
  set (mps := getMatchPlayers s (DBMatch.id m)).
  set (tit := DBMatchPlayer.playerId <$> filter (λ mp, DBMatchPlayer.team mp = Titans) mps).
  set (atl := DBMatchPlayer.playerId <$> filter (λ mp, DBMatchPlayer.team mp ≠ Titans) mps).
  destruct (decide _); [reflexivity |].
  destruct (mapM _ ((λ i, R !! i) <$> tit)); [| reflexivity]. simpl.
  destruct (mapM _ ((λ i, R !! i) <$> atl)); reflexivity.
Qed.

Lemma currentRatings_fold s l R T :
  foldlM (currentRatingsStep s) R l = fst <$> foldlM (processMatch s) (R, T) l.
Proof.
  revert R T. induction l as [| m l IH]; intros R T; [done |]. cbn [foldlM].
  rewrite (currentRatingsStep_processMatch s R T m).
  destruct (processMatch s (R, T) m) as [[R' T'] |]; cbn [fmap option_fmap option_map fst];
    [apply IH | done].
Qed.

Lemma getCurrentTrueSkillRatings_replay s :
  getCurrentTrueSkillRatings s =
  match replay s with
  | Some st => displayRating <$> st.1
  | None => ∅
  end.
Proof.
  unfold getCurrentTrueSkillRatings, replay. cbv zeta.
  rewrite (currentRatings_fold s _ _ (initialStats (getAllPlayers s))).
  by destruct (foldlM (processMatch s) _ _) as [[R T] |].
Qed.

Lemma skips_not_counted s m (R : gmap string Rating) :
  (length ((λ i, R !! i) <$>
             (DBMatchPlayer.playerId <$>
                filter (λ mp, DBMatchPlayer.team mp = Titans)
                       (getMatchPlayers s (DBMatch.id m)))) = 0%nat
   ∨ length ((λ i, R !! i) <$>
               (DBMatchPlayer.playerId <$>
                  filter (λ mp, DBMatchPlayer.team mp ≠ Titans)
                         (getMatchPlayers s (DBMatch.id m)))) = 0%nat)
  ↔ ¬ counted s m.
Proof.
  rewrite !length_fmap. unfold counted.
  destruct (filter (λ mp, DBMatchPlayer.team mp = Titans) _);
    destruct (filter (λ mp, DBMatchPlayer.team mp ≠ Titans) _); simpl;
    split; try tauto; try (intros [? | ?]; lia); try (intros _; lia); intros Hn.
  exfalso. apply Hn. done.
Qed.

Lemma currentRatingsStep_dom s R m R' :
  currentRatingsStep s R m = Some R' → ∀ k, is_Some (R' !! k) ↔ is_Some (R !! k).
Proof.
  unfold currentRatingsStep. cbv zeta.
  set (mps := getMatchPlayers s (DBMatch.id m)).
  set (tit := DBMatchPlayer.playerId <$> filter (λ mp, DBMatchPlayer.team mp = Titans) mps).
  set (atl := DBMatchPlayer.playerId <$> filter (λ mp, DBMatchPlayer.team mp ≠ Titans) mps).
  destruct (decide _); [by intros [= <-] |].
  destruct (mapM _ ((λ i, R !! i) <$> tit)) as [tr |] eqn:Htr; [| done].
  destruct (mapM _ ((λ i, R !! i) <$> atl)) as [ar |] eqn:Har; [| done].
  simpl. intros [= <-] k.
  assert (∀ i, i ∈ tit → is_Some (R !! i)) as Htit.
  { intros i Hi. assert (is_Some (mapM (λ r, r) ((λ i, R !! i) <$> tit))) as Hs by eauto.
    apply mapM_is_Some_1 in Hs. rewrite Forall_fmap, Forall_forall in Hs. by apply Hs. }
  assert (∀ i, i ∈ atl → is_Some (R !! i)) as Hatl.
  { intros i Hi. assert (is_Some (mapM (λ r, r) ((λ i, R !! i) <$> atl))) as Hs by eauto.
    apply mapM_is_Some_1 in Hs. rewrite Forall_fmap, Forall_forall in Hs. by apply Hs. }
  rewrite storeRatings_is_Some; [by apply storeRatings_is_Some |].
  intros i Hi. apply storeRatings_is_Some; auto.
Qed.

Lemma historical_fold showDate s l R Hs :
  match foldlM (historicalRatingsStep showDate s) (R, Hs) l with
  | Some st =>
      foldlM (currentRatingsStep s) R l.*2 = Some st.1
      ∧ ∃ H2, st.2 = Hs ++ H2
        ∧ RatingSnapshot.matchNumber <$> H2 =
          (λ im, Z.of_nat im.1 + 1) <$> filter (λ im, counted s im.2) l
        ∧ (H2 = [] → st.1 = R)
        ∧ (∀ snap, last H2 = Some snap →
             RatingSnapshot.ratings snap = displayRating <$> st.1)
        ∧ (∀ snap k, snap ∈ H2 →
             is_Some (RatingSnapshot.ratings snap !! k) ↔ is_Some (R !! k))
  | None => foldlM (currentRatingsStep s) R l.*2 = None
  end.
Proof.
  revert R Hs. induction l as [| [i m] l IH]; intros R Hs.
  { simpl. split; [done |]. exists []. rewrite app_nil_r. split_and!; try done.
    intros snap k Hin. by apply elem_of_nil in Hin. }
  rewrite fmap_cons. cbn [foldlM snd].
  pose proof (currentRatingsStep_dom s R m) as Hdom.
  unfold historicalRatingsStep, currentRatingsStep in *.
  pose proof (skips_not_counted s m R) as Hskip.
  destruct (decide _) as [Hs0 | Hs0].
  - apply Hskip in Hs0. rewrite filter_cons_False by done. apply IH.
  - assert (counted s m) as Hc.
    { destruct (decide (counted s m)); [done |]. exfalso. apply Hs0. by apply Hskip. }
    rewrite filter_cons_True by done.
    destruct (mapM _ (_ <$> (_ <$> filter (λ mp, DBMatchPlayer.team mp = Titans) _)))
      as [tr |]; [| done]. cbn [mbind option_bind] in *.
    destruct (mapM _ (_ <$> (_ <$> filter (λ mp, DBMatchPlayer.team mp ≠ Titans) _)))
      as [ar |]; [| done]. cbn [mbind option_bind] in *.
    match goal with
    | |- context [foldlM _ (?R2, ?Hs2) l] =>
        specialize (IH R2 Hs2); set (R2' := R2) in *
    end.
    specialize (Hdom R2' eq_refl).
    destruct (foldlM _ _ l) as [[R' Hs'] |]; [| done].
    destruct IH as (Hfold & H2 & -> & Hnum & Hnil & Hlast & Hkeys). simpl in *.
    split; [done |]. eexists (_ :: H2). split_and!.
    + by rewrite <- app_assoc.
    + rewrite !fmap_cons. simpl. by rewrite Hnum.
    + done.
    + intros snap. rewrite last_cons. destruct (last H2) as [y |] eqn:Hy.
      * intros [= <-]. by apply Hlast.
      * intros [= <-]. simpl. apply last_None in Hy. by rewrite (Hnil Hy).
    + intros snap k [-> | Hin]%elem_of_cons.
      * simpl. rewrite lookup_fmap, fmap_is_Some. apply Hdom.
      * rewrite Hkeys by done. apply Hdom.
Qed.

Lemma replay_keys s st k :
  wf_store s → replay s = Some st → is_Some (st.1 !! k) ↔ is_Some (players s !! k).
Proof.
  intros Hwf Hr. destruct st as [R T].
  by destruct (replay_inv s R T Hwf Hr) as [HR _ _ _].
Qed.

Lemma initialRatings_keys s k :
  wf_store s →
  is_Some (initialRatings (getAllPlayers s) !! k) ↔ is_Some (players s !! k).
Proof.
  intros Hwf. by destruct (replayInv_initial s Hwf) as [HR _ _ _].
Qed.

Lemma recalculatePlayerStats_cases today this s :
  wf_store s →
  match recalculatePlayerStats today this s with
  | Some r =>
      ∃ R T, replay s = Some (R, T) ∧ r.1 = mk R
        ∧ wf_store r.2
        ∧ matches r.2 = matches s ∧ matchPlayers r.2 = matchPlayers s
        ∧ (∀ k, players s !! k = None → players r.2 !! k = None)
        ∧ (∀ k p, players s !! k = Some p →
             ∃ st rt, T !! k = Some st ∧ R !! k = Some rt
               ∧ players r.2 !! k = Some (withDeviceId (updatedPlayer (today k) p st rt)))
  | None => replay s = None
  end.
Proof.
  intros Hwf. destruct (replay s) as [[R T] |] eqn:Hreplay.
  - destruct (recalculatePlayerStats_Some today this s R T Hwf Hreplay)
      as (s' & Hrec & Hm & Hr & Hnone & Hsome).
    rewrite Hrec. exists R, T. simpl. split_and!; try done.
    by eapply recalculatePlayerStats_wf.
  - rewrite recalculatePlayerStats_replay. by rewrite Hreplay.
Qed.

(** X8.  [getCurrentTrueSkillRatings] agrees with the recalculation: when
    [recalculatePlayerStats] returns, the rating listed for a player is
    the [elo] the recalculation stores and the display rating of the
    stored record, nobody else is listed, and the answer is the same on the
    store the recalculation leaves; when the recalculation throws, the
    answer is the empty object. *)
Theorem current_ratings_agree today this s :
  wf_store s →
  match recalculatePlayerStats today this s with
  | Some r =>
      (∀ k, getCurrentTrueSkillRatings s !! k = DBPlayer.elo <$> players r.2 !! k)
      ∧ (∀ k, getCurrentTrueSkillRatings s !! k = getDisplayRating <$> players r.2 !! k)
      ∧ getCurrentTrueSkillRatings r.2 = getCurrentTrueSkillRatings s
  | None => getCurrentTrueSkillRatings s = ∅
  end.
Proof.
  intros Hwf. pose proof (recalculatePlayerStats_cases today this s Hwf) as Hcases.
  destruct (recalculatePlayerStats today this s) as [[this1 s1] |]; simpl in *.
  - destruct Hcases as (R & T & Hreplay & _ & Hwf1 & Hm & Hr & Hnone & Hsome).
    assert (∀ k, getCurrentTrueSkillRatings s !! k = DBPlayer.elo <$> players s1 !! k
                 ∧ getCurrentTrueSkillRatings s !! k
                   = getDisplayRating <$> players s1 !! k) as Hk.
    { intros k. rewrite getCurrentTrueSkillRatings_replay, Hreplay. simpl.
      rewrite lookup_fmap. destruct (players s !! k) as [p |] eqn:Hp.
      - destruct (Hsome _ _ Hp) as (st & rt & _ & -> & ->). simpl.
        unfold getDisplayRating, withDeviceId. by destruct (falsy _).
      - rewrite (Hnone _ Hp). simpl.
        destruct (R !! k) eqn:HR; [| done].
        assert (is_Some (players s !! k)) as [? ?]; [| congruence].
        apply (replay_keys s (R, T) k Hwf Hreplay). by eexists. }
    split_and!; [apply Hk | apply Hk |].
    rewrite !getCurrentTrueSkillRatings_replay.
    rewrite (replay_ext s1 s); try done.
    intros k. destruct (players s !! k) as [p |] eqn:Hp.
    + destruct (Hsome _ _ Hp) as (st & rt & _ & _ & ->). split; by eexists.
    + rewrite (Hnone _ Hp). done.
  - by rewrite getCurrentTrueSkillRatings_replay, Hcases.
Qed.

Lemma length_filter_indexed {A} (P : A → Prop) `{∀ x, Decision (P x)} (l : list A) :
  ∀ (f : nat → nat),
    length (filter (λ im : nat * A, P im.2) (imap (λ i x, (f i, x)) l))
    = length (filter P l).
Proof.
  induction l as [| x l IH]; intros f; [done |]. simpl.
  destruct (decide (P x)) as [Hx | Hx].
  - rewrite !filter_cons_True by done. simpl. f_equal. apply (IH (f ∘ S)).
  - rewrite !filter_cons_False by done. apply (IH (f ∘ S)).
Qed.

(** X9.  [getHistoricalRatings] against the recalculation.  When
    [recalculatePlayerStats] returns, the history has one snapshot for
    each counted match, numbered by the match's place (from 1) in the
    order of dates; every snapshot lists exactly the stored players; and
    the last snapshot is the answer of [getCurrentTrueSkillRatings].  When
    the recalculation throws, the history is empty. *)
Theorem historical_ratings showDate today this s :
  wf_store s →
  let history := getHistoricalRatings showDate s in
  match recalculatePlayerStats today this s with
  | Some _ =>
      RatingSnapshot.matchNumber <$> history =
        (λ im, Z.of_nat im.1 + 1) <$>
          filter (λ im, counted s im.2) (imap pair (sortByDate (getAllMatches s)))
      ∧ length history = length (filter (counted s) (getAllMatches s))
      ∧ (∀ snap k, snap ∈ history →
           is_Some (RatingSnapshot.ratings snap !! k) ↔ is_Some (players s !! k))
      ∧ (∀ snap, last history = Some snap →
           RatingSnapshot.ratings snap = getCurrentTrueSkillRatings s)
  | None => history = []
  end.
Proof.
  intros Hwf history.
  pose proof (recalculatePlayerStats_cases today this s Hwf) as Hcases.
  pose proof (historical_fold showDate s (imap pair (sortByDate (getAllMatches s)))
                (initialRatings (getAllPlayers s)) []) as Hfold.
  assert ((imap pair (sortByDate (getAllMatches s))).*2 = sortByDate (getAllMatches s))
    as Hsnd.
  { generalize (sortByDate (getAllMatches s)). intros l.
    change pair with (λ (i : nat) (x : DBMatch), (id i, x)). generalize (@id nat).
    induction l as [| x l IH]; intros f; [done |]. simpl. f_equal. apply (IH (f ∘ S)). }
  rewrite Hsnd in Hfold.
  rewrite (currentRatings_fold s _ _ (initialStats (getAllPlayers s))) in Hfold.
  fold (replay s) in Hfold.
  unfold history, getHistoricalRatings. cbv zeta.
  destruct (recalculatePlayerStats today this s) as [[this1 s1] |].
  - destruct Hcases as (R & T & Hreplay & _).
    rewrite Hreplay in Hfold.
    destruct (foldlM (historicalRatingsStep showDate s) _ _) as [[R' Hs'] |];
      [| done].
    simpl in Hfold.
    destruct Hfold as ([= <-] & H2 & -> & Hnum & Hnil & Hlast & Hkeys). simpl in *.
    split_and!.
    + done.
    + rewrite <- (length_fmap RatingSnapshot.matchNumber), Hnum, length_fmap.
      rewrite (length_filter_indexed (counted s) _ id).
      apply Permutation_length. apply filter_Permutation.
      apply (sortByDate_spec (getAllMatches s)).
    + intros snap k Hin. rewrite (Hkeys snap k Hin). by apply initialRatings_keys.
    + intros snap Hl. rewrite (Hlast snap Hl).
      by rewrite getCurrentTrueSkillRatings_replay, Hreplay.
  - rewrite Hcases in Hfold.
    destruct (foldlM (historicalRatingsStep showDate s) _ _) as [[R' Hs'] |]; [| done].
    by destruct Hfold as [? _].
Qed.
End RatingQueries.

(** * Player statistics *)

Section CountingMap.
Context {X E K : Type} `{EqDecision K}.
Variables (key : E → K) (count : E → Z) (bump : E → E) (new : X → E) (keyOf : X → K).
Hypothesis key_bump : ∀ e, key (bump e) = key e.
Hypothesis count_bump : ∀ e, count (bump e) = count e + 1.
Hypothesis key_new : ∀ x, key (new x) = keyOf x.
Hypothesis count_new : ∀ x, count (new x) = 1.

Local Abbreviation countInto := (countInto key bump new keyOf).
Local Abbreviation countAll := (countAll key bump new keyOf).

Lemma countInto_keys x m :
  key <$> countInto x m = if decide (keyOf x ∈ key <$> m) then key <$> m
                          else (key <$> m) ++ [keyOf x].
Proof.
  induction m as [| e m IH]; simpl.
  - by rewrite key_new.
  - destruct (decide (key e = keyOf x)) as [Heq | Hne].
    + rewrite fmap_cons, key_bump. rewrite decide_True; [done |]. rewrite <- Heq. by left.
    + rewrite fmap_cons, IH.
      destruct (decide (keyOf x ∈ key <$> m)) as [Hin | Hnin].
      * rewrite decide_True; [done | by right].
      * rewrite decide_False; [done |]. intros [? | ?]%elem_of_cons; [congruence | done].
Qed.

Lemma countInto_count x m h :
  totalCount count (filter (λ e, key e = h) (countInto x m)) =
  totalCount count (filter (λ e, key e = h) m) + (if decide (keyOf x = h) then 1 else 0).
Proof.
  induction m as [| e m IH]; simpl.
  - destruct (decide (keyOf x = h)) as [Heq | Hne].
    + rewrite filter_cons_True by (by rewrite key_new). simpl. rewrite count_new. lia.
    + rewrite filter_cons_False by (by rewrite key_new). simpl. lia.
  - destruct (decide (key e = keyOf x)) as [Heq | Hne].
    + destruct (decide (key e = h)) as [Hh | Hh].
      * rewrite !filter_cons_True by (by rewrite ?key_bump). simpl.
        rewrite count_bump, decide_True by congruence. lia.
      * rewrite !filter_cons_False by (by rewrite ?key_bump).
        rewrite decide_False by congruence. lia.
    + destruct (decide (key e = h)) as [Hh | Hh].
      * rewrite !filter_cons_True by done. simpl. rewrite IH. lia.
      * rewrite !filter_cons_False by done. apply IH.
Qed.

Lemma countAll_snoc xs x : countAll (xs ++ [x]) = countInto x (countAll xs).
Proof. unfold countAll. by rewrite foldl_app. Qed.

Lemma countAll_keys_NoDup xs : NoDup (key <$> countAll xs).
Proof.
  induction xs as [| x xs IH] using rev_ind; [constructor |].
  rewrite countAll_snoc, countInto_keys. case_decide; [done |].
  apply NoDup_app. split_and!; [done | | apply NoDup_singleton].
  intros k Hk Hx. apply list_elem_of_singleton in Hx as ->. done.
Qed.

Lemma countAll_keys xs h : h ∈ key <$> countAll xs ↔ h ∈ keyOf <$> xs.
Proof.
  induction xs as [| x xs IH] using rev_ind; [done |].
  rewrite countAll_snoc, countInto_keys, fmap_app, elem_of_app. simpl.
  rewrite list_elem_of_singleton. case_decide as Hin.
  - rewrite IH. split; [tauto |]. intros [? | ->]; [done | by apply IH].
  - rewrite elem_of_app, list_elem_of_singleton, IH. done.
Qed.

Lemma countAll_count xs h :
  totalCount count (filter (λ e, key e = h) (countAll xs)) =
  Z.of_nat (length (filter (λ x, keyOf x = h) xs)).
Proof.
  induction xs as [| x xs IH] using rev_ind; [done |].
  rewrite countAll_snoc, countInto_count, IH, filter_app, length_app.
  destruct (decide (keyOf x = h)).
  - rewrite filter_cons_True by done. simpl. lia.
  - rewrite filter_cons_False by done. simpl. lia.
Qed.

Lemma filter_key_singleton (m : list E) e :
  NoDup (key <$> m) → e ∈ m → filter (λ e', key e' = key e) m = [e].
Proof.
  induction m as [| e' m IH]; intros Hnd Hin; [by apply elem_of_nil in Hin |].
  rewrite fmap_cons in Hnd. apply NoDup_cons in Hnd as [Hnin Hnd].
  apply elem_of_cons in Hin as [-> | Hin].
  - rewrite filter_cons_True by done. f_equal.
    apply filter_none. intros y Hy Heq. apply Hnin. rewrite <- Heq.
    apply list_elem_of_fmap. eauto.
  - rewrite filter_cons_False; [by apply IH |].
    intros Heq. apply Hnin. rewrite Heq. apply list_elem_of_fmap. eauto.
Qed.

Lemma countAll_entry xs e :
  e ∈ countAll xs →
  count e = Z.of_nat (length (filter (λ x, keyOf x = key e) xs)).
Proof.
  intros Hin. rewrite <- countAll_count.
  rewrite (filter_key_singleton _ e (countAll_keys_NoDup xs) Hin). simpl. lia.
Qed.

Lemma countInto_total x m :
  totalCount count (countInto x m) = totalCount count m + 1.
Proof.
  induction m as [| e m IH]; simpl; [rewrite count_new; lia |].
  destruct (decide (key e = keyOf x)); simpl; [rewrite count_bump |]; lia.
Qed.

Lemma countAll_total xs : totalCount count (countAll xs) = Z.of_nat (length xs).
Proof.
  induction xs as [| x xs IH] using rev_ind; [done |].
  rewrite countAll_snoc, countInto_total, IH, length_app. simpl. lia.
Qed.
End CountingMap.

Section SortDescending.
Context {A : Type} (key : A → Z).

Lemma sort_insert_descending x l :
  StronglySorted (λ a b, key b ≤ key a) l →
  StronglySorted (λ a b, key b ≤ key a) (sort_insert (λ a b, key b - key a) x l).
Proof.
  induction 1 as [| y l Hs IH Hy]; simpl; [repeat constructor |].
  case_decide as Hc.
  - constructor; [by constructor |]. constructor; [lia |].
    eapply Forall_impl; [exact Hy |]. simpl. intros z ?. lia.
  - constructor; [done |].
    apply Forall_forall. intros z Hz.
    rewrite (sort_insert_perm (λ a b, key b - key a)) in Hz.
    apply elem_of_cons in Hz as [-> | Hz]; [lia |].
    rewrite Forall_forall in Hy. by apply Hy.
Qed.

Lemma array_sort_descending l :
  StronglySorted (λ a b, key b ≤ key a) (array_sort (λ a b, key b - key a) l).
Proof.
  induction l as [| x l IH]; simpl; [constructor | by apply sort_insert_descending].
Qed.

Lemma totalCount_sort_insert cmp x l :
  totalCount key (sort_insert cmp x l) = key x + totalCount key l.
Proof.
  induction l as [| y l IH]; simpl; [done |]. case_decide; simpl; [done | lia].
Qed.

Lemma totalCount_array_sort cmp l : totalCount key (array_sort cmp l) = totalCount key l.
Proof.
  induction l as [| x l IH]; simpl; [done |]. by rewrite totalCount_sort_insert, IH.
Qed.

Lemma sorted_take_drop (l : list A) n a b :
  StronglySorted (λ a b, key b ≤ key a) l →
  a ∈ take n l → b ∈ drop n l → key b ≤ key a.
Proof.
  intros Hs Ha Hb. rewrite <- (take_drop n l) in Hs.
  by apply (StronglySorted_app_1_elem_of _ _ _ _ _ Hs Ha Hb).
Qed.
End SortDescending.

Section PlayerStatsFacts.
Import FirebaseStatsService.

Lemma heroesMap_countInto row m :
  heroesMap_count row m = countInto HeroCount.heroId bumpHero newHero DBMatchPlayer.heroId row m.
Proof. induction m as [| e m IH]; simpl; [done |]. case_decide; [done | by rewrite IH]. Qed.

Lemma rolesMap_countInto role m :
  rolesMap_count role m = countInto RoleCount.role bumpRole newRole (λ r, r) role m.
Proof. induction m as [| e m IH]; simpl; [done |]. case_decide; [done | by rewrite IH]. Qed.

Lemma heroesMap_countAll rows :
  foldl (λ heroesMap row, heroesMap_count row heroesMap) [] rows
  = countAll HeroCount.heroId bumpHero newHero DBMatchPlayer.heroId rows.
Proof.
  unfold countAll. generalize (@nil HeroCount).
  induction rows as [| row rows IH]; intros m; simpl; [done |].
  by rewrite heroesMap_countInto, IH.
Qed.

Lemma rolesMap_countAll rows :
  foldl (λ rolesMap row,
           foldl (λ rolesMap role, rolesMap_count role rolesMap) rolesMap
                 (DBMatchPlayer.heroRoles row))
        [] rows
  = countAll RoleCount.role bumpRole newRole (λ r, r)
      (rows ≫= DBMatchPlayer.heroRoles).
Proof.
  unfold countAll. generalize (@nil RoleCount).
  induction rows as [| row rows IH]; intros m; [done |].
  cbn [foldl]. rewrite bind_cons, foldl_app, IH. f_equal.
Qed.

(** X10.  The tallies of [getPlayerStats].  For an unknown player every
    part of the answer is empty, whatever rows carry the id.  For a stored
    player, [matchesPlayed] is the player's rows; [allHeroesPlayed] lists
    each hero of those rows once, with the number of rows that used it, so
    that the counts add up to the number of rows; [allRolesPlayed] lists
    each role of the heroes of those rows once, with the number of times it
    occurs ([rows ≫= heroRoles] is the roles of all the rows, in order). *)
Theorem player_stats_tally s playerId :
  let st := getPlayerStats s playerId in
  let rows := getPlayerMatches s playerId in
  match getPlayer s playerId with
  | None => st = PlayerStats.mk None [] [] [] [] []
  | Some player =>
      PlayerStats.player st = Some player
      ∧ PlayerStats.matchesPlayed st = rows
      ∧ NoDup (HeroCount.heroId <$> PlayerStats.allHeroesPlayed st)
      ∧ (∀ h, h ∈ HeroCount.heroId <$> PlayerStats.allHeroesPlayed st
              ↔ h ∈ DBMatchPlayer.heroId <$> rows)
      ∧ (∀ e, e ∈ PlayerStats.allHeroesPlayed st →
           HeroCount.count e =
           Z.of_nat (length (filter (λ row, DBMatchPlayer.heroId row = HeroCount.heroId e)
                                    rows)))
      ∧ totalCount HeroCount.count (PlayerStats.allHeroesPlayed st) = Z.of_nat (length rows)
      ∧ NoDup (RoleCount.role <$> PlayerStats.allRolesPlayed st)
      ∧ (∀ r, r ∈ RoleCount.role <$> PlayerStats.allRolesPlayed st
              ↔ r ∈ rows ≫= DBMatchPlayer.heroRoles)
      ∧ (∀ e, e ∈ PlayerStats.allRolesPlayed st →
           RoleCount.count e =
           Z.of_nat (length (filter (λ r, r = RoleCount.role e)
                                    (rows ≫= DBMatchPlayer.heroRoles))))
  end.
Proof.
  intros st rows. unfold st, getPlayerStats.
  destruct (getPlayer s playerId) as [player |]; [| done].
  cbv zeta. cbn [PlayerStats.player PlayerStats.matchesPlayed PlayerStats.allHeroesPlayed
                 PlayerStats.allRolesPlayed].
  fold rows. rewrite heroesMap_countAll, rolesMap_countAll.
  set (cmpH := λ a b, HeroCount.count b - HeroCount.count a).
  set (cmpR := λ a b, RoleCount.count b - RoleCount.count a).
  split_and!; try done.
  - rewrite (array_sort_perm cmpH). by apply countAll_keys_NoDup.
  - intros h. rewrite (array_sort_perm cmpH). by apply countAll_keys.
  - intros e He. apply (proj1 (array_sort_elem_of cmpH _ _)) in He.
    by apply (countAll_entry HeroCount.heroId HeroCount.count bumpHero newHero
                DBMatchPlayer.heroId).
  - rewrite totalCount_array_sort.
    by apply (countAll_total HeroCount.heroId HeroCount.count bumpHero newHero
                DBMatchPlayer.heroId).
  - rewrite (array_sort_perm cmpR). by apply countAll_keys_NoDup.
  - intros r. rewrite (array_sort_perm cmpR).
    rewrite (countAll_keys RoleCount.role bumpRole newRole (λ r, r)) by done.
    by rewrite list_fmap_id.
  - intros e He. apply (proj1 (array_sort_elem_of cmpR _ _)) in He.
    by apply (countAll_entry RoleCount.role RoleCount.count bumpRole newRole (λ r, r)).
Qed.

(** X11.  The favourites of [getPlayerStats] are the most used: both full
    lists are in descending order of count, the favourites are their first
    three entries, and no entry left out has a higher count than a
    favourite. *)
Theorem player_stats_favorites s playerId :
  let st := getPlayerStats s playerId in
  PlayerStats.favoriteHeroes st = take 3 (PlayerStats.allHeroesPlayed st)
  ∧ PlayerStats.favoriteRoles st = take 3 (PlayerStats.allRolesPlayed st)
  ∧ StronglySorted (λ a b, HeroCount.count b ≤ HeroCount.count a)
      (PlayerStats.allHeroesPlayed st)
  ∧ StronglySorted (λ a b, RoleCount.count b ≤ RoleCount.count a)
      (PlayerStats.allRolesPlayed st)
  ∧ (∀ a b, a ∈ PlayerStats.favoriteHeroes st →
       b ∈ drop 3 (PlayerStats.allHeroesPlayed st) →
       HeroCount.count b ≤ HeroCount.count a)
  ∧ (∀ a b, a ∈ PlayerStats.favoriteRoles st →
       b ∈ drop 3 (PlayerStats.allRolesPlayed st) →
       RoleCount.count b ≤ RoleCount.count a).
Proof.
  intros st.
  assert (PlayerStats.favoriteHeroes st = take 3 (PlayerStats.allHeroesPlayed st)
          ∧ PlayerStats.favoriteRoles st = take 3 (PlayerStats.allRolesPlayed st)
          ∧ StronglySorted (λ a b, HeroCount.count b ≤ HeroCount.count a)
              (PlayerStats.allHeroesPlayed st)
          ∧ StronglySorted (λ a b, RoleCount.count b ≤ RoleCount.count a)
              (PlayerStats.allRolesPlayed st)) as (HfH & HfR & HsH & HsR).
  { unfold st, getPlayerStats. destruct (getPlayer s playerId); simpl.
    - split_and!; [done | done | apply array_sort_descending | apply array_sort_descending].
    - split_and!; [done | done | constructor | constructor]. }
  split_and!; try done.
  - intros a b Ha Hb. rewrite HfH in Ha. by eapply (sorted_take_drop HeroCount.count).
  - intros a b Ha Hb. rewrite HfR in Ha. by eapply (sorted_take_drop RoleCount.count).
Qed.
End PlayerStatsFacts.

(** * Recording, deleting and editing matches *)

Section MatchLifecycleMore.
Context `{OpenSkill} `{Device}.
Variable showGameLength : GameLength → string.
Import FirebaseStatsService MatchService.

Lemma recalculatePlayerStats_is_Some today this s :
  wf_store s →
  is_Some (recalculatePlayerStats today this s)
  ↔ ∀ m, m ∈ getAllMatches s → matchOk s (λ k, is_Some (players s !! k)) m.
Proof.
  intros Hwf. rewrite <- replay_is_Some by done.
  pose proof (recalculatePlayerStats_cases today this s Hwf) as Hc.
  destruct (recalculatePlayerStats today this s) as [r |].
  - destruct Hc as (R & T & -> & _). split; intros _; by eexists.
  - rewrite Hc. split; by intros [? ?].
Qed.

Lemma recalculatePlayerStats_is_Some_clock today today' this this' s :
  wf_store s →
  is_Some (recalculatePlayerStats today this s) →
  is_Some (recalculatePlayerStats today' this' s).
Proof. intros Hwf. by rewrite !recalculatePlayerStats_is_Some. Qed.

Lemma head_filter_None {A} (P : A → Prop) `{∀ x, Decision (P x)} (l : list A) :
  head (filter P l) = None ↔ ∀ x, x ∈ l → ¬ P x.
Proof.
  rewrite head_None. split.
  - intros Hnil x Hx HP.
    assert (x ∈ filter P l) as Hin by (apply list_elem_of_filter; done).
    rewrite Hnil in Hin. by apply elem_of_nil in Hin.
  - by apply filter_none.
Qed.

Lemma canEditMatch_spec s matchId :
  let r := FirebaseMatchService.canEditMatch s matchId in
  (CanEdit.canEdit r = true
   ↔ is_Some (getMatch s matchId)
     ∧ getMatchPlayers s matchId ≠ []
     ∧ ∀ matchPlayer, matchPlayer ∈ getMatchPlayers s matchId →
         is_Some (getPlayer s (DBMatchPlayer.playerId matchPlayer)))
  ∧ (CanEdit.canEdit r = false ↔ is_Some (CanEdit.reason r)).
Proof.
  intros r. unfold r, FirebaseMatchService.canEditMatch.
  destruct (getMatch s matchId) as [m |]; simpl.
  2: { split; [| split; [by eexists | done]].
       split; [done |]. by intros [[? ?] _]. }
  destruct (decide (length (getMatchPlayers s matchId) = 0%nat)) as [Hz | Hnz]; simpl.
  { split; [| split; [by eexists | done]].
    split; [done |]. intros (_ & Hne & _). by apply nil_length_inv in Hz. }
  destruct (head (filter _ (getMatchPlayers s matchId))) as [mp |] eqn:Hhead; simpl.
  - split; [| split; [by eexists | done]].
    split; [done |]. intros (_ & _ & Hall).
    apply head_Some_elem_of, list_elem_of_filter in Hhead as [Hnone Hin].
    specialize (Hall mp Hin). rewrite Hnone in Hall. by destruct Hall.
  - split; [| split; [done | by intros [? ?]]].
    split; [| done]. intros _. split_and!; [by eexists | |].
    + intros Hnil. by rewrite Hnil in Hnz.
    + intros mp Hin. apply head_filter_None with (x := mp) in Hhead; [| done].
      destruct (getPlayer s (DBMatchPlayer.playerId mp)); [by eexists | done].
Qed.

(** X12.  [canEditMatch] says yes exactly when the match is stored, has a
    row, and every row names a stored player; it gives a reason exactly
    when it says no. *)
Theorem can_edit_match s matchId :
  let r := FirebaseMatchService.canEditMatch s matchId in
  (CanEdit.canEdit r = true
   ↔ is_Some (getMatch s matchId)
     ∧ getMatchPlayers s matchId ≠ []
     ∧ ∀ matchPlayer, matchPlayer ∈ getMatchPlayers s matchId →
         is_Some (getPlayer s (DBMatchPlayer.playerId matchPlayer)))
  ∧ (CanEdit.canEdit r = false ↔ is_Some (CanEdit.reason r)).
Proof. apply canEditMatch_spec. Qed.

(** X13.  A store in which [canEditMatch] says yes for every stored match
    can be recalculated: [recalculatePlayerStats] does not throw. *)
Theorem editable_store_recalculates today this s :
  wf_store s →
  (∀ m, m ∈ getAllMatches s →
     CanEdit.canEdit (FirebaseMatchService.canEditMatch s (DBMatch.id m)) = true) →
  is_Some (recalculatePlayerStats today this s).
Proof.
  intros Hwf Hall. apply recalculatePlayerStats_is_Some; [done |].
  intros m Hm _ mp Hmp.
  specialize (Hall m Hm). apply canEditMatch_spec in Hall as (_ & _ & Hrows).
  by apply Hrows.
Qed.
End MatchLifecycleMore.

Section RecordDelete.
Context `{OpenSkill} `{Device}.
Variable showGameLength : GameLength → string.
Import FirebaseStatsService MatchService.

Lemma saveMatchPlayer_new mp s :
  DBMatchPlayer.deviceId mp = Some getDeviceId →
  saveMatchPlayer mp s = set_matchPlayers (insert (DBMatchPlayer.id mp) mp) s.
Proof.
  intros Hd. unfold saveMatchPlayer. destruct (falsy _); [| done].
  destruct mp. simpl in *. by subst.
Qed.

Lemma saveMatch_new m s :
  DBMatch.deviceId m = Some getDeviceId →
  saveMatch m s = set_matches (insert (DBMatch.id m) m) s.
Proof.
  intros Hd. unfold saveMatch. destruct (falsy _); [| done].
  destruct m. simpl in *. by subst.
Qed.

Lemma saveNewRows rows s :
  Forall (λ mp, DBMatchPlayer.deviceId mp = Some getDeviceId) rows →
  foldl (λ s mp, saveMatchPlayer mp s) s rows
  = set_matchPlayers
      (λ m, foldl (λ m mp, <[DBMatchPlayer.id mp := mp]> m) m rows) s.
Proof.
  revert s. induction rows as [| mp rows IH]; intros s Hall; simpl.
  - by destruct s.
  - apply Forall_cons in Hall as [Hmp Hall]. rewrite saveMatchPlayer_new by done.
    rewrite IH by done. by destruct s.
Qed.

Lemma lookup_foldl_insert_rows (rows : list DBMatchPlayer)
    (m : gmap string DBMatchPlayer) :
  NoDup (DBMatchPlayer.id <$> rows) →
  (∀ mp, mp ∈ rows →
     foldl (λ m mp, <[DBMatchPlayer.id mp := mp]> m) m rows !! DBMatchPlayer.id mp = Some mp)
  ∧ (∀ k, k ∉ DBMatchPlayer.id <$> rows →
       foldl (λ m mp, <[DBMatchPlayer.id mp := mp]> m) m rows !! k = m !! k).
Proof.
  induction rows as [| mp rows IH] using rev_ind; intros Hnd.
  { split; [intros mp Hin; by apply elem_of_nil in Hin | done]. }
  rewrite fmap_app in Hnd. apply NoDup_app in Hnd as (Hnd & Hdisj & _).
  destruct (IH Hnd) as [Hin Hout]. rewrite foldl_app. simpl. split.
  - intros mp' [Hmp' | ->%list_elem_of_singleton]%elem_of_app.
    + rewrite lookup_insert_ne; [by apply Hin |].
      intros Heq. apply (Hdisj (DBMatchPlayer.id mp')).
      * apply list_elem_of_fmap. eauto.
      * rewrite <- Heq. by left.
    + apply lookup_insert_eq.
  - intros k Hk. rewrite fmap_app, elem_of_app in Hk.
    rewrite lookup_insert_ne; [apply Hout; tauto |].
    intros <-. apply Hk. right. by left.
Qed.

Lemma imap_ids {A B} (f : nat → A → B) (g : B → string) (h : nat → string) (l : list A) :
  (∀ i x, g (f i x) = h i) → g <$> imap f l = h <$> seq 0 (length l).
Proof.
  revert f h. induction l as [| x l IH]; intros f h Hfg; [done |]. simpl.
  rewrite Hfg. f_equal. rewrite <- fmap_S_seq, <- list_fmap_compose.
  apply (IH (f ∘ S) (h ∘ S)). intros i y. apply Hfg.
Qed.

Lemma elem_of_imap_inv {A B} (f : nat → A → B) (l : list A) y :
  y ∈ imap f l ↔ ∃ i x, l !! i = Some x ∧ y = f i x.
Proof.
  rewrite list_elem_of_lookup. split.
  - intros [i Hi]. rewrite list_lookup_imap in Hi.
    destruct (l !! i) as [x |] eqn:Hx; [| done]. injection Hi as <-. eauto.
  - intros (i & x & Hx & ->). exists i. by rewrite list_lookup_imap, Hx.
Qed.

Lemma getMatchPlayers_NoDup s matchId : wf_store s → NoDup (getMatchPlayers s matchId).
Proof.
  intros Hwf. unfold getMatchPlayers. apply NoDup_filter.
  apply (NoDup_fmap_1 DBMatchPlayer.id).
  assert (DBMatchPlayer.id <$> (map_to_list (matchPlayers s)).*2
          = (map_to_list (matchPlayers s)).*1) as ->.
  { rewrite <- list_fmap_compose. apply list_fmap_ext. intros i [k mp] Hk.
    simpl. apply (wf_matchPlayers s Hwf).
    apply elem_of_map_to_list. by eapply list_elem_of_lookup_2. }
  apply NoDup_fst_map_to_list.
Qed.

Lemma saveMatchPlayers_players (Q : string → Prop) rows s :
  Forall (λ mp, Q (DBMatchPlayer.playerId mp)) rows →
  ∀ k mp', matchPlayers (foldl (λ s mp, saveMatchPlayer mp s) s rows) !! k = Some mp' →
    matchPlayers s !! k = Some mp' ∨ Q (DBMatchPlayer.playerId mp').
Proof.
  revert s. induction rows as [| mp rows IH]; intros s Hall k mp' Hk; simpl in *.
  - by left.
  - apply Forall_cons in Hall as [Hmp Hall].
    destruct (IH _ Hall k mp' Hk) as [Hk1 | ?]; [| by right].
    unfold saveMatchPlayer in Hk1.
    destruct (falsy _); simpl in Hk1; rewrite lookup_insert in Hk1;
      (case_decide; [injection Hk1 as <-; by right | by left]).
Qed.

Lemma persistMatch_rows created matchUuid rowUuid matchData playerData s k mp :
  wf_store s →
  matchPlayers (persistMatch created matchUuid rowUuid matchData playerData s) !! k
    = Some mp →
  matchPlayers s !! k = Some mp
  ∨ DBMatchPlayer.playerId mp ∈ PlayerInfo.id <$> playerData.
Proof.
  intros Hwf Hk. unfold persistMatch in Hk.
  destruct (ensurePlayers_facts created playerData s Hwf) as (Hwf1 & Hm1 & Hr1 & _).
  set (s1 := ensurePlayers created playerData s) in *.
  set (m := newMatch matchUuid matchData playerData) in *.
  destruct (saveMatch_facts m s1 Hwf1) as (_ & _ & Hr2 & _).
  apply (saveMatchPlayers_players (λ i, i ∈ PlayerInfo.id <$> playerData)) in Hk.
  - destruct Hk as [Hk | ?]; [left | by right]. congruence.
  - apply Forall_forall. intros row (i & playerInfo & Hi & ->)%elem_of_imap_inv.
    simpl. apply list_elem_of_fmap. exists playerInfo.
    split; [done | by eapply list_elem_of_lookup_2].
Qed.

Lemma elem_of_getMatchPlayers_filter s matchId (P : DBMatchPlayer → Prop)
    `{∀ x, Decision (P x)} :
  filter P (getMatchPlayers s matchId) ≠ []
  ↔ ∃ k mp, matchPlayers s !! k = Some mp ∧ DBMatchPlayer.matchId mp = matchId ∧ P mp.
Proof.
  rewrite filter_not_nil. split.
  - intros (mp & (Hid & k & Hk)%elem_of_getMatchPlayers & HP). eauto.
  - intros (k & mp & Hk & Hid & HP). exists mp. split; [| done].
    apply elem_of_getMatchPlayers. eauto.
Qed.

(** A store keeps being recalculable when matches and rows are taken away
    and no player is. *)
Lemma recalculable_sub today today' this this' s s' :
  wf_store s → wf_store s' →
  is_Some (recalculatePlayerStats today this s) →
  (∀ k m, matches s' !! k = Some m → matches s !! k = Some m) →
  (∀ k mp, matchPlayers s' !! k = Some mp → matchPlayers s !! k = Some mp) →
  (∀ k, is_Some (players s !! k) → is_Some (players s' !! k)) →
  is_Some (recalculatePlayerStats today' this' s').
Proof.
  intros Hwf Hwf' Hok Hms Hrows Hps.
  rewrite recalculatePlayerStats_is_Some in Hok by done.
  apply recalculatePlayerStats_is_Some; [done |].
  intros m (k & Hk)%elem_of_getAllMatches [Ht Ha] mp (Hid & k' & Hk')%elem_of_getMatchPlayers.
  apply Hps. apply (Hok m).
  - apply elem_of_getAllMatches. eauto.
  - split.
    + apply elem_of_getMatchPlayers_filter.
      apply elem_of_getMatchPlayers_filter in Ht as (k1 & r & Hr & ? & ?). eauto 6.
    + apply elem_of_getMatchPlayers_filter.
      apply elem_of_getMatchPlayers_filter in Ha as (k1 & r & Hr & ? & ?). eauto 6.
  - apply elem_of_getMatchPlayers. eauto.
Qed.

Lemma recordMatch_is_Some clock created today today0 matchUuid rowUuid stats stats0
    matchData playerData s :
  wf_store s →
  is_Some (recalculatePlayerStats today0 stats0 s) →
  (∀ k mp, matchPlayers s !! k = Some mp → DBMatchPlayer.matchId mp ≠ matchUuid) →
  ValidationResult.isValid (validateNewMatch showGameLength clock matchData playerData)
    = true →
  is_Some (recalculatePlayerStats today stats
             (persistMatch created matchUuid rowUuid matchData playerData s)).
Proof.
  intros Hwf Hok Hfresh Hvalid.
  rewrite recalculatePlayerStats_is_Some in Hok by done.
  destruct (persistMatch_facts created matchUuid rowUuid matchData playerData s Hwf)
    as (Hwf' & Hensured & Hkept & _ & Hms & Hrows).
  set (s' := persistMatch created matchUuid rowUuid matchData playerData s) in *.
  apply recalculatePlayerStats_is_Some; [done |].
  intros m (k & Hk)%elem_of_getAllMatches [Ht Ha] mp (Hid & k' & Hk')%elem_of_getMatchPlayers.
  destruct (persistMatch_rows _ _ _ _ _ _ _ _ Hwf Hk') as [Hold | Hnew].
  - assert (DBMatch.id m ≠ matchUuid) as Hne.
    { rewrite <- Hid. by eapply Hfresh. }
    assert (matches s !! k = Some m) as Hm.
    { destruct (Hms k m Hk) as [? | ->]; [done |].
      by rewrite (wf_matches s' Hwf' _ _ Hk) in Hne. }
    assert (∀ k1 r, matchPlayers s' !! k1 = Some r →
              DBMatchPlayer.matchId r = DBMatch.id m → matchPlayers s !! k1 = Some r)
      as Holdrows.
    { intros k1 r Hr Hrid. destruct (Hrows k1 r Hr) as [? | Hmid]; [done |]. congruence. }
    assert (is_Some (players s !! DBMatchPlayer.playerId mp)) as [p Hp].
    { apply (Hok m).
      - apply elem_of_getAllMatches. eauto.
      - split.
        + apply elem_of_getMatchPlayers_filter.
          apply elem_of_getMatchPlayers_filter in Ht as (k1 & r & Hr & ? & ?). eauto 7.
        + apply elem_of_getMatchPlayers_filter.
          apply elem_of_getMatchPlayers_filter in Ha as (k1 & r & Hr & ? & ?). eauto 7.
      - apply elem_of_getMatchPlayers. eauto. }
    destruct (Hkept _ _ Hp) as (p' & Hp' & _). by eexists.
  - apply list_elem_of_fmap in Hnew as (playerInfo & -> & Hin). by apply Hensured.
Qed.

(** X14.  When [recordMatch] throws.  On a store that can be recalculated,
    and with a match id that no stored row refers to, [recordMatch] returns
    exactly when [validateNewMatch] accepts the input; it then returns the
    new match id. *)
Theorem record_match_succeeds clock created today today0 matchUuid rowUuid stats stats0
    matchData playerData s :
  wf_store s →
  is_Some (recalculatePlayerStats today0 stats0 s) →
  (∀ k mp, matchPlayers s !! k = Some mp → DBMatchPlayer.matchId mp ≠ matchUuid) →
  (is_Some (recordMatch showGameLength clock created today matchUuid rowUuid stats
              matchData playerData s)
   ↔ ValidationResult.isValid
       (validateNewMatch showGameLength clock matchData playerData) = true)
  ∧ ∀ r, recordMatch showGameLength clock created today matchUuid rowUuid stats
           matchData playerData s = Some r → r.1 = matchUuid.
Proof.
  intros Hwf Hok Hfresh. unfold recordMatch. cbv zeta.
  destruct (ValidationResult.isValid _) eqn:Hvalid; simpl.
  - pose proof (recordMatch_is_Some clock created today today0 matchUuid rowUuid stats
                  stats0 matchData playerData s Hwf Hok Hfresh Hvalid) as [r Hr].
    rewrite Hr. simpl. split; [split; [done | by eexists] |]. by intros ? [= <-].
  - split; [| done]. split; [by intros [? ?] | done].
Qed.
End RecordDelete.

Section RecordedMatch.
Context `{OpenSkill} `{Device}.
Variable showGameLength : GameLength → string.
Import FirebaseStatsService MatchService.

Lemma recalculatePlayerStats_keeps today this s r :
  wf_store s →
  recalculatePlayerStats today this s = Some r →
  wf_store r.2 ∧ matches r.2 = matches s ∧ matchPlayers r.2 = matchPlayers s
  ∧ ∀ k, is_Some (players r.2 !! k) ↔ is_Some (players s !! k).
Proof.
  intros Hwf Hrec. pose proof (recalculatePlayerStats_cases today this s Hwf) as Hc.
  rewrite Hrec in Hc. destruct Hc as (R & T & _ & _ & Hwf' & Hm & Hr & Hnone & Hsome).
  split_and!; try done. intros k. destruct (players s !! k) as [p |] eqn:Hp.
  - destruct (Hsome _ _ Hp) as (? & ? & _ & _ & ->). split; by eexists.
  - by rewrite (Hnone _ Hp).
Qed.

Lemma persistMatch_tables created matchUuid rowUuid matchData playerData s :
  let s' := persistMatch created matchUuid rowUuid matchData playerData s in
  let rows := imap (λ i playerInfo, newMatchPlayer (rowUuid i) matchUuid playerInfo)
                   playerData in
  wf_store s →
  matches s' = <[matchUuid := newMatch matchUuid matchData playerData]> (matches s)
  ∧ matchPlayers s'
    = foldl (λ m mp, <[DBMatchPlayer.id mp := mp]> m) (matchPlayers s) rows.
Proof.
  intros s' rows Hwf. unfold s', persistMatch. cbv zeta. fold rows.
  destruct (ensurePlayers_facts created playerData s Hwf) as (_ & Hm1 & Hr1 & _).
  set (s1 := ensurePlayers created playerData s) in *.
  rewrite saveNewRows, saveMatch_new; [| done |].
  - simpl. by rewrite Hm1, Hr1.
  - apply Forall_forall. by intros row (i & playerInfo & _ & ->)%elem_of_imap_inv.
Qed.

(** X15.  What [recordMatch] leaves behind.  When it returns, on fresh
    identifiers (no stored row refers to the match id, and the row ids
    differ from one another), the match is stored under the id returned,
    with the team sizes counted from the input; its rows are the rows
    built from the input, one for each participant; [canEditMatch] says
    yes for it; and [hasMatchData] is true. *)
Theorem recorded_match_stored clock created today matchUuid rowUuid stats matchData
    playerData s r :
  wf_store s →
  (∀ k mp, matchPlayers s !! k = Some mp → DBMatchPlayer.matchId mp ≠ matchUuid) →
  NoDup (rowUuid <$> seq 0 (length playerData)) →
  recordMatch showGameLength clock created today matchUuid rowUuid stats matchData
    playerData s = Some r →
  let s1 := r.2.2 in
  r.1 = matchUuid
  ∧ getMatch s1 matchUuid = Some (newMatch matchUuid matchData playerData)
  ∧ getMatchPlayers s1 matchUuid
    ≡ₚ imap (λ i playerInfo, newMatchPlayer (rowUuid i) matchUuid playerInfo) playerData
  ∧ CanEdit.canEdit (FirebaseMatchService.canEditMatch s1 matchUuid) = true
  ∧ hasMatchData s1 = true.
Proof.
  intros Hwf Hfresh Hnd Hrec s1. unfold recordMatch in Hrec. cbv zeta in Hrec.
  destruct (ValidationResult.isValid _) eqn:Hvalid; simpl in Hrec; [| done].
  destruct (recalculatePlayerStats today stats _) as [r1 |] eqn:Hrecalc; [| done].
  simpl in Hrec. injection Hrec as <-. simpl in s1.
  destruct (persistMatch_facts created matchUuid rowUuid matchData playerData s Hwf)
    as (Hwf' & Hensured & _).
  destruct (persistMatch_tables created matchUuid rowUuid matchData playerData s Hwf)
    as [Hms Hrows].
  set (s' := persistMatch created matchUuid rowUuid matchData playerData s) in *.
  set (rows := imap _ playerData) in *.
  destruct (recalculatePlayerStats_keeps today stats s' r1 Hwf' Hrecalc)
    as (Hwf1 & Hm1 & Hr1 & Hp1). fold s1 in Hwf1, Hm1, Hr1, Hp1.
  assert (NoDup (DBMatchPlayer.id <$> rows)) as Hids.
  { unfold rows. by rewrite (imap_ids _ DBMatchPlayer.id rowUuid). }
  destruct (lookup_foldl_insert_rows rows (matchPlayers s) Hids) as [Hin Hout].
  assert (∀ x, x ∈ getMatchPlayers s1 matchUuid ↔ x ∈ rows) as Helems.
  { intros x. rewrite elem_of_getMatchPlayers, Hr1, Hrows. split.
    - intros (Hid & k & Hk).
      destruct (decide (k ∈ DBMatchPlayer.id <$> rows)) as [Hk' | Hk'].
      + apply list_elem_of_fmap in Hk' as (row & -> & Hrow).
        rewrite (Hin row Hrow) in Hk. by injection Hk as <-.
      + rewrite (Hout k Hk') in Hk. by destruct (Hfresh k x Hk).
    - intros Hx. split; [| eauto].
      unfold rows in Hx. by apply elem_of_imap_inv in Hx as (i & playerInfo & _ & ->). }
  assert (getMatchPlayers s1 matchUuid ≡ₚ rows) as Hperm.
  { apply NoDup_Permutation; [by apply getMatchPlayers_NoDup | | done].
    by apply (NoDup_fmap_1 DBMatchPlayer.id). }
  assert (getMatch s1 matchUuid = Some (newMatch matchUuid matchData playerData)) as Hget.
  { unfold getMatch. rewrite Hm1, Hms. apply lookup_insert_eq. }
  assert (playerData ≠ []) as Hne.
  { intros ->. unfold validateNewMatch in Hvalid.
    apply validateMatchEdit_isValid in Hvalid as (Ht & _). done. }
  split_and!; [done | done | done | |].
  - apply canEditMatch_spec. split_and!.
    + rewrite Hget. by eexists.
    + intros Hnil. rewrite Hnil in Hperm. apply Permutation_nil_l in Hperm.
      unfold rows in Hperm. destruct playerData; done.
    + intros mp Hmp. apply Helems in Hmp. unfold rows in Hmp.
      apply elem_of_imap_inv in Hmp as (i & playerInfo & Hi & ->). simpl.
      unfold getPlayer. apply Hp1. apply Hensured. by eapply list_elem_of_lookup_2.
  - unfold hasMatchData. apply bool_decide_eq_true.
    assert (newMatch matchUuid matchData playerData ∈ getAllMatches s1) as Hin'.
    { apply elem_of_getAllMatches. eauto. }
    destruct (getAllMatches s1); [by apply elem_of_nil in Hin' | simpl; lia].
Qed.

(** X16.  [deleteMatch] on a store that can be recalculated throws exactly
    when the match is not stored.  When it returns, the match and all its
    rows are gone, every other match and row is as before, and the same
    players are stored. *)
Theorem delete_match_effect today today0 stats stats0 matchId s :
  wf_store s →
  is_Some (recalculatePlayerStats today0 stats0 s) →
  (is_Some (deleteMatch today stats matchId s) ↔ is_Some (getMatch s matchId))
  ∧ ∀ r, deleteMatch today stats matchId s = Some r →
      getMatch r.2 matchId = None
      ∧ getMatchPlayers r.2 matchId = []
      ∧ (∀ k, k ≠ matchId → matches r.2 !! k = matches s !! k)
      ∧ (∀ k mp, matchPlayers r.2 !! k = Some mp
                 ↔ matchPlayers s !! k = Some mp ∧ DBMatchPlayer.matchId mp ≠ matchId)
      ∧ (∀ k, is_Some (players r.2 !! k) ↔ is_Some (players s !! k)).
Proof.
  intros Hwf Hok. unfold deleteMatch.
  destruct (getMatch s matchId) as [m |] eqn:Hget; last first.
  { split; [| done]. split; by intros [? ?]. }
  destruct (deleteMatchAndPlayers_facts matchId s Hwf) as (Hwf' & Hp' & Hm' & Hr').
  set (s' := deleteMatchAndPlayers matchId (getMatchPlayers s matchId) s) in *.
  assert (is_Some (recalculatePlayerStats today stats s')) as [r Hrec].
  { apply (recalculable_sub today0 today stats0 stats s s'); try done.
    - intros k m'. rewrite Hm'. by intros [_ ?]%lookup_delete_Some.
    - intros k mp Hk. by apply Hr' in Hk as [? _].
    - intros k. by rewrite Hp'. }
  rewrite Hrec. split; [split; intros _; by eexists |].
  intros ? [= <-].
  destruct (recalculatePlayerStats_keeps today stats s' r Hwf' Hrec)
    as (Hwf1 & Hm1 & Hr1 & Hp1).
  split_and!.
  - unfold getMatch. rewrite Hm1, Hm'. apply lookup_delete_eq.
  - apply elem_of_nil_inv. intros mp (Hid & k & Hk)%elem_of_getMatchPlayers.
    rewrite Hr1 in Hk. apply Hr' in Hk as [_ Hne]. done.
  - intros k Hk. rewrite Hm1, Hm'. by apply lookup_delete_ne.
  - intros k mp. rewrite Hr1. apply Hr'.
  - intros k. rewrite Hp1. by rewrite Hp'.
Qed.
End RecordedMatch.

(** * Editing a match *)

Section EditMatchFacts.
Context `{OpenSkill} `{Device}.
Variable showGameLength : GameLength → string.
Import FirebaseStatsService.

Lemma updateMatchPlayers_spec updates s :
  (is_Some (FirebaseMatchService.updateMatchPlayers updates s)
   ↔ ∀ u, u ∈ updates → is_Some (matchPlayers s !! PlayerUpdate.id u))
  ∧ ∀ s', FirebaseMatchService.updateMatchPlayers updates s = Some s' →
      players s' = players s ∧ matches s' = matches s
      ∧ ∀ k, matchPlayers s' !! k = applyUpdates updates k <$> matchPlayers s !! k.
Proof.
  unfold FirebaseMatchService.updateMatchPlayers.
  revert s. induction updates as [| u updates IH]; intros s.
  { simpl. split; [split; [intros _ u Hu; by apply elem_of_nil in Hu | by eexists] |].
    intros s' [= <-]. split_and!; [done | done |]. intros k.
    unfold applyUpdates. simpl. by destruct (matchPlayers s !! k). }
  cbn [foldlM].
  destruct (matchPlayers s !! PlayerUpdate.id u) as [r0 |] eqn:Hr0; simpl.
  2: { split; [| done]. split; [by intros [? ?] |]. intros Hall.
       specialize (Hall u ltac:(by left)). rewrite Hr0 in Hall. by destruct Hall. }
  set (s1 := set_matchPlayers _ s).
  assert (∀ k, matchPlayers s1 !! k =
               if decide (PlayerUpdate.id u = k)
               then Some (MatchPlayerUpdates.apply r0 (PlayerUpdate.updates u))
               else matchPlayers s !! k) as Hs1.
  { intros k. unfold s1. simpl. apply lookup_insert. }
  destruct (IH s1) as [Hiff Hres]. split.
  - rewrite Hiff. split.
    + intros Hall u' [-> | Hu']%elem_of_cons; [rewrite Hr0; by eexists |].
      specialize (Hall u' Hu'). rewrite Hs1 in Hall.
      case_decide as Heq; [rewrite <- Heq, Hr0; by eexists | done].
    + intros Hall u' Hu'. rewrite Hs1. case_decide; [by eexists |].
      apply Hall. by right.
  - intros s' Hs'. destruct (Hres s' Hs') as (Hp & Hm & Hr).
    split_and!; [done | done |]. intros k. rewrite Hr, Hs1. unfold applyUpdates.
    destruct (decide (PlayerUpdate.id u = k)) as [Heq | Hne].
    + rewrite filter_cons_True by done. subst k. by rewrite Hr0.
    + by rewrite filter_cons_False by done.
Qed.

(** X17.  [updateMatchPlayers] throws exactly when an update names a row
    that is not stored.  When it returns, it has touched no player and no
    match, it has neither added nor removed a row, and every row has
    received the updates that name it, in the order of the list. *)
Theorem update_match_players updates s :
  (is_Some (FirebaseMatchService.updateMatchPlayers updates s)
   ↔ ∀ u, u ∈ updates → is_Some (matchPlayers s !! PlayerUpdate.id u))
  ∧ ∀ s', FirebaseMatchService.updateMatchPlayers updates s = Some s' →
      players s' = players s ∧ matches s' = matches s
      ∧ ∀ k, matchPlayers s' !! k =
             (λ row, foldl (λ row u, MatchPlayerUpdates.apply row (PlayerUpdate.updates u))
                           row (filter (λ u, PlayerUpdate.id u = k) updates))
               <$> matchPlayers s !! k.
Proof. apply updateMatchPlayers_spec. Qed.






End EditMatchFacts.

(** * The tallies in closed form *)

Section TallyFacts.
Context `{OpenSkill} `{Device}.
Import FirebaseStatsService.

Lemma totalCount_app {E} (f : E → Z) (l1 l2 : list E) :
  totalCount f (l1 ++ l2) = totalCount f l1 + totalCount f l2.
Proof. induction l1 as [| x l1 IH]; simpl; [done | rewrite IH; lia]. Qed.

Lemma updateStats_fold m (T : gmap string Stats) mps k st :
  T !! k = Some st →
  let rows := filter (λ mp, DBMatchPlayer.playerId mp = k) mps in
  let n := Z.of_nat (length rows) in
  let w := Z.of_nat (length (filter (λ mp, DBMatchPlayer.team mp = DBMatch.winningTeam m)
                                    rows)) in
  foldl (updateStats m) T mps !! k
  = Some (Stats.mk (Stats.totalGames st + n) (Stats.wins st + w)
            (Stats.losses st + (n - w))).
Proof.
  revert T st. induction mps as [| mp mps IH]; intros T st HT; cbv zeta.
  { simpl. rewrite HT. destruct st. simpl. do 2 f_equal; lia. }
  cbn [foldl]. destruct (decide (DBMatchPlayer.playerId mp = k)) as [Heq | Hne].
  - rewrite filter_cons_True by done.
    unfold updateStats at 2. rewrite Heq, HT.
    destruct (decide (DBMatchPlayer.team mp = DBMatch.winningTeam m)) as [Hw | Hl].
    + rewrite (IH _ _ (lookup_insert_eq _ _ _)). cbv zeta.
      rewrite filter_cons_True by done. simpl. do 2 f_equal; lia.
    + rewrite (IH _ _ (lookup_insert_eq _ _ _)). cbv zeta.
      rewrite filter_cons_False by done. simpl. do 2 f_equal; lia.
  - rewrite filter_cons_False by done.
    assert (updateStats m T mp !! k = Some st) as HT1.
    { unfold updateStats. destruct (T !! DBMatchPlayer.playerId mp); [| done].
      by rewrite lookup_insert_ne. }
    by rewrite (IH _ _ HT1).
Qed.

Lemma processMatch_tallies s (st st' : gmap string Rating * gmap string Stats) m k t' :
  processMatch s st m = Some st' →
  st'.2 !! k = Some t' →
  ∃ t, st.2 !! k = Some t
    ∧ Stats.totalGames t' = Stats.totalGames t + gamesOfMatch s k m
    ∧ Stats.wins t' = Stats.wins t + winsOfMatch s k m
    ∧ Stats.losses t' = Stats.losses t + (gamesOfMatch s k m - winsOfMatch s k m).
Proof.
  destruct st as [R T]. unfold processMatch.
  pose proof (skips_not_counted s m R) as Hskip.
  destruct (decide _) as [Hs | Hs].
  - intros [= <-] Hk. simpl in *. apply Hskip in Hs.
    unfold gamesOfMatch, winsOfMatch. rewrite !decide_False by done.
    exists t'. split_and!; [done | lia | lia | lia].
  - assert (counted s m) as Hc.
    { destruct (decide (counted s m)); [done |]. exfalso. apply Hs. by apply Hskip. }
    destruct (mapM _ (_ <$> (_ <$> filter (λ mp, DBMatchPlayer.team mp = Titans) _)));
      [| done]. cbn [mbind option_bind].
    destruct (mapM _ (_ <$> (_ <$> filter (λ mp, DBMatchPlayer.team mp ≠ Titans) _)));
      [| done]. cbn [mbind option_bind].
    intros [= <-] Hk. simpl in *.
    destruct (T !! k) as [t |] eqn:HT.
    + exists t. split; [done |].
      rewrite (updateStats_fold m T _ k t HT) in Hk. injection Hk as <-. simpl.
      unfold gamesOfMatch, winsOfMatch, rowsOf. rewrite !decide_True by done. lia.
    + by rewrite (updateStats_None m T _ k HT) in Hk.
Qed.

Lemma replay_tallies s l st k t :
  foldlM (processMatch s)
    (initialRatings (getAllPlayers s), initialStats (getAllPlayers s)) l = Some st →
  st.2 !! k = Some t →
  Stats.totalGames t = totalCount (gamesOfMatch s k) l
  ∧ Stats.wins t = totalCount (winsOfMatch s k) l
  ∧ Stats.losses t = totalCount (gamesOfMatch s k) l - totalCount (winsOfMatch s k) l.
Proof.
  intros Hfold. revert t.
  apply (foldlM_invariant (processMatch s)
           (λ pre st, ∀ t, st.2 !! k = Some t →
              Stats.totalGames t = totalCount (gamesOfMatch s k) pre
              ∧ Stats.wins t = totalCount (winsOfMatch s k) pre
              ∧ Stats.losses t
                = totalCount (gamesOfMatch s k) pre - totalCount (winsOfMatch s k) pre)
           l (initialRatings (getAllPlayers s), initialStats (getAllPlayers s)) st);
    [| | exact Hfold].
  - simpl. intros t. unfold initialStats. rewrite lookup_foldl_insert_const.
    case_decide; [| by rewrite lookup_empty]. by intros [= <-].
  - intros pre m st1 st2 IH Hstep t' Hk.
    destruct (processMatch_tallies s st1 st2 m k t' Hstep Hk) as (t & Ht & Hg & Hw & Hl).
    destruct (IH t Ht) as (Hg0 & Hw0 & Hl0).
    rewrite !totalCount_app. simpl. lia.
Qed.

(** X19.  The tallies in closed form.  After a recalculation, a player's
    [totalGames] is the number of rows the player has in counted matches
    (matches with a row on each side), [wins] is the number of those rows
    on the winning side, and [losses] is the rest. *)
Theorem tallies_closed_form today this s r k p :
  wf_store s →
  recalculatePlayerStats today this s = Some r →
  players r.2 !! k = Some p →
  DBPlayer.totalGames p = totalCount (gamesOfMatch s k) (getAllMatches s)
  ∧ DBPlayer.wins p = totalCount (winsOfMatch s k) (getAllMatches s)
  ∧ DBPlayer.losses p = DBPlayer.totalGames p - DBPlayer.wins p.
Proof.
  intros Hwf Hrec Hp.
  pose proof (recalculatePlayerStats_cases today this s Hwf) as Hc. rewrite Hrec in Hc.
  destruct Hc as (R & T & Hreplay & _ & _ & _ & _ & Hnone & Hsome).
  destruct (players s !! k) as [p0 |] eqn:Hp0; [| by rewrite (Hnone _ Hp0) in Hp].
  destruct (Hsome _ _ Hp0) as (t & rt & HT & _ & Hk). rewrite Hk in Hp. injection Hp as <-.
  destruct (replay_tallies s _ (R, T) k t Hreplay HT) as (Hg & Hw & Hl).
  unfold sortByDate in Hg, Hw, Hl.
  rewrite (totalCount_array_sort (gamesOfMatch s k)) in Hg, Hl.
  rewrite (totalCount_array_sort (winsOfMatch s k)) in Hw, Hl.
  unfold withDeviceId. destruct (falsy _); simpl; lia.
Qed.
End TallyFacts.

(** * Export and import *)

Section ImportExportFacts.
Context `{OpenSkill} `{Device}.
Import FirebaseStatsService FirebaseImportExportService.

Lemma foldl_app_bind {A B} (f : A → list B) (l : list A) (acc : list B) :
  foldl (λ acc x, acc ++ f x) acc l = acc ++ (l ≫= f).
Proof.
  revert acc. induction l as [| x l IH]; intros acc; cbn [foldl].
  - simpl. by rewrite app_nil_r.
  - rewrite IH, bind_cons. by rewrite <- app_assoc.
Qed.

Lemma getAllMatches_NoDup s : wf_store s → NoDup (getAllMatches s).
Proof.
  intros Hwf. unfold getAllMatches. apply (NoDup_fmap_1 DBMatch.id).
  assert (DBMatch.id <$> (map_to_list (matches s)).*2 = (map_to_list (matches s)).*1) as ->.
  { rewrite <- list_fmap_compose. apply list_fmap_ext. intros i [k m] Hk.
    simpl. apply (wf_matches s Hwf).
    apply elem_of_map_to_list. by eapply list_elem_of_lookup_2. }
  apply NoDup_fst_map_to_list.
Qed.

Lemma getAllMatchPlayers_NoDup s : wf_store s → NoDup (getAllMatchPlayers s).
Proof.
  intros Hwf. unfold getAllMatchPlayers. apply (NoDup_fmap_1 DBMatchPlayer.id).
  assert (DBMatchPlayer.id <$> (map_to_list (matchPlayers s)).*2
          = (map_to_list (matchPlayers s)).*1) as ->.
  { rewrite <- list_fmap_compose. apply list_fmap_ext. intros i [k mp] Hk.
    simpl. apply (wf_matchPlayers s Hwf).
    apply elem_of_map_to_list. by eapply list_elem_of_lookup_2. }
  apply NoDup_fst_map_to_list.
Qed.

Lemma elem_of_getAllMatchPlayers s mp :
  mp ∈ getAllMatchPlayers s ↔ ∃ k, matchPlayers s !! k = Some mp.
Proof.
  unfold getAllMatchPlayers. rewrite list_elem_of_fmap. split.
  - intros ([k v] & -> & Hin). exists k. by apply elem_of_map_to_list.
  - intros [k Hk]. exists (k, mp). split; [done | by apply elem_of_map_to_list].
Qed.

Lemma exported_rows s today :
  wf_store s →
  ExportData.matchPlayers (exportData today s)
  ≡ₚ filter (λ mp, is_Some (matches s !! DBMatchPlayer.matchId mp)) (getAllMatchPlayers s).
Proof.
  intros Hwf. unfold exportData. cbv zeta. cbn [ExportData.matchPlayers].
  rewrite foldl_app_bind. simpl.
  apply NoDup_Permutation.
  - apply NoDup_bind.
    + intros m1 m2 mp (k1 & Hk1)%elem_of_getAllMatches (k2 & Hk2)%elem_of_getAllMatches
        [Hid1 _]%elem_of_getMatchPlayers [Hid2 _]%elem_of_getMatchPlayers.
      pose proof (wf_matches s Hwf _ _ Hk1). pose proof (wf_matches s Hwf _ _ Hk2).
      assert (k1 = k2) as -> by congruence. congruence.
    + intros m _. by apply getMatchPlayers_NoDup.
    + by apply getAllMatches_NoDup.
  - apply NoDup_filter. by apply getAllMatchPlayers_NoDup.
  - intros mp. rewrite list_elem_of_bind, list_elem_of_filter, elem_of_getAllMatchPlayers.
    split.
    + intros (m & [Hid Hk]%elem_of_getMatchPlayers & (k' & Hk')%elem_of_getAllMatches).
      split; [| done]. rewrite Hid, (wf_matches s Hwf _ _ Hk'). by eexists.
    + intros [[m Hm] Hk]. exists m. split.
      * apply elem_of_getMatchPlayers. split; [| done].
        symmetry. by apply (wf_matches s Hwf).
      * apply elem_of_getAllMatches. eauto.
Qed.

(** X20.  What [exportData] hands on.  From a store keyed by ids, the
    export lists every stored player and every stored match, and each
    stored row whose match is stored, once; a row whose match is not stored
    is left out. *)
Theorem export_contents today s :
  wf_store s →
  let data := exportData today s in
  ExportData.players data = getAllPlayers s
  ∧ ExportData.matches data = getAllMatches s
  ∧ ExportData.matchPlayers data
    ≡ₚ filter (λ mp, is_Some (matches s !! DBMatchPlayer.matchId mp))
              (getAllMatchPlayers s)
  ∧ (∀ mp, mp ∈ ExportData.matchPlayers data
           ↔ (∃ k, matchPlayers s !! k = Some mp)
             ∧ is_Some (matches s !! DBMatchPlayer.matchId mp))
  ∧ ExportData.version data = 4.
Proof.
  intros Hwf data. split_and!; [done | done | by apply exported_rows | | done].
  intros mp. unfold data. rewrite (exported_rows s today Hwf).
  rewrite list_elem_of_filter, elem_of_getAllMatchPlayers. tauto.
Qed.

(** Writing the records of a table back into the empty table. *)
Lemma foldl_insert_all {V} (key : V → string) (l : list V) (m : gmap string V) :
  NoDup (key <$> l) →
  (∀ v, v ∈ l ↔ ∃ k, m !! k = Some v) →
  (∀ k v, m !! k = Some v → key v = k) →
  foldl (λ m v, <[key v := v]> m) ∅ l = m.
Proof.
  intros Hnd Hin Hwf.
  assert (∀ (l : list V) (m0 : gmap string V), NoDup (key <$> l) →
            (∀ v, v ∈ l → foldl (λ m v, <[key v := v]> m) m0 l !! key v = Some v)
            ∧ (∀ k, k ∉ key <$> l → foldl (λ m v, <[key v := v]> m) m0 l !! k = m0 !! k))
    as Hlookup.
  { clear. intros l m0. induction l as [| v l IH] using rev_ind; intros Hnd.
    { split; [intros v Hv; by apply elem_of_nil in Hv | done]. }
    rewrite fmap_app in Hnd. apply NoDup_app in Hnd as (Hnd & Hdisj & _).
    destruct (IH Hnd) as [Hin Hout]. rewrite foldl_app. simpl. split.
    - intros v' [Hv' | ->%list_elem_of_singleton]%elem_of_app.
      + rewrite lookup_insert_ne; [by apply Hin |].
        intros Heq. apply (Hdisj (key v')).
        * apply list_elem_of_fmap. eauto.
        * rewrite <- Heq. by left.
      + apply lookup_insert_eq.
    - intros k Hk. rewrite fmap_app, elem_of_app in Hk.
      rewrite lookup_insert_ne; [apply Hout; tauto |].
      intros <-. apply Hk. right. by left. }
  destruct (Hlookup l ∅ Hnd) as [Hl1 Hl2].
  apply map_eq. intros k. destruct (m !! k) as [v |] eqn:Hk.
  - rewrite <- (Hwf k v Hk). apply Hl1. apply Hin. eauto.
  - rewrite Hl2; [done |]. intros (v & -> & Hv)%list_elem_of_fmap.
    apply Hin in Hv as [k' Hk']. rewrite (Hwf _ _ Hk') in Hk. congruence.
Qed.

Lemma savePlayers_all (l : list DBPlayer) s :
  Forall (λ p, falsy (DBPlayer.deviceId p) = false) l →
  foldl (λ s player, savePlayer player s) s l
  = set_players (λ m, foldl (λ m p, <[DBPlayer.id p := p]> m) m l) s.
Proof.
  revert s. induction l as [| p l IH]; intros s Hall; simpl; [by destruct s |].
  apply Forall_cons in Hall as [Hp Hall]. rewrite IH by done.
  unfold savePlayer, withDeviceId. rewrite Hp. by destruct s.
Qed.

Lemma saveMatches_all (uuid : nat → string) (l : list DBMatch) s :
  Forall (λ m, DBMatch.id m ≠ "" ∧ falsy (DBMatch.deviceId m) = false) l →
  foldl (λ s '(i, m), (FirebaseMatchService.saveMatch (uuid i) m s).2) s (imap pair l)
  = set_matches (λ t, foldl (λ t m, <[DBMatch.id m := m]> t) t l) s.
Proof.
  change pair with (λ (i : nat) (x : DBMatch), (id i, x)). generalize (@id nat).
  revert s. induction l as [| m l IH]; intros s f Hall; simpl; [by destruct s |].
  apply Forall_cons in Hall as [[Hid Hd] Hall].
  rewrite (IH _ (f ∘ S)) by done.
  unfold FirebaseMatchService.saveMatch. rewrite decide_False by done. cbv zeta.
  rewrite Hd. by destruct s.
Qed.

Lemma saveRows_all (uuid : nat → string) (l : list DBMatchPlayer) s :
  Forall (λ mp, DBMatchPlayer.id mp ≠ "" ∧ falsy (DBMatchPlayer.deviceId mp) = false) l →
  foldl (λ s '(i, mp), (FirebaseMatchService.saveMatchPlayer (uuid i) mp s).2) s
        (imap pair l)
  = set_matchPlayers (λ t, foldl (λ t mp, <[DBMatchPlayer.id mp := mp]> t) t l) s.
Proof.
  change pair with (λ (i : nat) (x : DBMatchPlayer), (id i, x)). generalize (@id nat).
  revert s. induction l as [| mp l IH]; intros s f Hall; simpl; [by destruct s |].
  apply Forall_cons in Hall as [[Hid Hd] Hall].
  rewrite (IH _ (f ∘ S)) by done.
  unfold FirebaseMatchService.saveMatchPlayer. rewrite decide_False by done. cbv zeta.
  rewrite Hd. by destruct s.
Qed.

(** X21.  Export, then import.  From a store keyed by ids in which every
    record carries a device id, no match or row has the empty id, and
    every row belongs to a stored match, importing the export (in the
    default mode) into any store whatever rebuilds the three tables as they
    were and recalculates: the import answers [true] and leaves what
    [recalculatePlayerStats] makes of the original store, or answers
    [false] and leaves the original store when the recalculation throws. *)
Theorem export_import_roundtrip today exportDate stats matchUuid rowUuid s s0 :
  wf_store s →
  exportable s →
  importData today stats matchUuid rowUuid (exportData exportDate s) s0
  = match recalculatePlayerStats today stats s with
    | Some r => (true, r.2)
    | None => (false, s)
    end.
Proof.
  intros Hwf (Hps & Hms & Hrs).
  pose proof (exported_rows s exportDate Hwf) as Hrows.
  unfold importData. cbv zeta.
  set (data := exportData exportDate s) in *.
  assert (ExportData.players data = getAllPlayers s) as -> by done.
  assert (ExportData.matches data = getAllMatches s) as -> by done.
  assert (∀ mp, mp ∈ ExportData.matchPlayers data ↔ ∃ k, matchPlayers s !! k = Some mp)
    as Hrows_in.
  { intros mp. rewrite Hrows, list_elem_of_filter, elem_of_getAllMatchPlayers.
    split; [tauto |]. intros [k Hk]. split; [| eauto]. by apply (Hrs k mp Hk). }
  set (rows := ExportData.matchPlayers data) in *. clearbody rows. clear data.
  rewrite savePlayers_all; last first.
  { apply Forall_forall. intros p [k Hk]%elem_of_getAllPlayers. by apply (Hps k p Hk). }
  rewrite saveMatches_all; last first.
  { apply Forall_forall. intros m [k Hk]%elem_of_getAllMatches.
    rewrite (wf_matches s Hwf k m Hk). by apply (Hms k m Hk). }
  rewrite saveRows_all; last first.
  { apply Forall_forall. intros mp [k Hk]%Hrows_in.
    rewrite (wf_matchPlayers s Hwf k mp Hk).
    destruct (Hrs k mp Hk) as (? & ? & _). done. }
  unfold clearAllData, set_players, set_matches, set_matchPlayers. simpl.
  rewrite (foldl_insert_all DBPlayer.id (getAllPlayers s) (players s)); first last.
  { apply (wf_players s Hwf). }
  { intros p. apply elem_of_getAllPlayers. }
  { by apply getAllPlayers_ids_NoDup. }
  rewrite (foldl_insert_all DBMatch.id (getAllMatches s) (matches s)); first last.
  { apply (wf_matches s Hwf). }
  { intros m. apply elem_of_getAllMatches. }
  { apply (NoDup_fmap_2_strong DBMatch.id); [| by apply getAllMatches_NoDup].
    intros m1 m2 (k1 & Hk1)%elem_of_getAllMatches (k2 & Hk2)%elem_of_getAllMatches Heq.
    rewrite (wf_matches s Hwf _ _ Hk1), (wf_matches s Hwf _ _ Hk2) in Heq. congruence. }
  rewrite (foldl_insert_all DBMatchPlayer.id rows (matchPlayers s)); first last.
  { apply (wf_matchPlayers s Hwf). }
  { done. }
  { apply (NoDup_fmap_2_strong DBMatchPlayer.id).
    - intros r1 r2 (k1 & Hk1)%Hrows_in (k2 & Hk2)%Hrows_in Heq.
      rewrite (wf_matchPlayers s Hwf _ _ Hk1), (wf_matchPlayers s Hwf _ _ Hk2) in Heq.
      congruence.
    - rewrite Hrows. apply NoDup_filter. by apply getAllMatchPlayers_NoDup. }
  assert (mkStore (players s) (matches s) (matchPlayers s) = s) as -> by by destruct s.
  by destruct (recalculatePlayerStats today stats s) as [[? ?] |].
Qed.
End ImportExportFacts.

(** * Matchmaking: the point estimate, the rating cache and the balance *)

Section MatchMakingMore.
Context `{OpenSkill} `{Numerics}.
Import MatchMakingService.


Lemma loaded_nonempty s :
  getAllPlayers s ≠ [] →
  size (foldl (λ R player, <[DBPlayer.id player := storedRating player]> R)
              (∅ : gmap string Rating) (getAllPlayers s)) ≠ 0%nat.
Proof.
  intros Hne. destruct (getAllPlayers s) as [| p l] using rev_ind; [done |].
  rewrite foldl_app. simpl. rewrite map_size_non_empty_iff. apply insert_non_empty.
Qed.

Lemma ensureRatingsInitialized_loaded s this :
  size (playerRatings this) ≠ 0%nat ∨ getAllPlayers s ≠ [] →
  size (playerRatings (ensureRatingsInitialized s this)) ≠ 0%nat.
Proof.
  intros Hor. unfold ensureRatingsInitialized.
  destruct (decide (size (playerRatings this) = 0%nat)) as [Hz | Hnz]; [| done].
  simpl. apply loaded_nonempty. by destruct Hor.
Qed.

Lemma ensureRatingsInitialized_kept s this :
  size (playerRatings this) ≠ 0%nat → ensureRatingsInitialized s this = this.
Proof. intros Hnz. unfold ensureRatingsInitialized. by rewrite decide_False. Qed.

(** X23.  The ratings are loaded once.  After a win-probability call on a
    store that holds a player, or on a service that already holds ratings,
    the service holds ratings, and from then on neither function reads the
    store: whatever the store has become, their answers are the same and
    the service is left as it is. *)
Theorem ratings_loaded_once s this team1Players team2Players :
  let this1 := (calculateWinProbabilityWithCI s this team1Players team2Players).2 in
  size (playerRatings this) ≠ 0%nat ∨ getAllPlayers s ≠ [] →
  (calculateWinProbability s this team1Players team2Players).2 = this1
  ∧ ∀ s1 s2 team1 team2,
      calculateWinProbabilityWithCI s1 this1 team1 team2
        = calculateWinProbabilityWithCI s2 this1 team1 team2
      ∧ calculateWinProbability s1 this1 team1 team2
        = calculateWinProbability s2 this1 team1 team2
      ∧ (calculateWinProbabilityWithCI s1 this1 team1 team2).2 = this1.
Proof.
  intros this1 Hor. split; [reflexivity |].
  assert (size (playerRatings this1) ≠ 0%nat) as Hnz.
  { by apply ensureRatingsInitialized_loaded. }
  intros s1 s2 team1 team2.
  unfold calculateWinProbabilityWithCI, calculateWinProbability. cbv zeta.
  rewrite !(ensureRatingsInitialized_kept _ this1 Hnz). done.
Qed.
End MatchMakingMore.

Section BalanceFacts.
Context `{OpenSkill} `{Numerics}.
Import MatchMakingService.

Lemma teamTotal_snoc weight team p :
  teamTotal weight (team ++ [p]) = teamTotal weight team + weight p.
Proof. unfold teamTotal. by rewrite foldl_app. Qed.

Lemma greedy_gap weight M l teamA teamB :
  (∀ p, p ∈ l → 0 ≤ weight p ≤ M) →
  Z.abs (teamTotal weight teamA - teamTotal weight teamB) ≤ M →
  let r := greedyBySum weight l teamA teamB
             (teamTotal weight teamA) (teamTotal weight teamB) in
  Z.abs (teamTotal weight r.1 - teamTotal weight r.2) ≤ M.
Proof.
  revert teamA teamB. induction l as [| p l IH]; intros teamA teamB Hw Hgap; [done |].
  simpl. assert (0 ≤ weight p ≤ M) as Hp by (apply Hw; by left).
  assert (∀ q, q ∈ l → 0 ≤ weight q ≤ M) as Hl by (intros q Hq; apply Hw; by right).
  case_decide.
  - rewrite <- teamTotal_snoc. apply IH; [done |]. rewrite teamTotal_snoc. lia.
  - rewrite <- teamTotal_snoc. apply IH; [done |]. rewrite teamTotal_snoc. lia.
Qed.

Lemma greedy_first weight p l :
  (greedyBySum weight (p :: l) [] [] 0 0).1 ≠ [].
Proof.
  assert (∀ l A B a b, p ∈ A → (greedyBySum weight l A B a b).1 ≠ []) as Hkeep.
  { clear. induction l as [| q l IH]; intros A B a b HA; simpl.
    - intros ->. by apply elem_of_nil in HA.
    - case_decide; apply IH; [apply elem_of_app; by left | done]. }
  cbn [greedyBySum]. destruct (decide (0 ≤ 0)); [| lia].
  apply Hkeep. by left.
Qed.

Lemma balanced_teams weight M (sorted : list DBPlayer) :
  sorted ≠ [] →
  (∀ p, p ∈ sorted → 0 ≤ weight p ≤ M) →
  let r := greedyBySum weight sorted [] [] 0 0 in
  r.1 ++ r.2 ≡ₚ sorted
  ∧ r.1 ≠ []
  ∧ Z.abs (teamTotal weight r.1 - teamTotal weight r.2) ≤ M.
Proof.
  intros Hne Hw r. split_and!.
  - unfold r. by rewrite greedyBySum_perm.
  - unfold r. destruct sorted as [| p l]; [done |]. apply greedy_first.
  - apply (greedy_gap weight M sorted [] []); [done |].
    destruct sorted as [| p l]; [done |]. specialize (Hw p ltac:(by left)).
    unfold teamTotal. simpl. lia.
Qed.

(** X24.  How far apart the balanced teams can be.  When at least four
    stored players are selected and their weights (display ratings for
    [generateBalancedTeams], games played for
    [generateBalancedTeamsByExperience]) lie between 0 and [M], the two
    teams returned are the ids of two lists of players that together are
    the selected players, the first of them is not empty, and their totals
    differ by at most [M]. *)
Theorem balance_gap s this playerIds M :
  let selected := selectPlayers s playerIds in
  (4 ≤ length selected)%nat →
  ((∀ p, p ∈ selected → 0 ≤ getDisplayRating p ≤ M) →
   ∃ team1 team2,
     (generateBalancedTeams s this playerIds).1
       = (DBPlayer.id <$> team1, DBPlayer.id <$> team2)
     ∧ team1 ++ team2 ≡ₚ selected ∧ team1 ≠ []
     ∧ Z.abs (teamTotal getDisplayRating team1 - teamTotal getDisplayRating team2) ≤ M)
  ∧ ((∀ p, p ∈ selected → 0 ≤ DBPlayer.totalGames p ≤ M) →
     ∃ team1 team2,
       generateBalancedTeamsByExperience s playerIds
         = (DBPlayer.id <$> team1, DBPlayer.id <$> team2)
       ∧ team1 ++ team2 ≡ₚ selected ∧ team1 ≠ []
       ∧ Z.abs (teamTotal DBPlayer.totalGames team1
                - teamTotal DBPlayer.totalGames team2) ≤ M).
Proof.
  intros selected Hlen.
  assert (∀ cmp, array_sort cmp selected ≠ []) as Hne.
  { intros cmp Hnil. pose proof (array_sort_perm cmp selected) as Hp.
    rewrite Hnil in Hp. apply Permutation_nil_l in Hp. rewrite <- Hp in Hlen.
    simpl in Hlen. lia. }
  split; intros Hw.
  - rewrite generateBalancedTeams_teams by done. cbv zeta. fold selected.
    set (sorted := array_sort _ selected).
    destruct (balanced_teams getDisplayRating M sorted) as (Hperm & Hfirst & Hgap).
    { apply Hne. }
    { intros p Hp. apply Hw. by apply array_sort_elem_of in Hp. }
    eexists _, _. split_and!; [reflexivity | | done | done].
    rewrite Hperm. apply array_sort_perm.
  - rewrite generateBalancedTeamsByExperience_teams by done. cbv zeta. fold selected.
    set (sorted := array_sort _ selected).
    destruct (balanced_teams DBPlayer.totalGames M sorted) as (Hperm & Hfirst & Hgap).
    { apply Hne. }
    { intros p Hp. apply Hw. by apply array_sort_elem_of in Hp. }
    eexists _, _. split_and!; [reflexivity | | done | done].
    rewrite Hperm. apply array_sort_perm.
Qed.

Lemma array_sort_unchanged {A} (cmp : A → A → Z) (l : list A) :
  (∀ x y, x ∈ l → y ∈ l → cmp x y ≤ 0) → array_sort cmp l = l.
Proof.
  induction l as [| x l IH]; intros Hc; [done |]. simpl.
  rewrite IH by (intros y z ? ?; apply Hc; by right).
  destruct l as [| y l]; [done |]. simpl.
  rewrite decide_True; [done |]. apply Hc; [by left | right; by left].
Qed.

Lemma greedy_all_zero weight l teamA teamB :
  (∀ p, p ∈ l → weight p = 0) →
  greedyBySum weight l teamA teamB 0 0 = (teamA ++ l, teamB).
Proof.
  revert teamA. induction l as [| p l IH]; intros teamA Hz; cbn [greedyBySum].
  - by rewrite app_nil_r.
  - destruct (decide (0 ≤ 0)); [| lia]. rewrite (Hz p) by (by left).
    change (0 + 0) with 0.
    rewrite IH by (intros q Hq; apply Hz; by right).
    by rewrite <- app_assoc.
Qed.

(** X25.  When none of the selected players (at least four) has played a
    game, [generateBalancedTeamsByExperience] does not split them: team 1
    is all of them, in the order the store lists them, and team 2 is
    empty. *)
Theorem experience_all_new s playerIds :
  let selected := selectPlayers s playerIds in
  (4 ≤ length selected)%nat →
  (∀ p, p ∈ selected → DBPlayer.totalGames p = 0) →
  generateBalancedTeamsByExperience s playerIds = (DBPlayer.id <$> selected, []).
Proof.
  intros selected Hlen Hz.
  rewrite generateBalancedTeamsByExperience_teams by done. cbv zeta. fold selected.
  rewrite array_sort_unchanged.
  - by rewrite greedy_all_zero.
  - intros x y Hx Hy. rewrite (Hz x Hx), (Hz y Hy). lia.
Qed.
End BalanceFacts.

(** * The game timer *)

Section GameFacts.
Import App.

Lemma validState_initial (random : Q) : validState (createInitialGameState random).
Proof.
  unfold validState, createInitialGameState; simpl.
  split_and!; try lia.
  apply map_Forall_singleton. unfold validLane; simpl; lia.
Qed.

Lemma validState_adjustWave (newWave : LaneState → Z) (state : GameState) (lane : Lane) :
  (∀ laneState, validLane laneState →
     1 ≤ newWave laneState ≤ LaneState.totalWaves laneState) →
  validState state → validState (adjustWave newWave state lane).
Proof.
  intros Hnew (Hr & Ht & Hl1 & Hl2 & Hw).
  unfold adjustWave.
  repeat case_decide; try done.
  - destruct (GameState.waves state !! Single) as [laneState|] eqn:E; [|done].
    refine (conj Hr (conj Ht (conj Hl1 (conj Hl2 _)))); simpl.
    apply map_Forall_insert_2; [|done].
    unfold validLane; simpl. apply Hnew. by apply (Hw Single).
  - destruct (GameState.waves state !! lane) as [laneState|] eqn:E; [|done].
    refine (conj Hr (conj Ht (conj Hl1 (conj Hl2 _)))); simpl.
    apply map_Forall_insert_2; [|done].
    unfold validLane; simpl. apply Hnew. by apply (Hw lane).
Qed.

Lemma validState_gameReducer (playersLength : nat) (random : Q)
    (state : GameState) (action : GameAction) :
  validState state → validAction action →
  validState (gameReducer playersLength random state action).
Proof.
  intros Hst Hact.
  destruct action; simpl.
  - exact Hact.
  - exact Hst.
  - exact Hst.
  - case_decide; exact Hst.
  - destruct (bool_decide _); exact Hst.
  - destruct Hst as (Hr & Ht & Hl1 & Hl2 & Hw).
    case_decide; unfold validState; simpl; split_and!; try done; lia.
  - destruct Hst as (Hr & Ht & Hl1 & Hl2 & Hw).
    unfold validState, setKey; simpl.
    split_and!; try done; repeat case_decide; lia.
  - apply validState_adjustWave; [|done].
    unfold validLane. intros laneState. simpl. lia.
  - apply validState_adjustWave; [|done].
    unfold validLane. intros laneState. simpl. lia.
  - destruct Hst as (Hr & Ht & Hl1 & Hl2 & Hw).
    unfold validState; simpl. split_and!; try done; lia.
  - destruct Hst as (Hr & Ht & Hl1 & Hl2 & Hw).
    unfold validState; simpl. split_and!; try done; lia.
  - exact Hst.
  - apply validState_initial.
  - exact Hst.
Qed.

(** X26.  Whatever actions the game screen dispatches, in whatever order,
    the counters stay in range: from a valid state, and with every
    [START_GAME] carrying a valid state, the reducer ends in a state whose
    round is at least 1, whose turn is between 1 and 4, whose team lives are
    not negative and whose wave counters are between 1 and the lane's number
    of waves. *)
Theorem game_counters_in_range (playersLength : nat) (state : GameState)
    (actions : list (Q * GameAction)) :
  validState state →
  Forall (λ step, validAction step.2) actions →
  validState (dispatchAll playersLength state actions).
Proof.
  intros Hst Hacts. revert state Hst.
  induction Hacts as [|[random action] actions Hact _ IH]; intros state Hst.
  - exact Hst.
  - simpl. apply IH. by apply validState_gameReducer.
Qed.

(** X27.  The state the application starts in and the state
    [startGameWithPlayers] builds for any game length, player count and lane
    option are valid: both teams get the same number of lives, between 4 and
    8, every wave counter starts at 1, and the lanes in play are the single
    lane, or the top and the bottom lane when there are several lanes. *)
Theorem start_states_valid (random : Q) (gameLength : GameLength) (playerCount : Z)
    (useDoubleLaneFor6Players : bool) (coinSide : Team) :
  let start := startGameState gameLength playerCount useDoubleLaneFor6Players coinSide in
  validState (createInitialGameState random)
  ∧ validState start
  ∧ GameState.teamLives start Titans = GameState.teamLives start Atlanteans
  ∧ 4 ≤ GameState.teamLives start Titans ≤ 8
  ∧ map_Forall (λ _ laneState, LaneState.currentWave laneState = 1)
               (GameState.waves start)
  ∧ dom (GameState.waves start)
    = (if GameState.hasMultipleLanes start then {[Top; Bottom]} else {[Single]} : gset Lane).
Proof.
  intros start.
  split; [apply validState_initial|].
  assert (Hlives : 4 ≤ calculateTeamLives gameLength playerCount useDoubleLaneFor6Players ≤ 8).
  { unfold calculateTeamLives. repeat case_decide; lia. }
  unfold start, startGameState, validState, getInitialLaneState; simpl.
  case_decide; simpl.
  - repeat apply conj; try lia.
    + apply map_Forall_insert_2; [unfold validLane; simpl; lia|].
      apply map_Forall_insert_2; [unfold validLane; simpl; lia|].
      apply map_Forall_empty.
    + apply map_Forall_insert_2; [done|].
      apply map_Forall_insert_2; [done|]. apply map_Forall_empty.
    + rewrite !dom_insert_L, dom_empty_L. set_solver.
  - repeat apply conj; try lia.
    + apply map_Forall_insert_2; [|apply map_Forall_empty].
      unfold validLane; simpl. case_decide; lia.
    + apply map_Forall_insert_2; [done|apply map_Forall_empty].
    + rewrite !dom_insert_L, dom_empty_L. set_solver.
Qed.

(** X28.  Turns cycle through 1 to 4: [START_NEXT_TURN] moves to the next
    turn of the round, or from turn 4 to turn 1 of the next round, returns
    to the strategy phase and clears the list of players who have moved; so
    four of them in a row end in the same turn, one round later. *)
Theorem turns_cycle (playersLength : nat) (random : Q) (state : GameState) :
  1 ≤ GameState.turn state ≤ 4 →
  let next := gameReducer playersLength random state START_NEXT_TURN in
  let later := dispatchAll playersLength state (replicate 4 (random, START_NEXT_TURN)) in
  GameState.turn next = GameState.turn state `mod` 4 + 1
  ∧ GameState.round next
    = GameState.round state + (if decide (GameState.turn state = 4) then 1 else 0)
  ∧ GameState.currentPhase next = strategy
  ∧ GameState.completedTurns next = []
  ∧ GameState.allPlayersMoved next = false
  ∧ GameState.turn later = GameState.turn state
  ∧ GameState.round later = GameState.round state + 1.
Proof.
  intros Ht next later.
  assert (Hcases : GameState.turn state = 1 ∨ GameState.turn state = 2
                   ∨ GameState.turn state = 3 ∨ GameState.turn state = 4) by lia.
  unfold next, later, dispatchAll. simpl.
  destruct Hcases as [E|[E|[E|E]]]; rewrite !E; simpl; split_and!; try done; lia.
Qed.

Lemma withWaves_same (state : GameState) : withWaves state (GameState.waves state) = state.
Proof. by destruct state. Qed.

(** X29.  The wave buttons undo each other and stop at the ends.  For a
    lane in play whose counter is below the lane's number of waves,
    incrementing and then decrementing gives the state back; at the last
    wave incrementing changes nothing, and at wave 1 decrementing changes
    nothing.  An action for a lane that is not in play (the single lane
    when there are several lanes, the top or bottom lane when there is one)
    changes nothing either. *)
Theorem wave_buttons (playersLength : nat) (random : Q) (state : GameState)
    (lane : Lane) (laneState : LaneState) :
  GameState.waves state !! lane = Some laneState →
  GameState.hasMultipleLanes state = bool_decide (lane ≠ Single) →
  let reduce := gameReducer playersLength random in
  let other := if GameState.hasMultipleLanes state then Single else Top in
  (1 ≤ LaneState.currentWave laneState < LaneState.totalWaves laneState →
   reduce (reduce state (INCREMENT_WAVE lane)) (DECREMENT_WAVE lane) = state)
  ∧ (LaneState.currentWave laneState = LaneState.totalWaves laneState →
     reduce state (INCREMENT_WAVE lane) = state)
  ∧ (LaneState.currentWave laneState = 1 →
     reduce state (DECREMENT_WAVE lane) = state)
  ∧ reduce state (INCREMENT_WAVE other) = state
  ∧ reduce state (DECREMENT_WAVE other) = state.
Proof.
  intros Hlane Hmulti reduce other.
  assert (Hstep : ∀ newWave st ls,
            GameState.waves st !! lane = Some ls →
            GameState.hasMultipleLanes st = bool_decide (lane ≠ Single) →
            adjustWave newWave st lane
            = withWaves st (<[lane := LaneState.mk (newWave ls) (LaneState.totalWaves ls)]>
                              (GameState.waves st))).
  { intros newWave st ls Hl Hm. unfold adjustWave.
    destruct lane; rewrite Hm; simpl; by rewrite Hl. }
  assert (Hid : ∀ newWave,
            newWave laneState = LaneState.currentWave laneState →
            adjustWave newWave state lane = state).
  { intros newWave Hsame. rewrite (Hstep _ _ _ Hlane Hmulti), Hsame.
    replace (LaneState.mk _ _) with laneState by by destruct laneState.
    rewrite insert_id by done. apply withWaves_same. }
  split_and!.
  - intros Hrange. unfold reduce; simpl.
    rewrite (Hstep _ state laneState Hlane Hmulti).
    erewrite (Hstep _ (withWaves _ _)); [|simpl; apply lookup_insert_eq|exact Hmulti].
    simpl. rewrite insert_insert_eq. unfold withWaves at 1; simpl.
    fold (withWaves state).
    replace (LaneState.mk _ _) with laneState
      by (destruct laneState; simpl in *; f_equal; lia).
    rewrite insert_id by done. apply withWaves_same.
  - intros Hlast. unfold reduce; simpl. apply Hid. lia.
  - intros Hfirst. unfold reduce; simpl. apply Hid. lia.
  - unfold reduce, other; simpl. unfold adjustWave.
    by destruct (GameState.hasMultipleLanes state).
  - unfold reduce, other; simpl. unfold adjustWave.
    by destruct (GameState.hasMultipleLanes state).
Qed.

(** X30.  The draft order is fair and sized by the player count: for 3 to
    10 players, the sequence has as many picks as there are players, rounded
    up to an even number, and as many bans; each team makes half of the
    picks and half of the bans. *)
Theorem pick_ban_counts (playerCount : Z) :
  3 ≤ playerCount ≤ 10 →
  let sequence := generatePickBanSequence playerCount in
  let rounded := playerCount + playerCount `mod` 2 in
  Z.of_nat (length (stepsOf pick sequence)) = rounded
  ∧ Z.of_nat (length (stepsOf ban sequence)) = rounded
  ∧ length (stepsOfTeam A (stepsOf pick sequence))
    = length (stepsOfTeam B (stepsOf pick sequence))
  ∧ length (stepsOfTeam A (stepsOf ban sequence))
    = length (stepsOfTeam B (stepsOf ban sequence)).
Proof.
  intros Hrange sequence rounded.
  assert (Hcases : playerCount = 3 ∨ playerCount = 4 ∨ playerCount = 5 ∨ playerCount = 6
                   ∨ playerCount = 7 ∨ playerCount = 8 ∨ playerCount = 9
                   ∨ playerCount = 10) by lia.
  unfold sequence, rounded.
  destruct Hcases as [->|[->|[->|[->|[->|[->|[->| ->]]]]]]]; by vm_compute.
Qed.
End GameFacts.

(** * Instances of the further properties *)

Lemma generateUUID_shape_witness : uuidShape (utils.generateUUID sampleRandom).
Proof.
  apply generateUUID_shape.
  intros i. unfold sampleRandom. destruct (Nat.even i); split; by compute.
Defined.

Lemma no_games_deletable_witness :
  ((deletePlayer "zed" sampleStore).1 = true
   ↔ "zed" ∈ DBPlayer.id <$> getPlayersWithNoGames sampleStore)
  ∧ ((deletePlayer "zed" sampleStore).1 = false
     → (deletePlayer "zed" sampleStore).2 = sampleStore).
Proof. apply (no_games_deletable sampleStore "zed"). compute_done. Defined.

Lemma delete_after_recalculation_witness :
  let r := deletePlayer "zed" sampleRecalculated.2 in
  (r.1 = true ↔ is_Some (players sampleStore !! "zed") ∧ ¬ hasCountedGame sampleStore "zed")
  ∧ (r.1 = true →
       players r.2 = delete "zed" (players sampleRecalculated.2)
       ∧ matches r.2 = matches sampleStore
       ∧ matchPlayers r.2 = matchPlayers sampleStore
       ∧ is_Some (FirebaseStatsService.recalculatePlayerStats (λ _, 1699000009000)
                    sampleService r.2)).
Proof.
  apply (delete_after_recalculation (λ _, 1699000001000) (λ _, 1699000009000)
           sampleService sampleService sampleStore sampleRecalculated.1
           sampleRecalculated.2 "zed").
  - compute_done.
  - vm_compute. reflexivity.
Defined.

Lemma current_ratings_agree_witness :
  match FirebaseStatsService.recalculatePlayerStats (λ _, 1699000001000)
          sampleService sampleStore with
  | Some r =>
      (∀ k, FirebaseStatsService.getCurrentTrueSkillRatings sampleStore !! k
            = DBPlayer.elo <$> players r.2 !! k)
      ∧ (∀ k, FirebaseStatsService.getCurrentTrueSkillRatings sampleStore !! k
              = getDisplayRating <$> players r.2 !! k)
      ∧ FirebaseStatsService.getCurrentTrueSkillRatings r.2
        = FirebaseStatsService.getCurrentTrueSkillRatings sampleStore
  | None => FirebaseStatsService.getCurrentTrueSkillRatings sampleStore = ∅
  end.
Proof.
  apply (current_ratings_agree (λ _, 1699000001000) sampleService sampleStore).
  compute_done.
Defined.

Lemma historical_ratings_witness :
  let history := FirebaseStatsService.getHistoricalRatings pretty sampleStore in
  match FirebaseStatsService.recalculatePlayerStats (λ _, 1699000001000)
          sampleService sampleStore with
  | Some _ =>
      RatingSnapshot.matchNumber <$> history =
        (λ im, Z.of_nat im.1 + 1) <$>
          filter (λ im, counted sampleStore im.2)
                 (imap pair (FirebaseStatsService.sortByDate (getAllMatches sampleStore)))
      ∧ length history = length (filter (counted sampleStore) (getAllMatches sampleStore))
      ∧ (∀ snap k, snap ∈ history →
           is_Some (RatingSnapshot.ratings snap !! k) ↔ is_Some (players sampleStore !! k))
      ∧ (∀ snap, last history = Some snap →
           RatingSnapshot.ratings snap
           = FirebaseStatsService.getCurrentTrueSkillRatings sampleStore)
  | None => history = []
  end.
Proof.
  apply (historical_ratings pretty (λ _, 1699000001000) sampleService sampleStore).
  compute_done.
Defined.

Lemma editable_store_recalculates_witness :
  is_Some (FirebaseStatsService.recalculatePlayerStats (λ _, 1699000001000)
             sampleService sampleStore).
Proof.
  apply editable_store_recalculates.
  - compute_done.
  - apply Forall_forall. compute_done.
Defined.

Lemma record_match_succeeds_witness :
  (is_Some (MatchService.recordMatch sampleShow sampleClock (λ _, 1699100000500)
              (λ _, 1699100001000) "m-2" (sampleRowUuid "rematch-") sampleService
              sampleMatchData rematchPlayerData sampleStore)
   ↔ ValidationResult.isValid
       (validateNewMatch sampleShow sampleClock sampleMatchData rematchPlayerData) = true)
  ∧ ∀ r, MatchService.recordMatch sampleShow sampleClock (λ _, 1699100000500)
           (λ _, 1699100001000) "m-2" (sampleRowUuid "rematch-") sampleService
           sampleMatchData rematchPlayerData sampleStore = Some r → r.1 = "m-2".
Proof.
  apply (record_match_succeeds sampleShow sampleClock (λ _, 1699100000500)
           (λ _, 1699100001000) (λ _, 1699000001000) "m-2" (sampleRowUuid "rematch-")
           sampleService sampleService sampleMatchData rematchPlayerData sampleStore).
  - compute_done.
  - compute_done.
  - change (map_Forall (λ _ mp, DBMatchPlayer.matchId mp ≠ "m-2")
                       (matchPlayers sampleStore)).
    compute_done.
Defined.

Lemma recorded_match_stored_witness :
  let s1 := sampleRecorded.2.2 in
  sampleRecorded.1 = "m-2"
  ∧ getMatch s1 "m-2" = Some (MatchService.newMatch "m-2" sampleMatchData rematchPlayerData)
  ∧ getMatchPlayers s1 "m-2"
    ≡ₚ imap (λ i playerInfo,
               MatchService.newMatchPlayer (sampleRowUuid "rematch-" i) "m-2" playerInfo)
            rematchPlayerData
  ∧ CanEdit.canEdit (FirebaseMatchService.canEditMatch s1 "m-2") = true
  ∧ FirebaseStatsService.hasMatchData s1 = true.
Proof.
  apply (recorded_match_stored sampleShow sampleClock (λ _, 1699100000500)
           (λ _, 1699100001000) "m-2" (sampleRowUuid "rematch-") sampleService
           sampleMatchData rematchPlayerData sampleStore sampleRecorded).
  - compute_done.
  - change (map_Forall (λ _ mp, DBMatchPlayer.matchId mp ≠ "m-2")
                       (matchPlayers sampleStore)).
    compute_done.
  - compute_done.
  - vm_compute. reflexivity.
Defined.

Lemma delete_match_effect_witness :
  (is_Some (MatchService.deleteMatch (λ _, 1699000009000) sampleService "m-1" sampleStore)
   ↔ is_Some (getMatch sampleStore "m-1"))
  ∧ ∀ r, MatchService.deleteMatch (λ _, 1699000009000) sampleService "m-1" sampleStore
         = Some r →
      getMatch r.2 "m-1" = None
      ∧ getMatchPlayers r.2 "m-1" = []
      ∧ (∀ k, k ≠ "m-1" → matches r.2 !! k = matches sampleStore !! k)
      ∧ (∀ k mp, matchPlayers r.2 !! k = Some mp
                 ↔ matchPlayers sampleStore !! k = Some mp
                   ∧ DBMatchPlayer.matchId mp ≠ "m-1")
      ∧ (∀ k, is_Some (players r.2 !! k) ↔ is_Some (players sampleStore !! k)).
Proof.
  apply (delete_match_effect (λ _, 1699000009000) (λ _, 1699000001000)
           sampleService sampleService "m-1" sampleStore).
  - compute_done.
  - compute_done.
Defined.


Lemma tallies_closed_form_witness :
  ∃ p, players sampleRecalculated.2 !! "ann" = Some p
    ∧ DBPlayer.totalGames p
      = totalCount (gamesOfMatch sampleStore "ann") (getAllMatches sampleStore)
    ∧ DBPlayer.wins p
      = totalCount (winsOfMatch sampleStore "ann") (getAllMatches sampleStore)
    ∧ DBPlayer.losses p = DBPlayer.totalGames p - DBPlayer.wins p.
Proof.
  destruct (players sampleRecalculated.2 !! "ann") as [p|] eqn:Hp;
    [|vm_compute in Hp; discriminate].
  exists p. split; [reflexivity |].
  apply (tallies_closed_form (λ _, 1699000001000) sampleService sampleStore
           sampleRecalculated "ann" p
           ltac:(compute_done) ltac:(vm_compute; reflexivity) Hp).
Defined.

Lemma export_contents_witness :
  let data := FirebaseImportExportService.exportData 1699300000000 sampleStore in
  ExportData.players data = getAllPlayers sampleStore
  ∧ ExportData.matches data = getAllMatches sampleStore
  ∧ ExportData.matchPlayers data
    ≡ₚ filter (λ mp, is_Some (matches sampleStore !! DBMatchPlayer.matchId mp))
              (getAllMatchPlayers sampleStore)
  ∧ (∀ mp, mp ∈ ExportData.matchPlayers data
           ↔ (∃ k, matchPlayers sampleStore !! k = Some mp)
             ∧ is_Some (matches sampleStore !! DBMatchPlayer.matchId mp))
  ∧ ExportData.version data = 4.
Proof. apply (export_contents 1699300000000 sampleStore). compute_done. Defined.

Lemma export_import_roundtrip_witness :
  FirebaseImportExportService.importData (λ _, 1699000001000) sampleService
    (sampleRowUuid "match-") (sampleRowUuid "row-")
    (FirebaseImportExportService.exportData 1699300000000 sampleStore) ratedStore
  = match FirebaseStatsService.recalculatePlayerStats (λ _, 1699000001000)
            sampleService sampleStore with
    | Some r => (true, r.2)
    | None => (false, sampleStore)
    end.
Proof.
  apply (export_import_roundtrip (λ _, 1699000001000) 1699300000000 sampleService
           (sampleRowUuid "match-") (sampleRowUuid "row-") sampleStore ratedStore).
  - compute_done.
  - compute_done.
Defined.

Lemma ratings_loaded_once_witness :
  let this1 :=
    (MatchMakingService.calculateWinProbabilityWithCI duelStore sampleMatchMaking
       ["ann"] ["bob"]).2 in
  (MatchMakingService.calculateWinProbability duelStore sampleMatchMaking
     ["ann"] ["bob"]).2 = this1
  ∧ ∀ s1 s2 team1 team2,
      MatchMakingService.calculateWinProbabilityWithCI s1 this1 team1 team2
        = MatchMakingService.calculateWinProbabilityWithCI s2 this1 team1 team2
      ∧ MatchMakingService.calculateWinProbability s1 this1 team1 team2
        = MatchMakingService.calculateWinProbability s2 this1 team1 team2
      ∧ (MatchMakingService.calculateWinProbabilityWithCI s1 this1 team1 team2).2 = this1.
Proof.
  apply (ratings_loaded_once duelStore sampleMatchMaking ["ann"] ["bob"]).
  right. compute_done.
Defined.

Lemma balance_gap_witness :
  let playerIds := ["kim"; "lou"; "max"; "nat"] in
  let selected := MatchMakingService.selectPlayers ratedStore playerIds in
  (∃ team1 team2,
     (MatchMakingService.generateBalancedTeams ratedStore sampleMatchMaking playerIds).1
       = (DBPlayer.id <$> team1, DBPlayer.id <$> team2)
     ∧ team1 ++ team2 ≡ₚ selected ∧ team1 ≠ []
     ∧ Z.abs (teamTotal getDisplayRating team1 - teamTotal getDisplayRating team2) ≤ 2000)
  ∧ (∃ team1 team2,
       MatchMakingService.generateBalancedTeamsByExperience ratedStore playerIds
         = (DBPlayer.id <$> team1, DBPlayer.id <$> team2)
       ∧ team1 ++ team2 ≡ₚ selected ∧ team1 ≠ []
       ∧ Z.abs (teamTotal DBPlayer.totalGames team1
                - teamTotal DBPlayer.totalGames team2) ≤ 2000).
Proof.
  intros playerIds selected.
  destruct (balance_gap ratedStore sampleMatchMaking playerIds 2000 ltac:(compute_done))
    as [Hskill Hexperience].
  split.
  - apply Hskill. apply Forall_forall. compute_done.
  - apply Hexperience. apply Forall_forall. compute_done.
Defined.

Lemma experience_all_new_witness :
  let playerIds := ["ann"; "bob"; "cy"; "dee"] in
  MatchMakingService.generateBalancedTeamsByExperience sampleStore playerIds
  = (DBPlayer.id <$> MatchMakingService.selectPlayers sampleStore playerIds, []).
Proof.
  apply (experience_all_new sampleStore ["ann"; "bob"; "cy"; "dee"]).
  - compute_done.
  - apply Forall_forall. compute_done.
Defined.

Lemma game_counters_in_range_witness :
  validState (dispatchAll 7 (App.createInitialGameState (3 # 4)) sampleActions).
Proof.
  apply game_counters_in_range.
  - compute_done.
  - compute_done.
Defined.

Lemma turns_cycle_witness :
  let next := App.gameReducer 7 (1 # 4) sampleGame App.START_NEXT_TURN in
  let later := dispatchAll 7 sampleGame (replicate 4 (1 # 4, App.START_NEXT_TURN)) in
  App.GameState.turn next = App.GameState.turn sampleGame `mod` 4 + 1
  ∧ App.GameState.round next
    = App.GameState.round sampleGame
      + (if decide (App.GameState.turn sampleGame = 4) then 1 else 0)
  ∧ App.GameState.currentPhase next = App.strategy
  ∧ App.GameState.completedTurns next = []
  ∧ App.GameState.allPlayersMoved next = false
  ∧ App.GameState.turn later = App.GameState.turn sampleGame
  ∧ App.GameState.round later = App.GameState.round sampleGame + 1.
Proof. apply (turns_cycle 7 (1 # 4) sampleGame). compute_done. Defined.

Lemma wave_buttons_witness :
  let reduce := App.gameReducer 7 (1 # 4) in
  reduce (reduce sampleGame (App.INCREMENT_WAVE App.Top)) (App.DECREMENT_WAVE App.Top)
    = sampleGame
  ∧ reduce sampleGame (App.DECREMENT_WAVE App.Top) = sampleGame
  ∧ reduce sampleGame (App.INCREMENT_WAVE App.Single) = sampleGame.
Proof.
  intros reduce.
  destruct (wave_buttons 7 (1 # 4) sampleGame App.Top (App.LaneState.mk 1 7)
              ltac:(reflexivity) ltac:(reflexivity))
    as (Hundo & _ & Hfirst & Hother & _).
  split_and!.
  - apply Hundo. simpl. lia.
  - apply Hfirst. reflexivity.
  - exact Hother.
Defined.

Lemma pick_ban_counts_witness :
  let sequence := App.generatePickBanSequence 7 in
  Z.of_nat (length (stepsOf App.pick sequence)) = 8
  ∧ Z.of_nat (length (stepsOf App.ban sequence)) = 8
  ∧ length (stepsOfTeam App.A (stepsOf App.pick sequence))
    = length (stepsOfTeam App.B (stepsOf App.pick sequence))
  ∧ length (stepsOfTeam App.A (stepsOf App.ban sequence))
    = length (stepsOfTeam App.B (stepsOf App.ban sequence)).
Proof. apply (pick_ban_counts 7). lia. Defined.
